(** * peernet-core: peer registry, keep-alive scheduler and interface monitor

    A shallow embedding of the Go sources [Commands.go], [Network Detection.go]
    and [Peer ID.go], followed by the properties established about them.

    Conventions of the embedding:
    - a Go pointer is an index into a heap (a list) of the pointed-to records,
      so that two holders of one pointer observe each other's writes;
    - [time.Time] and [time.Duration] are integers counting nanoseconds;
    - a Go [error] is [option string]: [None] is [nil], [Some msg] an error
      whose [Error()] text is [msg];
    - the mutexes are left out: every function runs to completion on its own. *)

From Stdlib Require Import ZArith String Ascii List Lia Bool.
From stdpp Require Import base option list gmap strings pretty.

Local Open Scope string_scope.
Local Open Scope list_scope.
Local Open Scope stdpp_scope.
Local Open Scope Z_scope.
Local Open Scope nat_scope.

(* ===================================================================== *)
(** ** Go runtime: strings, time, errors                                  *)
(* ===================================================================== *)

(** [strings.Contains(s, substr)]: [substr] occurs somewhere within [s]. *)
Fixpoint Contains (s substr : string) : bool :=
  if String.prefix substr s then true
  else match s with
       | EmptyString => false
       | String _ rest => Contains rest substr
       end.

(** [time.Time] and [time.Duration] *)
Abbreviation Time := Z (only parsing).
Abbreviation Duration := Z (only parsing).

(** [time.Second], in nanoseconds. *)
Definition Second : Duration := 1000000000%Z.

(** [t.Before(u)] *)
Definition Before (t u : Time) : bool := (t <? u)%Z.

(** [t.Add(d)] *)
Definition Add (t : Time) (d : Duration) : Time := (t + d)%Z.

(** [error] *)
Abbreviation error := (option string) (only parsing).

(* ===================================================================== *)
(** ** Network Detection.go                                               *)
(* ===================================================================== *)

(** [IsNetworkErrorFatal]: lines 80-91. *)
Definition IsNetworkErrorFatal (err : error) : bool :=
  match err with
  | None => false
  | Some text =>
      if Contains text "requested address is not valid in its context"
      then true
      else false
  end.

(** [net.Interface], reduced to the field the monitor reads. *)
Record Interface := { Name : string }.

(** Modelled from the spec: the Listener record (type [Network], declared
    outside the files at hand): its optional owning interface and its bound
    address. *)
Record Network := {
  iface : option Interface;
  address : string
}.

(** [*Network] *)
Abbreviation NetPtr := nat (only parsing).

(** A slice of listeners: its backing array and its length. The capacity is
    the length of the backing array. *)
Record Slice := {
  backing : list NetPtr;
  len : nat
}.

Definition cap (s : Slice) : nat := length (backing s).

(** The elements a slice exposes. *)
Definition elements (s : Slice) : list NetPtr := take (len s) (backing s).

Definition mkSlice (l : list NetPtr) : Slice := {| backing := l; len := length l |}.

(** [s[:n]]: same array, length [n]; Go allows [n] up to the capacity and
    panics beyond. *)
Definition sliceTo (s : Slice) (n : nat) : option Slice :=
  if decide (n ≤ cap s) then Some {| backing := backing s; len := n |} else None.

(** [s[n:]]: the values from index [n] up to the length; panics for [n]
    beyond the length. *)
Definition sliceFrom (s : Slice) (n : nat) : option (list NetPtr) :=
  if decide (n ≤ len s) then Some (drop n (elements s)) else None.

(** [append(s, xs...)]: written in place when the capacity suffices, into a
    fresh array otherwise. *)
Definition append (s : Slice) (xs : list NetPtr) : Slice :=
  if decide (len s + length xs ≤ cap s)
  then {| backing := take (len s) (backing s) ++ xs ++ drop (len s + length xs) (backing s);
          len := len s + length xs |}
  else mkSlice (elements s ++ xs).

(** The state the monitor works on. [terminated] records every call of
    [Terminate], oldest first. *)
Record NetState := {
  listeners : list Network;
  networks4 : Slice;
  networks6 : Slice;
  terminated : list NetPtr
}.

(** Modelled from the spec: [Terminate()] of a Listener (defined outside the
    files at hand) closes the socket and stops the receive loop; the model
    records the call. *)
Definition Terminate (network : NetPtr) (log : list NetPtr) : list NetPtr :=
  log ++ [network].

(** [network.iface != nil && network.iface.Name == iface] *)
Definition ownedBy (heap : list Network) (ifaceName : string) (network : NetPtr) : bool :=
  match heap !! network with
  | Some nw =>
      match iface nw with
      | Some i => bool_decide (Name i = ifaceName)
      | None => false
      end
  | None => false
  end.

(** The "remove from list" block, lines 189-193: the list without index [n],
    built in the list's own array. [None] is a panic. *)
Definition removeFromList (networks : Slice) (n : nat) : option Slice :=
  networksNew ← sliceTo networks n;
  if decide ((Z.of_nat n < Z.of_nat (len networks) - 1)%Z)
  then tail ← sliceFrom networks (n + 1); Some (append networksNew tail)
  else Some networksNew.

(** One round of [for n, network := range networks] in
    [networkChangeInterfaceRemove]. The range expression was evaluated once,
    before the loop, and since [removeFromList] never
    outgrows the capacity, it shares the array of the current list; round [n]
    therefore reads index [n] of the current backing array. *)
Definition removeRound (heap : list Network) (ifaceName : string)
    (st : option (Slice * list NetPtr)) (n : nat) : option (Slice * list NetPtr) :=
  '(networks, log) ← st;
  match backing networks !! n with
  | Some network =>
      if ownedBy heap ifaceName network
      then networks' ← removeFromList networks n;
           Some (networks', Terminate network log)
      else Some (networks, log)
  | None => None
  end.

(** A whole loop over one list. *)
Definition removeLoop (heap : list Network) (ifaceName : string)
    (networks : Slice) (log : list NetPtr) : option (Slice * list NetPtr) :=
  foldl (removeRound heap ifaceName) (Some (networks, log)) (seq 0 (len networks)).

(** [networkChangeInterfaceRemove], lines 178-209: first the IPv6 list, then
    the IPv4 list. [None] is a panic. *)
Definition networkChangeInterfaceRemove (ifaceName : string) (st : NetState) : option NetState :=
  '(n6, log6) ← removeLoop (listeners st) ifaceName (networks6 st) (terminated st);
  '(n4, log4) ← removeLoop (listeners st) ifaceName (networks4 st) log6;
  Some {| listeners := listeners st; networks4 := n4; networks6 := n6; terminated := log4 |}.

(** The last part of one monitor cycle, lines 159-166: every interface of the
    previous snapshot that the current one lacks is removed, then the current
    snapshot replaces the previous one. *)
Definition monitorRemoved (ifacesExist ifacesNew : gmap string (list string)) (st : NetState)
    : option NetState * gmap string (list string) :=
  (foldl (λ acc '(ifaceExist, _),
            st' ← acc;
            match ifacesNew !! ifaceExist with
            | Some _ => Some st'
            | None => networkChangeInterfaceRemove ifaceExist st'
            end)
         (Some st) (map_to_list ifacesExist),
   ifacesNew).

(* ===================================================================== *)
(** ** Connections, peers and the world they live in                      *)
(* ===================================================================== *)

(** Connection status. *)
Inductive ConnectionStatus :=
  | ConnectionActive
  | ConnectionInactive
  | ConnectionRemoved
  | ConnectionRedundant.

#[global] Instance ConnectionStatus_eq_dec : EqDecision ConnectionStatus.
Proof. solve_decision. Defined.

(** Modelled from the spec: the Connection record (declared outside the files
    at hand): remote address, status, the times of the last inbound packet
    and of the last outbound ping, and the expiry used while inactive. *)
Record Connection := {
  Address : string;
  Status : ConnectionStatus;
  LastPacketIn : Time;
  LastPingOut : Time;
  Expires : Time
}.

(** [*Connection] and [*PeerInfo] *)
Abbreviation ConnPtr := nat (only parsing).
Abbreviation PeerPtr := nat (only parsing).

(** [btcec.PublicKey]: a point of the curve. *)
Record btcecPublicKey := { X : Z; Y : Z }.

(** [SerializeCompressed] of a public key belongs to the btcec library; the
    development is parametric in it. Bytes are integers in 0..255. *)
Class Btcec := SerializeCompressed : btcecPublicKey → list Z.

(** [btcec.PubKeyBytesLenCompressed] *)
Definition PubKeyBytesLenCompressed : nat := 33.

(** [PeerInfo], lines 67-77 of Peer ID.go (the mutex apart). *)
Record PeerInfo := {
  PublicKey : btcecPublicKey;
  connectionActive : list ConnPtr;
  connectionInactive : list ConnPtr;
  connectionLatest : option ConnPtr;
  StatsPacketSent : Z;
  StatsPacketReceived : Z
}.

(** Commands between peers, lines 17-31 of Commands.go. *)
Definition CommandAnnouncement : Z := 0.
Definition CommandResponse : Z := 1.
Definition CommandPing : Z := 2.
Definition CommandPong : Z := 3.
Definition CommandGet : Z := 4.
Definition CommandChat : Z := 10.

(** [PacketRaw], reduced to the fields the handlers set. *)
Record PacketRaw := {
  Command : Z;
  Payload : list Z
}.

(** [packet2], lines 34-38. *)
Record packet2 := {
  Raw : PacketRaw;
  SenderPublicKey : btcecPublicKey;
  connection : ConnPtr
}.

(** One attempt to transmit: who sent what on which connection, and what the
    operating system answered. *)
Record Transmission := {
  txPeer : PeerPtr;
  txConnection : ConnPtr;
  txPacket : PacketRaw;
  txResult : error
}.

(** The world: the clock, the two heaps, the registry [peerList] keyed by the
    compressed public key, the transmissions attempted so far (oldest first)
    and the answers the operating system will give to the coming ones. *)
Record World := {
  now : Time;
  connHeap : list Connection;
  peerHeap : list PeerInfo;
  peerList : gmap (list Z) PeerPtr;
  wire : list Transmission;
  sendResults : list error
}.

Definition setConnHeap (h : list Connection) (w : World) : World :=
  {| now := now w; connHeap := h; peerHeap := peerHeap w; peerList := peerList w;
     wire := wire w; sendResults := sendResults w |}.

Definition setPeerHeap (h : list PeerInfo) (w : World) : World :=
  {| now := now w; connHeap := connHeap w; peerHeap := h; peerList := peerList w;
     wire := wire w; sendResults := sendResults w |}.

Definition setPeerList (m : gmap (list Z) PeerPtr) (w : World) : World :=
  {| now := now w; connHeap := connHeap w; peerHeap := peerHeap w; peerList := m;
     wire := wire w; sendResults := sendResults w |}.

(** Writes through a pointer. A pointer outside the heap has no counterpart in
    Go; the model leaves the world as it is. *)
Definition updConnection (c : ConnPtr) (f : Connection → Connection) (w : World) : World :=
  setConnHeap (alter f c (connHeap w)) w.

Definition updPeer (p : PeerPtr) (f : PeerInfo → PeerInfo) (w : World) : World :=
  setPeerHeap (alter f p (peerHeap w)) w.

Definition withStatus (s : ConnectionStatus) (c : Connection) : Connection :=
  {| Address := Address c; Status := s; LastPacketIn := LastPacketIn c;
     LastPingOut := LastPingOut c; Expires := Expires c |}.

Definition withLastPingOut (t : Time) (c : Connection) : Connection :=
  {| Address := Address c; Status := Status c; LastPacketIn := LastPacketIn c;
     LastPingOut := t; Expires := Expires c |}.

Definition withExpires (t : Time) (c : Connection) : Connection :=
  {| Address := Address c; Status := Status c; LastPacketIn := LastPacketIn c;
     LastPingOut := LastPingOut c; Expires := t |}.

Definition withLists (act inact : list ConnPtr) (p : PeerInfo) : PeerInfo :=
  {| PublicKey := PublicKey p; connectionActive := act; connectionInactive := inact;
     connectionLatest := connectionLatest p;
     StatsPacketSent := StatsPacketSent p; StatsPacketReceived := StatsPacketReceived p |}.

(** [time.Now()] *)
Definition Now (w : World) : Time := now w.

(** [time.Sleep(d)] *)
Definition Sleep (d : Duration) (w : World) : World :=
  {| now := Add (now w) d; connHeap := connHeap w; peerHeap := peerHeap w;
     peerList := peerList w; wire := wire w; sendResults := sendResults w |}.

(** A list of pointers without the pointer [c]. *)
Definition without (c : ConnPtr) (l : list ConnPtr) : list ConnPtr :=
  filter (λ x, x ≠ c) l.

(* ===================================================================== *)
(** ** Peer ID.go: the registry                                           *)
(* ===================================================================== *)

Section Registry.
Context `{Btcec}.

(** [publicKey2Compressed], lines 139-143: the serialized key copied into a
    zeroed array of 33 bytes. *)
Definition publicKey2Compressed (publicKey : btcecPublicKey) : list Z :=
  take PubKeyBytesLenCompressed
       (SerializeCompressed publicKey ++ replicate PubKeyBytesLenCompressed 0%Z).

(** [PeerlistAdd], lines 83-100. The result is the peer (or [nil]), the flag
    [added], and the world afterwards. *)
Definition PeerlistAdd (PublicKey0 : btcecPublicKey) (connections : list ConnPtr) (w : World)
    : option PeerPtr * bool * World :=
  match connections with
  | [] => (None, false, w)
  | first :: _ =>
      match peerList w !! publicKey2Compressed PublicKey0 with
      | Some peer => (Some peer, false, w)
      | None =>
          let info := {| PublicKey := PublicKey0;
                         connectionActive := connections;
                         connectionInactive := [];
                         connectionLatest := Some first;
                         StatsPacketSent := 0;
                         StatsPacketReceived := 0 |} in
          let peer := length (peerHeap w) in
          (Some peer, true,
           setPeerList (<[publicKey2Compressed (PublicKey info) := peer]> (peerList w))
                       (setPeerHeap (peerHeap w ++ [info]) w))
      end
  end.

(** [PeerlistGet], lines 111-120. *)
Definition PeerlistGet (w : World) : list PeerPtr :=
  (map_to_list (peerList w)).*2.

(** [PeerlistLookup], lines 123-129. *)
Definition PeerlistLookup (publicKey : btcecPublicKey) (w : World) : option PeerPtr :=
  peerList w !! publicKey2Compressed publicKey.

(** [PeerlistCount], lines 132-137. *)
Definition PeerlistCount (w : World) : nat := size (peerList w).

(** The records of the registry whose public key is the identity [k]. *)
Definition recordsOf (k : list Z) (w : World) : list PeerPtr :=
  filter (λ p, (λ info, publicKey2Compressed (PublicKey info)) <$> peerHeap w !! p = Some k)
         (PeerlistGet w).

End Registry.

(* ===================================================================== *)
(** ** Commands.go: sending, the handlers and the keep-alive scheduler    *)
(* ===================================================================== *)

(** Modelled from the spec: [sendConnection] (defined outside the files at
    hand) is the per-connection send, "SendOnConnection(packet, connection)".
    The model records the attempt on the wire and returns the answer of the
    operating system, [nil] when none is scripted. *)
Definition sendConnection (peer : PeerPtr) (packet : PacketRaw) (connection : ConnPtr)
    (w : World) : error * World :=
  let err := match sendResults w with
             | [] => None
             | e :: _ => e
             end in
  (err,
   {| now := now w; connHeap := connHeap w; peerHeap := peerHeap w; peerList := peerList w;
      wire := wire w ++ [{| txPeer := peer; txConnection := connection;
                            txPacket := packet; txResult := err |}];
      sendResults := tail (sendResults w) |}).

(** Modelled from the spec: [send] (defined outside the files at hand) sends
    on the peer's preferred connection, the reference to "the most recently
    valid connection" that the peer holds. Without such a connection nothing
    is sent and an error is returned. *)
Definition send (peer : PeerPtr) (packet : PacketRaw) (w : World) : error * World :=
  match peerHeap w !! peer with
  | Some info =>
      match connectionLatest info with
      | Some connection => sendConnection peer packet connection w
      | None => (Some "no connection to peer", w)
      end
  | None => (Some "no connection to peer", w)
  end.

(** [pingTime], [connectionInvalidate], [connectionRemove]: lines 93-99. *)
Definition pingTime : Z := 10.
Definition connectionInvalidate : Z := 22.
Definition connectionRemove : Z := (2 * 60)%Z.

(** Modelled from the spec: [invalidateActiveConnection] (defined outside the
    files at hand) moves the connection to the inactive list: its status
    becomes Inactive, its expiry starts ([connectionRemove] seconds from now),
    it leaves the active list and joins the inactive one. *)
Definition invalidateActiveConnection (peer : PeerPtr) (input : ConnPtr) (w : World) : World :=
  let w1 := updConnection input
              (λ c, withExpires (Add (Now w) (connectionRemove * Second)%Z)
                      (withStatus ConnectionInactive c)) w in
  updPeer peer (λ p, withLists (without input (connectionActive p))
                               (connectionInactive p ++ [input]) p) w1.

(** Modelled from the spec: [removeInactiveConnection] (defined outside the
    files at hand) purges the connection: it is removed from the inactive
    list, a terminal state. *)
Definition removeInactiveConnection (peer : PeerPtr) (input : ConnPtr) (w : World) : World :=
  let w1 := updConnection input (withStatus ConnectionRemoved) w in
  updPeer peer (λ p, withLists (connectionActive p)
                               (without input (connectionInactive p)) p) w1.

(** Modelled from the spec: [GetConnections] (defined outside the files at
    hand) returns the peer's active (or inactive) connections as they are at
    the call. *)
Definition GetConnections (peer : PeerPtr) (active : bool) (w : World) : list ConnPtr :=
  match peerHeap w !! peer with
  | Some info => if active then connectionActive info else connectionInactive info
  | None => []
  end.

(** [sendPing], lines 150-157. *)
Definition sendPing (peer : PeerPtr) (connection : ConnPtr) (w : World) : World :=
  let '(err, w1) := sendConnection peer {| Command := CommandPing; Payload := [] |} connection w in
  let w2 := updConnection connection (withLastPingOut (Now w1)) w1 in
  match connHeap w2 !! connection with
  | Some conn =>
      if (bool_decide (Status conn = ConnectionActive)
          || bool_decide (Status conn = ConnectionRedundant))
         && IsNetworkErrorFatal err
      then invalidateActiveConnection peer connection w2
      else w2
  | None => w2
  end.

(** The four thresholds of one tick, lines 105-108. *)
Record Thresholds := {
  thresholdInvalidate1 : Time;
  thresholdInvalidate2 : Time;
  thresholdPingOut1 : Time;
  thresholdPingOut2 : Time
}.

Definition thresholds (w : World) : Thresholds :=
  {| thresholdInvalidate1 := Add (Now w) (- connectionInvalidate * Second)%Z;
     thresholdInvalidate2 := Add (Now w) (- connectionInvalidate * Second * 4)%Z;
     thresholdPingOut1 := Add (Now w) (- pingTime * Second)%Z;
     thresholdPingOut2 := Add (Now w) (- pingTime * Second * 4)%Z |}.

(** The body of the loop over the active connections, lines 113-129. *)
Definition activeRound (th : Thresholds) (peer : PeerPtr) (w : World) (connection : ConnPtr)
    : World :=
  match connHeap w !! connection with
  | Some conn =>
      let redundant := bool_decide (Status conn = ConnectionRedundant) in
      let thresholdPing := if redundant then thresholdPingOut2 th else thresholdPingOut1 th in
      let thresholdInv := if redundant then thresholdInvalidate2 th else thresholdInvalidate1 th in
      if Before (LastPacketIn conn) thresholdInv
      then invalidateActiveConnection peer connection w
      else if Before (LastPacketIn conn) thresholdPing && Before (LastPingOut conn) thresholdPing
           then sendPing peer connection w
           else w
  | None => w
  end.

(** The condition of line 135: the expired connection is to be removed. *)
Definition purgeGuard (info : PeerInfo) (conn : Connection) (w : World) : bool :=
  (bool_decide (1 ≤ length (connectionActive info))
   || bool_decide (2 < length (connectionInactive info)))
  && Before (Expires conn) (Now w).

(** The body of the loop over the inactive connections, lines 134-143. *)
Definition inactiveRound (th : Thresholds) (peer : PeerPtr) (w : World) (connection : ConnPtr)
    : World :=
  match peerHeap w !! peer, connHeap w !! connection with
  | Some info, Some conn =>
      if purgeGuard info conn w
      then removeInactiveConnection peer connection w
      else if Before (LastPingOut conn) (thresholdPingOut1 th)
           then sendPing peer connection w
           else w
  | _, _ => w
  end.

(** The two loops for one peer, lines 111-144. *)
Definition activePass (th : Thresholds) (peer : PeerPtr) (w : World) : World :=
  foldl (activeRound th peer) w (GetConnections peer true w).

Definition inactivePass (th : Thresholds) (peer : PeerPtr) (w : World) : World :=
  foldl (inactiveRound th peer) w (GetConnections peer false w).

Definition peerRound (th : Thresholds) (w : World) (peer : PeerPtr) : World :=
  inactivePass th peer (activePass th peer w).

(** One tick of the scheduler, lines 105-145, taken at one instant: every
    [time.Now()] of the tick reads the same clock. Go ranges over the map
    behind [PeerlistGet] in an order of its choosing: [order] is the order in
    which this tick visits the peers, a permutation of [PeerlistGet w]. *)
Definition tick (order : list PeerPtr) (w : World) : World :=
  foldl (peerRound (thresholds w)) w order.

(** The tick that visits the peers in the order of the model's map. *)
Definition tickInOrder (w : World) : World := tick (PeerlistGet w) w.

(** [autoPingAll], lines 102-147: the endless loop, cut after as many
    iterations as there are [orders]. *)
Definition autoPingAll (orders : list (list PeerPtr)) (w : World) : World :=
  foldl (λ w' order, tick order (Sleep Second w')) w orders.

Section Handlers.
Context `{Btcec}.

(** [cmdAnouncement], lines 41-57. [None] is the [nil] peer. The console
    output is left out. *)
Definition cmdAnouncement (peer : option PeerPtr) (msg : packet2) (w : World) : World :=
  match peer with
  | None =>
      let '(peer', added, w1) := PeerlistAdd (SenderPublicKey msg) [connection msg] w in
      if added
      then match peer' with
           | Some p => (send p {| Command := CommandResponse; Payload := [] |} w1).2
           | None => w1
           end
      else w1
  | Some p => (send p {| Command := CommandResponse; Payload := [] |} w).2
  end.

(** [cmdResponse], lines 60-69. *)
Definition cmdResponse (peer : option PeerPtr) (msg : packet2) (w : World) : World :=
  match peer with
  | None => (PeerlistAdd (SenderPublicKey msg) [connection msg] w).2
  | Some _ => w
  end.

(** [cmdPing], lines 72-80. *)
Definition cmdPing (peer : option PeerPtr) (msg : packet2) (w : World) : World :=
  match peer with
  | None => w
  | Some p => (send p {| Command := CommandPong; Payload := [] |} w).2
  end.

End Handlers.

(** The registry right after [initPeerID]: no peer, nothing sent. *)
Definition emptyWorld (t : Time) (conns : list Connection) (answers : list error) : World :=
  {| now := t; connHeap := conns; peerHeap := []; peerList := ∅;
     wire := []; sendResults := answers |}.

(* ===================================================================== *)
(** ** Vocabulary of the statements                                       *)
(* ===================================================================== *)

(** The text [IsNetworkErrorFatal] looks for. *)
Definition addressNotValid : string := "requested address is not valid in its context".

(** [text] contains [pattern]. *)
Definition occursIn (pattern text : string) : Prop :=
  ∃ before after, text = before +:+ pattern +:+ after.

(** Seconds, as a time. *)
Definition seconds (n : Z) : Time := (n * Second)%Z.

(** The answer the operating system gives to the next transmission. *)
Definition nextResult (w : World) : error :=
  match sendResults w with
  | [] => None
  | e :: _ => e
  end.

(** The packets of the keep-alive and of the handshake. *)
Definition pingPacket : PacketRaw := {| Command := CommandPing; Payload := [] |}.
Definition responsePacket : PacketRaw := {| Command := CommandResponse; Payload := [] |}.

(** The first two lines of [sendPing]: the ping is attempted and
    [LastPingOut] stamped. *)
Definition pingAttempt (peer : PeerPtr) (connection : ConnPtr) (w : World) : World :=
  updConnection connection (withLastPingOut (Now w)) (sendConnection peer pingPacket connection w).2.

(** The pings transmitted on a connection. *)
Definition pingsOn (connection : ConnPtr) (log : list Transmission) : list Transmission :=
  filter (λ tx, txConnection tx = connection ∧ Command (txPacket tx) = CommandPing) log.

(** What [invalidateActiveConnection] at time [t] makes of a connection. *)
Definition invalidated (t : Time) (c : Connection) : Connection :=
  withExpires (Add t (connectionRemove * Second)%Z) (withStatus ConnectionInactive c).

(** The status of a connection and the lists of a peer, read through the
    pointer. *)
Definition statusOf (c : ConnPtr) (w : World) : option ConnectionStatus :=
  Status <$> connHeap w !! c.

Definition activeOf (p : PeerPtr) (w : World) : list ConnPtr := GetConnections p true w.
Definition inactiveOf (p : PeerPtr) (w : World) : list ConnPtr := GetConnections p false w.

(** The test of line 154 on the status. *)
Definition activeOrRedundant (s : ConnectionStatus) : bool :=
  bool_decide (s = ConnectionActive) || bool_decide (s = ConnectionRedundant).

Section RegistryVocabulary.
Context `{Btcec}.

(** A run of [PeerlistAdd] calls, with what each call returned. *)
Fixpoint PeerlistAddAll (calls : list (btcecPublicKey * list ConnPtr)) (w : World)
    : list (option PeerPtr * bool) * World :=
  match calls with
  | [] => ([], w)
  | (pk, conns) :: rest =>
      let '(peer, added, w1) := PeerlistAdd pk conns w in
      let '(results, w2) := PeerlistAddAll rest w1 in
      ((peer, added) :: results, w2)
  end.

(** Every entry of the registry points to a record of the heap whose public
    key compresses to the entry's key. *)
Definition registryOk (w : World) : Prop :=
  ∀ k p, peerList w !! k = Some p →
         (λ info, publicKey2Compressed (PublicKey info)) <$> peerHeap w !! p = Some k.

End RegistryVocabulary.

(** What one round of either loop may do to the world: nothing, or one of
    the writes, together with what the round had read to decide so. *)
Inductive roundOutcome (th : Thresholds) (q : PeerPtr) (d : ConnPtr) (w : World) : World → Prop :=
  | outcome_idle :
      roundOutcome th q d w w
  | outcome_invalidate :
      roundOutcome th q d w (invalidateActiveConnection q d w)
  | outcome_ping conn :
      connHeap w !! d = Some conn →
      Before (LastPingOut conn) (thresholdPingOut1 th) = true
      ∨ Before (LastPingOut conn) (thresholdPingOut2 th) = true →
      roundOutcome th q d w (pingAttempt q d w)
  | outcome_ping_invalidate conn :
      connHeap w !! d = Some conn →
      Before (LastPingOut conn) (thresholdPingOut1 th) = true
      ∨ Before (LastPingOut conn) (thresholdPingOut2 th) = true →
      roundOutcome th q d w (invalidateActiveConnection q d (pingAttempt q d w))
  | outcome_remove conn :
      connHeap w !! d = Some conn →
      Before (Expires conn) (Now w) = true →
      roundOutcome th q d w (removeInactiveConnection q d w).

(** The connection [c] has been quiet beyond the normal invalidation
    threshold and is not Redundant. *)
Definition quiet (th : Thresholds) (c : ConnPtr) (w : World) : Prop :=
  ∃ conn, connHeap w !! c = Some conn
          ∧ Status conn ≠ ConnectionRedundant
          ∧ Before (LastPacketIn conn) (thresholdInvalidate1 th) = true.

(** The connection [c] of peer [p] sits in the inactive list, with the status
    Inactive and an expiry still ahead. *)
Definition movedToInactive (p : PeerPtr) (c : ConnPtr) (w : World) : Prop :=
  c ∈ inactiveOf p w
  ∧ (c ∉ activeOf p w)
  ∧ ∃ conn, connHeap w !! c = Some conn
            ∧ Status conn = ConnectionInactive
            ∧ (Now w ≤ Expires conn)%Z.

(** The two phases of a quiet connection [c] of peer [p] during a tick taken
    at time [t]: still in the active list, and moved to the inactive one. *)
Definition dueForInvalidation (th : Thresholds) (t : Time) (p : PeerPtr) (c : ConnPtr)
    (w : World) : Prop :=
  now w = t ∧ quiet th c w ∧ c ∈ activeOf p w.

Definition invalidatedInTick (th : Thresholds) (t : Time) (p : PeerPtr) (c : ConnPtr)
    (w : World) : Prop :=
  now w = t ∧ quiet th c w ∧ movedToInactive p c w.

(** The connection [c] was pinged within the last 10 seconds, and the pings
    sent on it so far are [log]. *)
Definition recentlyPinged (t : Time) (c : ConnPtr) (log : list Transmission) (w : World)
    : Prop :=
  now w = t
  ∧ (∃ conn, connHeap w !! c = Some conn ∧ (t - seconds 10 ≤ LastPingOut conn)%Z)
  ∧ pingsOn c (wire w) = log.

(** More than [n] pings were sent on [c], or at least [n] were and the next
    one is overdue: the last ping precedes the normal ping threshold. *)
Definition pingedOrOverdue (th : Thresholds) (c : ConnPtr) (n : nat) (w : World) : Prop :=
  n ≤ length (pingsOn c (wire w))
  ∧ (n < length (pingsOn c (wire w))
     ∨ ∃ conn, connHeap w !! c = Some conn
               ∧ Before (LastPingOut conn) (thresholdPingOut1 th) = true).

(** The connection [c] of peer [p] is as it was: same record, still active,
    in no inactive list. *)
Definition untouched (t : Time) (p : PeerPtr) (c : ConnPtr) (conn : Connection) (w : World)
    : Prop :=
  now w = t
  ∧ connHeap w !! c = Some conn
  ∧ c ∈ activeOf p w
  ∧ ∀ q, c ∉ inactiveOf q w.

(** The connection [x] does not have the status Active or Redundant. *)
Definition notLive (x : ConnPtr) (w : World) : Prop :=
  ∀ conn, connHeap w !! x = Some conn → activeOrRedundant (Status conn) = false.

(** The lists of peer [p] are in order: no connection is listed twice or in
    both lists, and no connection of the inactive list has the status Active
    or Redundant. *)
Definition listsOk (p : PeerPtr) (w : World) : Prop :=
  NoDup (activeOf p w ++ inactiveOf p w)
  ∧ ∀ d, d ∈ inactiveOf p w → notLive d w.

(** The peer [p] keeps a path: an active connection, or two inactive ones. *)
Definition retainsPath (p : PeerPtr) (w : World) : Prop :=
  1 ≤ length (activeOf p w) ∨ 2 ≤ length (inactiveOf p w).

(* ===================================================================== *)
(** ** Sample worlds                                                      *)
(* ===================================================================== *)

(** The encoding btcec produces: the parity of [Y], then [X] in 32 bytes,
    most significant first. It instantiates the parameter in the samples. *)
Fixpoint bigEndian (n : nat) (x : Z) : list Z :=
  match n with
  | 0 => []
  | S k => bigEndian k (x / 256)%Z ++ [(x mod 256)%Z]
  end.

Definition secp256k1Compressed : Btcec :=
  λ pk, (if Z.odd (Y pk) then 3%Z else 2%Z) :: bigEndian 32 (X pk).

Definition sampleKey : btcecPublicKey := {| X := 5; Y := 7 |}.

(** A world with one registered peer, its connections [conns] listed as
    [act] and [inact], and the answers the operating system gives to the
    coming transmissions. *)
Definition sampleConnection (s : ConnectionStatus) (lastIn lastPing : Time) : Connection :=
  {| Address := "192.0.2.7:112"; Status := s; LastPacketIn := lastIn;
     LastPingOut := lastPing; Expires := 0%Z |}.

Definition samplePeer (act inact : list ConnPtr) : PeerInfo :=
  {| PublicKey := sampleKey; connectionActive := act; connectionInactive := inact;
     connectionLatest := head act; StatsPacketSent := 0; StatsPacketReceived := 0 |}.

Definition sampleWorld (t : Time) (conns : list Connection) (act inact : list ConnPtr)
    (answers : list error) : World :=
  {| now := t; connHeap := conns; peerHeap := [samplePeer act inact];
     peerList := {[ publicKey2Compressed (H := secp256k1Compressed) sampleKey := 0 ]};
     wire := []; sendResults := answers |}.

(** A peer with one Active connection on an adapter that has just been
    disabled: the next send fails with the Windows error. *)
Definition disabledAdapter : World :=
  sampleWorld (seconds 100)
              [sampleConnection ConnectionActive (seconds 95) (seconds 80)]
              [0] []
              [Some "wsasendto: The requested address is not valid in its context."].

(** A peer with one Active connection, silent for 25 seconds, whose last ping
    is [pinged] seconds old. *)
Definition silentFor25 (pinged : Z) : World :=
  sampleWorld (seconds 100)
              [sampleConnection ConnectionActive (seconds 75) (seconds (100 - pinged))]
              [0] [] [].

(** A peer with one Redundant connection, silent for 25 seconds. *)
Definition redundantSilentFor25 : World :=
  sampleWorld (seconds 100)
              [sampleConnection ConnectionRedundant (seconds 75) (seconds 60)]
              [0] [] [].

(** A peer whose three connections are all inactive and expired since long. *)
Definition expiredConnection : Connection :=
  {| Address := "192.0.2.7:112"; Status := ConnectionInactive; LastPacketIn := 0%Z;
     LastPingOut := seconds 999; Expires := seconds 500 |}.

Definition threeExpired : World :=
  sampleWorld (seconds 1000) [expiredConnection; expiredConnection; expiredConnection]
              [] [0; 1; 2] [].

(** A fresh node that knows two connections and no peer, and the announcement
    it receives on the first of them. *)
Definition freshNode : World :=
  emptyWorld (seconds 100)
             [sampleConnection ConnectionActive (seconds 100) 0%Z;
              sampleConnection ConnectionActive (seconds 100) 0%Z]
             [].

Definition announcement : packet2 :=
  {| Raw := {| Command := CommandAnnouncement; Payload := [] |};
     SenderPublicKey := sampleKey; connection := 0 |}.

(** A listener owned by the interface [name]. *)
Definition listenerOn (name addr : string) : Network :=
  {| iface := Some {| Name := name |}; address := addr |}.

(** Listeners [0], [1], ... of the heap [heap], all registered in the IPv6
    list, nothing terminated yet. *)
Definition allIPv6 (heap : list Network) : NetState :=
  {| listeners := heap; networks4 := mkSlice [];
     networks6 := mkSlice (seq 0 (length heap)); terminated := [] |}.

(* ===================================================================== *)
(** ** The rest of Peer ID.go and Commands.go                             *)
(* ===================================================================== *)

Section RegistryRest.
Context `{Btcec}.

(** [PeerlistRemove], lines 103-108: the entry of the peer's identity is
    deleted; the record itself stays where it is. *)
Definition PeerlistRemove (peer : PeerPtr) (w : World) : World :=
  match peerHeap w !! peer with
  | Some info => setPeerList (delete (publicKey2Compressed (PublicKey info)) (peerList w)) w
  | None => w
  end.

End RegistryRest.

(** [[]byte(text)]: the bytes of a string. *)
Definition bytesOf (text : string) : list Z :=
  (λ a, Z.of_N (N_of_ascii a)) <$> list_ascii_of_string text.

(** [SendChatAll], lines 160-164. The peers are visited in the order [order],
    a permutation of [PeerlistGet w]. *)
Definition SendChatAll (order : list PeerPtr) (text : string) (w : World) : World :=
  foldl (λ w' peer, (send peer {| Command := CommandChat; Payload := bytesOf text |} w').2)
        w order.

(** [cmdPong], lines 83-85, and [cmdChat], lines 88-90: no effect but console
    output. *)
Definition cmdPong (peer : option PeerPtr) (msg : packet2) (w : World) : World := w.

Section Actions.
Context `{Btcec}.

(** What may happen to the world of a node: the calls of the registry, the
    handlers (whatever peer the caller resolved), a tick of the scheduler, a
    chat to all. *)
Inductive Action :=
  | DoAdd (PublicKey0 : btcecPublicKey) (connections : list ConnPtr)
  | DoRemove (peer : PeerPtr)
  | DoAnnouncement (peer : option PeerPtr) (msg : packet2)
  | DoResponse (peer : option PeerPtr) (msg : packet2)
  | DoPing (peer : option PeerPtr) (msg : packet2)
  | DoPong (peer : option PeerPtr) (msg : packet2)
  | DoTick (order : list PeerPtr)
  | DoChatAll (order : list PeerPtr) (text : string).

Definition act (w : World) (a : Action) : World :=
  match a with
  | DoAdd pk conns => (PeerlistAdd pk conns w).2
  | DoRemove peer => PeerlistRemove peer w
  | DoAnnouncement peer msg => cmdAnouncement peer msg w
  | DoResponse peer msg => cmdResponse peer msg w
  | DoPing peer msg => cmdPing peer msg w
  | DoPong peer msg => cmdPong peer msg w
  | DoTick order => tick order (Sleep Second w)
  | DoChatAll order text => SendChatAll order text w
  end.

Definition run (actions : list Action) (w : World) : World := foldl act w actions.

End Actions.

(** The chat packet for a text. *)
Definition chatPacket (text : string) : PacketRaw :=
  {| Command := CommandChat; Payload := bytesOf text |}.

(** Every peer of [order] is on the heap and has a preferred connection. *)
Definition reachable (order : list PeerPtr) (w : World) : Prop :=
  ∀ p, p ∈ order → ∃ info c, peerHeap w !! p = Some info ∧ connectionLatest info = Some c.

(** The preferred connection of a peer. *)
Definition latestOf (p : PeerPtr) (w : World) : option ConnPtr :=
  peerHeap w !! p ≫= connectionLatest.

(** The silence after which the tick invalidates an active connection, and
    the one after which it pings it, in seconds: four times as long for a
    Redundant connection. *)
Definition invalidateAfter (s : ConnectionStatus) : Z :=
  if bool_decide (s = ConnectionRedundant) then 88%Z else 22%Z.

Definition pingAfter (s : ConnectionStatus) : Z :=
  if bool_decide (s = ConnectionRedundant) then 40%Z else 10%Z.

(** At time [t] an active connection is within its thresholds: heard of
    within the time of invalidation, and heard of or pinged within the time
    of the ping. The bounds are inclusive. *)
Definition withinThresholds (t : Time) (conn : Connection) : Prop :=
  (t - seconds (invalidateAfter (Status conn)) ≤ LastPacketIn conn)%Z
  ∧ ((t - seconds (pingAfter (Status conn)) ≤ LastPacketIn conn)%Z
     ∨ (t - seconds (pingAfter (Status conn)) ≤ LastPingOut conn)%Z).

(** At time [t] an inactive connection is at rest: not expired, and pinged
    within the last 10 seconds. *)
Definition atRest (t : Time) (conn : Connection) : Prop :=
  (t ≤ Expires conn)%Z ∧ (t - seconds 10 ≤ LastPingOut conn)%Z.

(** The ping that peer [q] sends on connection [d] in the world [w]. *)
Definition pingFrom (q : PeerPtr) (d : ConnPtr) (w : World) : Transmission :=
  {| txPeer := q; txConnection := d; txPacket := pingPacket; txResult := nextResult w |}.


(** The answer of the operating system to the [i]-th transmission to come. *)
Definition answer (i : nat) (w : World) : error := mjoin (sendResults w !! i).

(** The chat that [SendChatAll] sends to peer [p] as its [i]-th packet. *)
Definition chatTo (text : string) (w : World) (i : nat) (p : PeerPtr) : Transmission :=
  {| txPeer := p; txConnection := default 0 (latestOf p w);
     txPacket := chatPacket text; txResult := answer i w |}.

(** The connection [c] of peer [p], silent for a while, as long as the
    scheduler keeps it: the record is [conn] but for the time of the last
    ping, which is [pinged]; it is in the active list of [p] and in no
    inactive list; [n] pings went out on it; the sends of the node
    succeed. *)
Definition silentActive (p : PeerPtr) (c : ConnPtr) (conn : Connection) (pinged : Time)
    (n : nat) (w : World) : Prop :=
  connHeap w !! c = Some (withLastPingOut pinged conn)
  ∧ c ∈ activeOf p w
  ∧ (∀ q, c ∉ inactiveOf q w)
  ∧ sendResults w = []
  ∧ length (pingsOn c (wire w)) = n.

(** The time of the last ping and the number of pings sent on a connection
    last heard of at [heard], after the tick [k] seconds later: none for the
    first 10 seconds, one at 11 seconds, a second one at 22 seconds. *)
Definition pingedAfter (heard pinged0 : Time) (k : nat) : Time :=
  if decide (k < 11) then pinged0
  else if decide (k < 22) then (heard + seconds 11)%Z
       else (heard + seconds 22)%Z.

Definition pingsAfter (k : nat) : nat :=
  if decide (k < 11) then 0 else if decide (k < 22) then 1 else 2.

(** The two phases of a silent connection during the tick, taken in [w0],
    that is to ping it: still to be pinged, and pinged. *)
Definition toPing (p : PeerPtr) (c : ConnPtr) (conn : Connection) (w0 : World)
    (pinged0 : Time) (n0 : nat) (w : World) : Prop :=
  now w = now w0 ∧ silentActive p c conn pinged0 n0 w.

Definition pingedNow (p : PeerPtr) (c : ConnPtr) (conn : Connection) (w0 : World)
    (n0 : nat) (w : World) : Prop :=
  now w = now w0 ∧ silentActive p c conn (now w0) (S n0) w.

(* ===================================================================== *)
(** ** The rest of Network Detection.go, and Network Init.go              *)
(* ===================================================================== *)

(** [net.IP], a slice of bytes; [net.IPNet]; [net.UDPAddr]. *)
Abbreviation IP := (list Z) (only parsing).

Record IPNet := { ipnetIP : IP; ipnetMask : list Z }.

Record UDPAddr := { udpIP : IP; udpPort : Z; udpZone : string }.

(** The functions of the packages net and strconv that the code calls:
    [net.ParseIP], [IP.Equal], [IP.To4], [IP.To16], [IP.String],
    [IPNet.String], [net.JoinHostPort], [strconv.Itoa], and the IP of the
    address a listener is bound to. *)
Class NetLib := {
  ParseIP : string → option IP;
  IPEqual : IP → IP → bool;
  To4 : IP → option IP;
  To16 : IP → option IP;
  IPString : IP → string;
  AddrString : IPNet → string;
  JoinHostPort : string → string → string;
  Itoa : Z → string;
  boundIP : string → IP
}.

(** One interface as the operating system reports it: the interface and the
    result of its [Addrs()]. *)
Record OSInterface := {
  osInterface : Interface;
  Addrs : list IPNet * error
}.

(** One loop of [networkChangeInterfaceRemove] or [networkChangeIPRemove]:
    the two functions differ in the test of the listener only, here
    [matches]. *)
Definition removeRoundBy (matches : NetPtr → bool)
    (st : option (Slice * list NetPtr)) (n : nat) : option (Slice * list NetPtr) :=
  '(networks, log) ← st;
  match backing networks !! n with
  | Some network =>
      if matches network
      then networks' ← removeFromList networks n;
           Some (networks', Terminate network log)
      else Some (networks, log)
  | None => None
  end.

Definition removeLoopBy (matches : NetPtr → bool) (networks : Slice) (log : list NetPtr)
    : option (Slice * list NetPtr) :=
  foldl (removeRoundBy matches) (Some (networks, log)) (seq 0 (len networks)).

Section NetworkRest.
Context `{NetLib}.

(** The inner loop of [FindInterfaceByIP], lines 31-37. *)
Fixpoint findAddress (addresses : list IPNet) (ip : IP) : option IPNet :=
  match addresses with
  | [] => None
  | address :: rest =>
      if IPEqual (ipnetIP address) ip then Some address else findAddress rest ip
  end.

(** The outer loop, lines 24-38. *)
Fixpoint findInterface (interfaceList : list OSInterface) (ip : IP)
    : option (Interface * IPNet) :=
  match interfaceList with
  | [] => None
  | ifaceSingle :: rest =>
      match Addrs ifaceSingle with
      | (_, Some _) => findInterface rest ip
      | (addresses, None) =>
          match findAddress addresses ip with
          | Some address => Some (osInterface ifaceSingle, address)
          | None => findInterface rest ip
          end
      end
  end.

(** [FindInterfaceByIP], lines 17-41. [Interfaces] is what
    [net.Interfaces()] returns. *)
Definition FindInterfaceByIP (Interfaces : list OSInterface * error) (ip : IP)
    : option (Interface * IPNet) :=
  match Interfaces with
  | (_, Some _) => None
  | (interfaceList, None) => findInterface interfaceList ip
  end.

(** [NetworkListIPs], lines 44-66. *)
Definition NetworkListIPs (Interfaces : list OSInterface * error) : list IP * error :=
  match Interfaces with
  | (_, Some err) => ([], Some err)
  | (interfaceList, None) =>
      (foldl (λ IPs ifaceSingle,
                match Addrs ifaceSingle with
                | (_, Some _) => IPs
                | (addresses, None) =>
                    foldl (λ IPs' address, IPs' ++ [ipnetIP address]) IPs addresses
                end)
             [] interfaceList,
       None)
  end.

(** [IsIPv4], lines 69-71, and [IsIPv6], lines 74-76. *)
Definition IsIPv4 (ip : IP) : bool := bool_decide (To4 ip ≠ None).

Definition IsIPv6 (ip : IP) : bool :=
  bool_decide (To4 ip = None) && bool_decide (To16 ip ≠ None).

(** The test of [networkChangeIPRemove], lines 225 and 238: the IP the
    listener is bound to equals the IP of the address. *)
Definition boundTo (heap : list Network) (addr : IPNet) (network : NetPtr) : bool :=
  match heap !! network with
  | Some nw => IPEqual (boundIP (address nw)) (ipnetIP addr)
  | None => false
  end.

(** [networkChangeIPRemove], lines 219-250. [None] is a panic. *)
Definition networkChangeIPRemove (addr : IPNet) (st : NetState) : option NetState :=
  '(n6, log6) ← removeLoopBy (boundTo (listeners st) addr) (networks6 st) (terminated st);
  '(n4, log4) ← removeLoopBy (boundTo (listeners st) addr) (networks4 st) log6;
  Some {| listeners := listeners st; networks4 := n4; networks6 := n6; terminated := log4 |}.

(** The calls of one cycle of the monitor. *)
Inductive MonitorCall :=
  | InterfaceNew (iface : string) (addresses : list IPNet)
  | InterfaceRemove (iface : string) (addresses : list IPNet)
  | IPNew (iface : string) (addr : IPNet)
  | IPRemove (iface : string) (addr : IPNet).

(** The scans of lines 131-137 and 145-151: some address of the list has the
    text of [addr]. *)
Definition listed (addr : IPNet) (addresses : list IPNet) : bool :=
  existsb (λ other, bool_decide (AddrString other = AddrString addr)) addresses.

(** The body of the loop over the interfaces, lines 115-157. *)
Definition monitorInterface (ifacesExist : gmap string (list IPNet))
    (acc : gmap string (list IPNet) * list MonitorCall) (iface : OSInterface)
    : gmap string (list IPNet) * list MonitorCall :=
  let '(ifacesNew, calls) := acc in
  match Addrs iface with
  | (_, Some _) => acc
  | (addressesNew, None) =>
      let ifacesNew' := <[Name (osInterface iface) := addressesNew]> ifacesNew in
      match ifacesExist !! Name (osInterface iface) with
      | None => (ifacesNew', calls ++ [InterfaceNew (Name (osInterface iface)) addressesNew])
      | Some addressesExist =>
          (ifacesNew',
           calls
           ++ (IPNew (Name (osInterface iface))
                 <$> filter (λ addr, listed addr addressesExist = false) addressesNew)
           ++ (IPRemove (Name (osInterface iface))
                 <$> filter (λ old, listed old addressesNew = false) addressesExist))
      end
  end.

(** One cycle of [networkChangeMonitor], lines 103-166: the calls it makes,
    in their order, and the snapshot it leaves. The interfaces of the last
    loop come in the order of the model's map. *)
Definition monitorCycle (ifacesExist : gmap string (list IPNet))
    (Interfaces : list OSInterface * error)
    : list MonitorCall * gmap string (list IPNet) :=
  match Interfaces with
  | (_, Some _) => ([], ifacesExist)
  | (interfaceList, None) =>
      let '(ifacesNew, calls) := foldl (monitorInterface ifacesExist) (∅, []) interfaceList in
      (calls
       ++ ((λ entry, InterfaceRemove entry.1 entry.2)
             <$> filter (λ entry, ifacesNew !! entry.1 = None) (map_to_list ifacesExist)),
       ifacesNew)
  end.

(** [networkChangeMonitor], lines 97-168, cut after as many cycles as there
    are reports of the operating system. *)
Definition networkChangeMonitor (Listen : list string)
    (reports : list (list OSInterface * error)) (ifacesExist : gmap string (list IPNet))
    : list MonitorCall * gmap string (list IPNet) :=
  if bool_decide (0 < length Listen) then ([], ifacesExist)
  else foldl (λ acc Interfaces,
                let '(calls, snapshot) := acc in
                let '(calls', snapshot') := monitorCycle snapshot Interfaces in
                (calls ++ calls', snapshot'))
             ([], ifacesExist) reports.

(** Modelled from the spec: [AutoAssignPort] (defined outside the files at
    hand) "binds a UDP socket (auto-assigning a port when 0 is given)"; it is
    given here by its result, the bound address and the error. The calls
    that follow the registration ([BroadcastIPv4], [MulticastIPv6Join],
    [Listen]) act on the socket only and are left out.

    [networkPrepareListen], lines 128-161. *)
Definition networkPrepareListen (Interfaces : list OSInterface * error)
    (AutoAssignPort : IP → Z → string * error)
    (ipA : string) (port : Z) (st : NetState) : option NetPtr * error * NetState :=
  match ParseIP ipA with
  | None => (None, Some "Invalid input IP", st)
  | Some ip =>
      let named := bool_decide (ipA ≠ "0.0.0.0") && bool_decide (ipA ≠ "::") in
      let found := if named then FindInterfaceByIP Interfaces ip else None in
      if named && bool_decide (found = None)
      then (None, Some "Error finding the network interface belonging to IP", st)
      else
        match AutoAssignPort ip port with
        | (_, Some err) => (None, Some err, st)
        | (bound, None) =>
            let network := length (listeners st) in
            let heap := listeners st ++ [{| iface := fst <$> found; address := bound |}] in
            if IsIPv4 ip
            then (Some network, None,
                  {| listeners := heap; networks4 := append (networks4 st) [network];
                     networks6 := networks6 st; terminated := terminated st |})
            else (Some network, None,
                  {| listeners := heap; networks4 := networks4 st;
                     networks6 := append (networks6 st) [network];
                     terminated := terminated st |})
        end
  end.

(** The key of [ipsListen] for an address, lines 164 and 175: the zone is
    not part of it. *)
Definition listenKey (addr : UDPAddr) : string :=
  JoinHostPort (IPString (udpIP addr)) (Itoa (udpPort addr)).

(** [addListenAddress], lines 163-165. *)
Definition addListenAddress (addr : UDPAddr) (ipsListen : gset string) : gset string :=
  {[ listenKey addr ]} ∪ ipsListen.

(** [IsAddressSelf], lines 169-177. *)
Definition IsAddressSelf (addr : option UDPAddr) (ipsListen : gset string) : bool :=
  match addr with
  | None => false
  | Some a => bool_decide (listenKey a ∈ ipsListen)
  end.

End NetworkRest.

(** The names of the interfaces the operating system enumerated with their
    addresses. *)
Definition enumerated (interfaceList : list OSInterface) : list (string * list IPNet) :=
  omap (λ i, match Addrs i with
             | (addresses, None) => Some (Name (osInterface i), addresses)
             | (_, Some _) => None
             end) interfaceList.

(** What the loop keeps, from the list [s0] and the log [log0] it started
    with: the capacity; a length within the first one; below the first
    length, only listeners of the first list; every listener of the first
    list that fails the test; in the log, after what was there, only
    listeners of the first list that pass the test. *)
Definition removeInv (matches : NetPtr → bool) (s0 : Slice) (log0 : list NetPtr)
    (st : Slice * list NetPtr) : Prop :=
  cap st.1 = cap s0
  ∧ len st.1 ≤ len s0
  ∧ (∀ i x, i < len s0 → backing st.1 !! i = Some x → x ∈ elements s0)
  ∧ (∀ x, x ∈ elements s0 → matches x = false → x ∈ elements st.1)
  ∧ ∃ ts, st.2 = log0 ++ ts ∧ Forall (λ x, matches x = true ∧ x ∈ elements s0) ts.

Section MonitorVocabulary.
Context `{NetLib}.

(** What the cycle makes of one enumerated interface. *)
Definition callsFor (ifacesExist : gmap string (list IPNet)) (entry : string * list IPNet)
    : list MonitorCall :=
  match ifacesExist !! entry.1 with
  | None => [InterfaceNew entry.1 entry.2]
  | Some addressesExist =>
      (IPNew entry.1 <$> filter (λ addr, listed addr addressesExist = false) entry.2)
      ++ (IPRemove entry.1 <$> filter (λ old, listed old entry.2 = false) addressesExist)
  end.

Definition snapshotOf (m : gmap string (list IPNet)) (entries : list (string * list IPNet))
    : gmap string (list IPNet) :=
  foldl (λ m' entry, <[entry.1 := entry.2]> m') m entries.

End MonitorVocabulary.

(* ===================================================================== *)
(** ** More sample worlds                                                 *)
(* ===================================================================== *)

(** The announcement of the same sender, received again, on the second
    connection. *)
Definition announcementAgain : packet2 :=
  {| Raw := {| Command := CommandAnnouncement; Payload := [] |};
     SenderPublicKey := sampleKey; connection := 1 |}.

(** A peer with one Active connection, heard of and pinged 5 seconds ago. *)
Definition heardRecently : World :=
  sampleWorld (seconds 100)
              [sampleConnection ConnectionActive (seconds 95) (seconds 95)]
              [0] [] [].

(** A peer with one Active connection heard of this instant, pinged 10
    seconds ago, and the 23 ticks to come, each visiting the peer. *)
Definition justHeard : World :=
  sampleWorld (seconds 100)
              [sampleConnection ConnectionActive (seconds 100) (seconds 90)]
              [0] [] [].

Definition ticks23 : list (list PeerPtr) := replicate 23 [0].

(** The net library on the addresses of the samples: the IPs by their bytes,
    equal when their bytes are. *)
Definition sampleIPs : list (string * list Z) :=
  [("0.0.0.0", [0; 0; 0; 0]%Z);
   ("192.168.1.5", [192; 168; 1; 5]%Z);
   ("::", replicate 16 0%Z);
   ("fe80::2", [254; 128; 0; 0; 0; 0; 0; 0; 0; 0; 0; 0; 0; 0; 0; 2]%Z)].

Definition sampleIPString (ip : list Z) : string :=
  default "?" ((λ e, e.1) <$> head (filter (λ e, e.2 = ip) sampleIPs)).

Definition sampleNetLib : NetLib :=
  {| ParseIP := λ s, (λ e, e.2) <$> head (filter (λ e, e.1 = s) sampleIPs);
     IPEqual := λ a b, bool_decide (a = b);
     To4 := λ ip, if bool_decide (length ip = 4) then Some ip else None;
     To16 := λ ip, if bool_decide (length ip = 16) then Some ip else None;
     IPString := sampleIPString;
     AddrString := λ a, sampleIPString (ipnetIP a);
     JoinHostPort := λ host port, host +:+ ":" +:+ port;
     Itoa := pretty;
     boundIP := λ s, default []
                  ((λ e, e.2) <$> head (filter (λ e, String.prefix (e.1 +:+ ":") s = true)
                                               sampleIPs)) |}.

(** Two adapters as the operating system reports them, and a node with one
    listener, on the wireless one. *)
Definition ethernet : OSInterface :=
  {| osInterface := {| Name := "eth0" |};
     Addrs := ([{| ipnetIP := [192; 168; 1; 5]%Z; ipnetMask := [255; 255; 255; 0]%Z |}], None) |}.

Definition wireless : OSInterface :=
  {| osInterface := {| Name := "wlan0" |};
     Addrs := ([{| ipnetIP := [254; 128; 0; 0; 0; 0; 0; 0; 0; 0; 0; 0; 0; 0; 0; 2]%Z;
                   ipnetMask := replicate 8 255%Z ++ replicate 8 0%Z |}], None) |}.

Definition twoAdapters : list OSInterface * error := ([ethernet; wireless], None).

Definition wirelessOnly : NetState := allIPv6 [listenerOn "wlan0" "fe80::2:112"].

(** A bind that succeeds, on port 112 when none is asked for. *)
Definition bindsAlways : list Z → Z → string * error :=
  λ ip port,
    (sampleIPString ip +:+ ":" +:+ pretty (if bool_decide (port = 0%Z) then 112%Z else port),
     None).

(* ===================================================================== *)
(** * Properties                                                          *)
(* ===================================================================== *)

(** ** strings.Contains *)

Lemma append_cons (a : ascii) (s t : string) : String a s +:+ t = String a (s +:+ t).
Proof. reflexivity. Qed.

Lemma prefix_occurs (p s : string) :
  String.prefix p s = true ↔ ∃ after, s = p +:+ after.
Proof.
  revert s. induction p as [|a p IH]; intros s.
  - split; [intros _; by exists s | by destruct s].
  - destruct s as [|b s]; simpl.
    + split; [done | intros [after Hs]; discriminate Hs].
    + destruct (ascii_dec a b) as [->|Hne].
      * rewrite IH. split; intros [after Hs]; exists after.
        -- by rewrite append_cons, Hs.
        -- rewrite append_cons in Hs. by injection Hs.
      * split; [done | intros [after Hs]].
        rewrite append_cons in Hs. injection Hs; congruence.
Qed.

Lemma Contains_unfold (s substr : string) :
  Contains s substr =
    if String.prefix substr s then true
    else match s with
         | EmptyString => false
         | String _ rest => Contains rest substr
         end.
Proof. by destruct s. Qed.

Lemma Contains_here (s substr : string) :
  String.prefix substr s = true → Contains s substr = true.
Proof. intros Hp. by rewrite Contains_unfold, Hp. Qed.

Lemma Contains_later (a : ascii) (s substr : string) :
  Contains s substr = true → Contains (String a s) substr = true.
Proof. intros Hc. rewrite Contains_unfold, Hc. by destruct (String.prefix _ _). Qed.

Lemma Contains_occurs (s substr : string) :
  Contains s substr = true ↔ occursIn substr s.
Proof.
  split.
  - induction s as [|a s IH]; rewrite Contains_unfold;
      destruct (String.prefix substr _) eqn:Hp;
      try (intros _; apply prefix_occurs in Hp as [after Hs]; by exists "", after).
    + done.
    + intros Hc. destruct (IH Hc) as (before & after & ->).
      by exists (String a before), after.
  - intros (before & after & ->). induction before as [|a before IH].
    + apply Contains_here, prefix_occurs. by exists after.
    + rewrite append_cons. by apply Contains_later.
Qed.

(** ** IsNetworkErrorFatal and sendPing *)

Lemma IsNetworkErrorFatal_true (err : error) :
  IsNetworkErrorFatal err = true ↔ ∃ text, err = Some text ∧ occursIn addressNotValid text.
Proof.
  destruct err as [text|]; simpl.
  - split.
    + intros Hf. exists text. split; [done|].
      apply Contains_occurs. unfold addressNotValid. by destruct (Contains text _).
    + intros (t & [= <-] & Hocc). apply Contains_occurs in Hocc.
      unfold addressNotValid in Hocc. by rewrite Hocc.
  - split; [done | intros (? & ? & _); done].
Qed.

Lemma sendPing_eq (peer : PeerPtr) (c : ConnPtr) (w : World) :
  sendPing peer c w =
    match connHeap (pingAttempt peer c w) !! c with
    | Some conn =>
        if (bool_decide (Status conn = ConnectionActive)
            || bool_decide (Status conn = ConnectionRedundant))
           && IsNetworkErrorFatal (nextResult w)
        then invalidateActiveConnection peer c (pingAttempt peer c w)
        else pingAttempt peer c w
    | None => pingAttempt peer c w
    end.
Proof. reflexivity. Qed.

Lemma pingAttempt_lookup (peer : PeerPtr) (c : ConnPtr) (w : World) :
  connHeap (pingAttempt peer c w) !! c = withLastPingOut (Now w) <$> connHeap w !! c.
Proof. unfold pingAttempt, updConnection; simpl. apply list_lookup_alter_eq. Qed.

Lemma pingAttempt_peerHeap (peer : PeerPtr) (c : ConnPtr) (w : World) :
  peerHeap (pingAttempt peer c w) = peerHeap w.
Proof. reflexivity. Qed.

Lemma pingAttempt_wire (peer : PeerPtr) (c : ConnPtr) (w : World) :
  wire (pingAttempt peer c w) =
    wire w ++ [{| txPeer := peer; txConnection := c; txPacket := pingPacket;
                  txResult := nextResult w |}].
Proof. reflexivity. Qed.

(** What the helpers write, field by field. *)

Lemma invalidate_connHeap (peer : PeerPtr) (c : ConnPtr) (w : World) :
  connHeap (invalidateActiveConnection peer c w) = alter (invalidated (Now w)) c (connHeap w).
Proof. reflexivity. Qed.

Lemma invalidate_peerHeap (peer : PeerPtr) (c : ConnPtr) (w : World) :
  peerHeap (invalidateActiveConnection peer c w)
  = alter (λ p, withLists (without c (connectionActive p)) (connectionInactive p ++ [c]) p)
          peer (peerHeap w).
Proof. reflexivity. Qed.

Lemma invalidate_status (peer : PeerPtr) (c : ConnPtr) (w : World) :
  is_Some (connHeap w !! c) →
  statusOf c (invalidateActiveConnection peer c w) = Some ConnectionInactive.
Proof.
  intros [conn Hc]. unfold statusOf.
  by rewrite invalidate_connHeap, list_lookup_alter_eq, Hc.
Qed.

Lemma invalidate_LastPingOut (peer : PeerPtr) (c d : ConnPtr) (w : World) :
  LastPingOut <$> connHeap (invalidateActiveConnection peer c w) !! d
  = LastPingOut <$> connHeap w !! d.
Proof.
  rewrite invalidate_connHeap, list_lookup_alter.
  destruct (decide (c = d)) as [->|]; [|done]. by destruct (connHeap w !! d).
Qed.

Lemma not_elem_of_without (c : ConnPtr) (l : list ConnPtr) : c ∉ without c l.
Proof. unfold without. rewrite list_elem_of_filter. by intros [Hne _]. Qed.

Lemma elem_of_without (c d : ConnPtr) (l : list ConnPtr) :
  d ∈ without c l ↔ d ≠ c ∧ d ∈ l.
Proof. unfold without. by rewrite list_elem_of_filter. Qed.

Lemma invalidate_lists (peer : PeerPtr) (c : ConnPtr) (w : World) (info : PeerInfo) :
  peerHeap w !! peer = Some info →
  activeOf peer (invalidateActiveConnection peer c w) = without c (connectionActive info)
  ∧ inactiveOf peer (invalidateActiveConnection peer c w) = connectionInactive info ++ [c].
Proof.
  intros Hp. unfold activeOf, inactiveOf, GetConnections.
  by rewrite invalidate_peerHeap, list_lookup_alter_eq, Hp.
Qed.

(** The connection's status before the ping is the one the test of line 154
    reads: the stamp changes the time of the ping only. *)
Lemma pingAttempt_status (peer : PeerPtr) (c : ConnPtr) (w : World) :
  statusOf c (pingAttempt peer c w) = statusOf c w.
Proof.
  unfold statusOf. rewrite pingAttempt_lookup. by destruct (connHeap w !! c).
Qed.

Lemma sendPing_cases (peer : PeerPtr) (c : ConnPtr) (w : World) (conn : Connection) :
  connHeap w !! c = Some conn →
  sendPing peer c w =
    if activeOrRedundant (Status conn) && IsNetworkErrorFatal (nextResult w)
    then invalidateActiveConnection peer c (pingAttempt peer c w)
    else pingAttempt peer c w.
Proof.
  intros Hc. rewrite sendPing_eq, pingAttempt_lookup, Hc. reflexivity.
Qed.

(** C1, as the specification words it, fails: the error of a disabled adapter
    is the one error the classification reports as fatal, and another send
    failure is not reported as fatal. *)
Lemma IsNetworkErrorFatal_not_as_worded :
  ¬ (∀ text,
       (occursIn addressNotValid text → IsNetworkErrorFatal (Some text) = false)
       ∧ (¬ occursIn addressNotValid text → IsNetworkErrorFatal (Some text) = true)).
Proof.
  intros Hclaim.
  destruct (Hclaim "wsasendto: The requested address is not valid in its context.") as [Hno _].
  assert (Hocc : occursIn addressNotValid
                   "wsasendto: The requested address is not valid in its context.")
    by (apply Contains_occurs; reflexivity).
  specialize (Hno Hocc). discriminate Hno.
Qed.

(** C1 (amended): a send error is reported as fatal exactly when its text
    contains "requested address is not valid in its context"; every other
    error, and no error, is reported as not fatal. Hence [sendPing] on an
    Active or Redundant connection invalidates the connection at once for
    exactly the errors that contain the text, and leaves status and peer
    untouched for the others. *)
Theorem IsNetworkErrorFatal_exactly_address_not_valid
    (peer : PeerPtr) (c : ConnPtr) (w : World) (conn : Connection) :
  connHeap w !! c = Some conn →
  activeOrRedundant (Status conn) = true →
  (∀ err, IsNetworkErrorFatal err = true
          ↔ ∃ text, err = Some text ∧ occursIn addressNotValid text)
  ∧ ((∃ text, nextResult w = Some text ∧ occursIn addressNotValid text) →
       sendPing peer c w = invalidateActiveConnection peer c (pingAttempt peer c w)
       ∧ statusOf c (sendPing peer c w) = Some ConnectionInactive)
  ∧ (¬ (∃ text, nextResult w = Some text ∧ occursIn addressNotValid text) →
       sendPing peer c w = pingAttempt peer c w
       ∧ statusOf c (sendPing peer c w) = Some (Status conn)
       ∧ peerHeap (sendPing peer c w) = peerHeap w).
Proof.
  intros Hc Hst. split; [apply IsNetworkErrorFatal_true|].
  rewrite (sendPing_cases _ _ _ _ Hc), Hst. simpl. split.
  - intros Hpat. apply IsNetworkErrorFatal_true in Hpat. rewrite Hpat. split; [done|].
    apply invalidate_status. rewrite pingAttempt_lookup, Hc. by eexists.
  - intros Hpat. destruct (IsNetworkErrorFatal (nextResult w)) eqn:Hf.
    + by apply IsNetworkErrorFatal_true in Hf.
    + split; [done|]. split; [|done].
      rewrite pingAttempt_status. unfold statusOf. by rewrite Hc.
Qed.

(** C7: [sendPing] stamps [LastPingOut] with the current time whatever the
    send answered; and when the answer is a fatal network error and the
    connection is Active or Redundant, the connection is invalidated in the
    same call, with no condition on any time. *)
Theorem sendPing_stamps_and_invalidates
    (peer : PeerPtr) (c : ConnPtr) (w : World) (conn : Connection) :
  connHeap w !! c = Some conn →
  LastPingOut <$> connHeap (sendPing peer c w) !! c = Some (Now w)
  ∧ (activeOrRedundant (Status conn) = true →
     IsNetworkErrorFatal (nextResult w) = true →
       sendPing peer c w = invalidateActiveConnection peer c (pingAttempt peer c w)
       ∧ statusOf c (sendPing peer c w) = Some ConnectionInactive
       ∧ ∀ info, peerHeap w !! peer = Some info →
           (c ∉ activeOf peer (sendPing peer c w))
           ∧ c ∈ inactiveOf peer (sendPing peer c w)).
Proof.
  intros Hc. rewrite (sendPing_cases _ _ _ _ Hc). split.
  - destruct (_ && _); [rewrite invalidate_LastPingOut|];
      by rewrite pingAttempt_lookup, Hc.
  - intros -> ->. simpl. split; [done|]. split.
    + apply invalidate_status. rewrite pingAttempt_lookup, Hc. by eexists.
    + intros info Hp.
      destruct (invalidate_lists peer c (pingAttempt peer c w) info Hp) as [-> ->].
      split; [apply not_elem_of_without|].
      rewrite elem_of_app, list_elem_of_singleton. by right.
Qed.

(** ** The registry *)

Section RegistryProperties.
Context `{Btcec}.

Lemma PeerlistAdd_empty (pk : btcecPublicKey) (w : World) :
  PeerlistAdd pk [] w = (None, false, w).
Proof. reflexivity. Qed.

Lemma PeerlistAdd_known (pk : btcecPublicKey) (conns : list ConnPtr) (w : World) (p : PeerPtr) :
  conns ≠ [] →
  peerList w !! publicKey2Compressed pk = Some p →
  PeerlistAdd pk conns w = (Some p, false, w).
Proof. intros Hne Hk. unfold PeerlistAdd. destruct conns; [done|]. by rewrite Hk. Qed.

Lemma PeerlistAdd_new (pk : btcecPublicKey) (first : ConnPtr) (rest : list ConnPtr) (w : World) :
  peerList w !! publicKey2Compressed pk = None →
  PeerlistAdd pk (first :: rest) w =
    (Some (length (peerHeap w)), true,
     setPeerList (<[publicKey2Compressed pk := length (peerHeap w)]> (peerList w))
       (setPeerHeap (peerHeap w ++ [{| PublicKey := pk;
                                       connectionActive := first :: rest;
                                       connectionInactive := [];
                                       connectionLatest := Some first;
                                       StatsPacketSent := 0;
                                       StatsPacketReceived := 0 |}]) w)).
Proof. intros Hk. unfold PeerlistAdd. by rewrite Hk. Qed.

(** A call that reports "added" had connections and a key not yet known. *)
Lemma PeerlistAdd_added_inv (pk : btcecPublicKey) (conns : list ConnPtr) (w w' : World)
    (peer : option PeerPtr) :
  PeerlistAdd pk conns w = (peer, true, w') →
  ∃ first rest, conns = first :: rest ∧ peerList w !! publicKey2Compressed pk = None.
Proof.
  unfold PeerlistAdd. destruct conns as [|first rest]; [done|].
  destruct (peerList w !! publicKey2Compressed pk) eqn:Hk; [done|]. eauto.
Qed.

(** C10: the record a call creates holds the supplied connections, in their
    order, as its active list; its inactive list is empty; its latest valid
    connection is the first one supplied. *)
Theorem PeerlistAdd_created_record
    (pk : btcecPublicKey) (conns : list ConnPtr) (w w' : World) (peer : option PeerPtr) :
  PeerlistAdd pk conns w = (peer, true, w') →
  ∃ p info first rest,
    peer = Some p
    ∧ conns = first :: rest
    ∧ peerHeap w' !! p = Some info
    ∧ peerList w' !! publicKey2Compressed pk = Some p
    ∧ PublicKey info = pk
    ∧ connectionActive info = conns
    ∧ connectionInactive info = []
    ∧ connectionLatest info = Some first.
Proof.
  intros Hadd. destruct (PeerlistAdd_added_inv _ _ _ _ _ Hadd) as (first & rest & -> & Hk).
  rewrite (PeerlistAdd_new _ _ _ _ Hk) in Hadd. injection Hadd as <- <-.
  eexists _, _, first, rest. split; [done|]. split; [done|]. simpl.
  split; [apply list_lookup_middle; done|].
  split; [apply lookup_insert_eq|]. done.
Qed.

(** C9: without connections [PeerlistAdd] creates nothing, inserts nothing and
    reports "not added"; and whenever it does create a record, the record has
    at least one connection. *)
Theorem PeerlistAdd_never_without_connections :
  (∀ pk w, PeerlistAdd pk [] w = (None, false, w))
  ∧ (∀ pk conns w w' peer,
       PeerlistAdd pk conns w = (peer, true, w') →
       conns ≠ []
       ∧ ∃ p info, peer = Some p ∧ peerHeap w' !! p = Some info
                   ∧ connectionActive info ≠ []).
Proof.
  split; [done|]. intros pk conns w w' peer Hadd.
  destruct (PeerlistAdd_added_inv _ _ _ _ _ Hadd) as (first & rest & -> & Hk).
  rewrite (PeerlistAdd_new _ _ _ _ Hk) in Hadd. injection Hadd as <- <-.
  split; [done|]. eexists _, _. split; [done|]. simpl.
  split; [apply list_lookup_middle; done|]. done.
Qed.

End RegistryProperties.

Section RegistryUniqueness.
Context `{Btcec}.

Lemma filter_none {A} (P : A → Prop) `{∀ x, Decision (P x)} (l : list A) :
  (∀ x, x ∈ l → ¬ P x) → filter P l = [].
Proof.
  induction l as [|x l IH]; intros Hall; [done|].
  rewrite filter_cons_False by (apply Hall; left).
  apply IH. intros y Hy. apply Hall. by right.
Qed.

Lemma elem_of_PeerlistGet (w : World) (p : PeerPtr) :
  p ∈ PeerlistGet w ↔ ∃ k, peerList w !! k = Some p.
Proof.
  unfold PeerlistGet. rewrite list_elem_of_fmap. split.
  - intros ([k p'] & -> & Hin). exists k. by apply elem_of_map_to_list.
  - intros [k Hk]. exists (k, p). split; [done|]. by apply elem_of_map_to_list.
Qed.

(** The registry after [initPeerID] is in order, and [PeerlistAdd] keeps it
    in order. *)
Lemma registryOk_empty (t : Time) (conns : list Connection) (answers : list error) :
  registryOk (emptyWorld t conns answers).
Proof. intros k p Hk. simpl in Hk. by rewrite lookup_empty in Hk. Qed.

Lemma PeerlistAdd_registryOk (pk : btcecPublicKey) (conns : list ConnPtr) (w : World) :
  registryOk w → registryOk (PeerlistAdd pk conns w).2.
Proof.
  intros Hok. unfold PeerlistAdd. destruct conns as [|first rest]; [done|].
  destruct (peerList w !! publicKey2Compressed pk) eqn:Hk; [done|].
  intros k p. simpl. rewrite lookup_insert. case_decide as Hkey.
  - intros [= <-]. by rewrite list_lookup_middle, <- Hkey.
  - intros Hp. specialize (Hok k p Hp).
    destruct (peerHeap w !! p) as [info|] eqn:Hinfo; [|done].
    by rewrite (lookup_app_l_Some _ _ _ _ Hinfo).
Qed.

(** In a registry in order, no two keys share a record. *)
Lemma registryOk_NoDup (w : World) : registryOk w → NoDup (PeerlistGet w).
Proof.
  intros Hok. unfold PeerlistGet. apply NoDup_fmap_2_strong; [|apply NoDup_map_to_list].
  intros [k1 p1] [k2 p2] Hin1 Hin2 Heq. simpl in Heq. subst p2.
  apply elem_of_map_to_list in Hin1, Hin2.
  apply Hok in Hin1, Hin2. rewrite Hin1 in Hin2. by injection Hin2 as ->.
Qed.

(** After the call that adds the identity [k], the registry holds exactly the
    new record for [k]. *)
Lemma recordsOf_added (pk : btcecPublicKey) (first : ConnPtr) (rest : list ConnPtr) (w : World) :
  registryOk w →
  peerList w !! publicKey2Compressed pk = None →
  recordsOf (publicKey2Compressed pk) (PeerlistAdd pk (first :: rest) w).2
  = [length (peerHeap w)].
Proof.
  intros Hok Hk. rewrite (PeerlistAdd_new _ _ _ _ Hk). unfold recordsOf, PeerlistGet. simpl.
  apply Permutation_singleton_r.
  rewrite (map_to_list_insert _ _ _ Hk). rewrite fmap_cons. simpl.
  rewrite filter_cons_True by (by rewrite list_lookup_middle).
  rewrite filter_none; [done|].
  intros p Hp. apply (elem_of_PeerlistGet w) in Hp as [k' Hk'].
  specialize (Hok k' p Hk').
  destruct (peerHeap w !! p) as [info|] eqn:Hinfo; [|done].
  rewrite (lookup_app_l_Some _ _ _ _ Hinfo). simpl in *.
  intros Heq. rewrite Heq in Hok. injection Hok as <-. by rewrite Hk in Hk'.
Qed.

(** At any time, a registry in order holds at most one record per identity. *)
Lemma recordsOf_at_most_one (k : list Z) (w : World) :
  registryOk w → length (recordsOf k w) ≤ 1.
Proof.
  intros Hok.
  assert (Hnd : NoDup (recordsOf k w)) by (by apply NoDup_filter, registryOk_NoDup).
  assert (Hsame : ∀ x y, x ∈ recordsOf k w → y ∈ recordsOf k w → x = y).
  { intros x y Hx Hy. unfold recordsOf in Hx, Hy.
    apply list_elem_of_filter in Hx as [Hkx Hx], Hy as [Hky Hy].
    apply elem_of_PeerlistGet in Hx as [kx Hx], Hy as [ky Hy].
    pose proof (Hok kx x Hx) as Hx'. pose proof (Hok ky y Hy) as Hy'.
    rewrite Hkx in Hx'. rewrite Hky in Hy'.
    injection Hx' as <-. injection Hy' as <-. rewrite Hx in Hy. by injection Hy. }
  destruct (recordsOf k w) as [|x [|y l]]; simpl; [lia|lia|].
  apply NoDup_cons in Hnd as [Hx _]. exfalso. apply Hx.
  rewrite (Hsame x y); [left|left|right; left].
Qed.

(** Once the identity is known, a run of calls for it returns the known
    record each time, never "added", and changes nothing. *)
Lemma PeerlistAddAll_known (k : list Z) (p : PeerPtr)
    (calls : list (btcecPublicKey * list ConnPtr)) (w : World) :
  peerList w !! k = Some p →
  Forall (λ call, publicKey2Compressed call.1 = k ∧ call.2 ≠ []) calls →
  PeerlistAddAll calls w = (replicate (length calls) (Some p, false), w).
Proof.
  intros Hk. induction 1 as [|[pk conns] calls [Hkey Hne] _ IH]; [done|].
  simpl in *. subst k. by rewrite (PeerlistAdd_known _ _ _ _ Hne Hk), IH.
Qed.

(** C3: in a run of [PeerlistAdd] calls for one identity, each with
    connections, the first call adds the record and reports "added"; every
    later call returns that same record, reports "not added" and leaves the
    world as the first call left it; afterwards the registry holds exactly
    one record for the identity. *)
Theorem PeerlistAdd_uniqueness
    (k : list Z) (first : btcecPublicKey * list ConnPtr)
    (later : list (btcecPublicKey * list ConnPtr)) (w : World) :
  registryOk w →
  peerList w !! k = None →
  Forall (λ call, publicKey2Compressed call.1 = k ∧ call.2 ≠ []) (first :: later) →
  ∃ p w1,
    PeerlistAdd first.1 first.2 w = (Some p, true, w1)
    ∧ (∀ call, call ∈ later → PeerlistAdd call.1 call.2 w1 = (Some p, false, w1))
    ∧ PeerlistAddAll (first :: later) w
      = ((Some p, true) :: replicate (length later) (Some p, false), w1)
    ∧ recordsOf k w1 = [p]
    ∧ length (recordsOf k (PeerlistAddAll (first :: later) w).2) = 1.
Proof.
  intros Hok Hk Hcalls. apply Forall_cons in Hcalls as [[Hkey Hne] Hlater].
  destruct first as [pk conns]. simpl in *. subst k.
  destruct conns as [|c1 cs]; [done|].
  pose proof (PeerlistAdd_new pk c1 cs w Hk) as Hadd.
  pose proof (recordsOf_added pk c1 cs w Hok Hk) as Hrec.
  destruct (PeerlistAdd pk (c1 :: cs) w) as [[peer added] w1] eqn:Hrun.
  injection Hadd as -> -> Hw1. simpl in Hrec.
  assert (Hknown : peerList w1 !! publicKey2Compressed pk = Some (length (peerHeap w)))
    by (rewrite Hw1; apply lookup_insert_eq).
  exists (length (peerHeap w)), w1. split; [done|]. split.
  - intros [pk' conns'] Hin. rewrite Forall_forall in Hlater.
    destruct (Hlater _ Hin) as [Hkey' Hne']. simpl in *.
    apply PeerlistAdd_known; [done|]. by rewrite Hkey'.
  - rewrite (PeerlistAddAll_known _ _ _ _ Hknown Hlater). simpl.
    split; [done|]. split; [done|]. by rewrite Hrec.
Qed.

End RegistryUniqueness.

(** ** The announcement handler *)

Section Handshake.
Context `{Btcec}.

Lemma send_on_latest (p : PeerPtr) (packet : PacketRaw) (w : World) (info : PeerInfo)
    (c : ConnPtr) :
  peerHeap w !! p = Some info →
  connectionLatest info = Some c →
  send p packet w = sendConnection p packet c w.
Proof. intros Hp Hc. unfold send. by rewrite Hp, Hc. Qed.

Lemma cmdAnouncement_known (p : PeerPtr) (msg : packet2) (w : World) :
  cmdAnouncement (Some p) msg w = (send p responsePacket w).2.
Proof. reflexivity. Qed.

(** C4: with an empty registry, an Announcement from identity [K] received on
    connection [C] for the [nil] peer leaves exactly one peer in the registry,
    the one for [K], whose active connections are exactly [C], and puts
    exactly one packet on the wire: a Response from that peer, on [C]. For a
    known peer the handler sends a Response whatever the case, one packet on
    the peer's preferred connection, and the registry stays as it was. *)
Theorem cmdAnouncement_handshake (msg : packet2) (w : World) :
  (peerList w = ∅ →
     ∃ p info,
       PeerlistGet (cmdAnouncement None msg w) = [p]
       ∧ PeerlistLookup (SenderPublicKey msg) (cmdAnouncement None msg w) = Some p
       ∧ peerHeap (cmdAnouncement None msg w) !! p = Some info
       ∧ PublicKey info = SenderPublicKey msg
       ∧ connectionActive info = [connection msg]
       ∧ connectionInactive info = []
       ∧ wire (cmdAnouncement None msg w)
         = wire w ++ [{| txPeer := p; txConnection := connection msg;
                         txPacket := responsePacket; txResult := nextResult w |}])
  ∧ (∀ p info c,
       peerHeap w !! p = Some info →
       connectionLatest info = Some c →
       cmdAnouncement (Some p) msg w = (send p responsePacket w).2
       ∧ wire (cmdAnouncement (Some p) msg w)
         = wire w ++ [{| txPeer := p; txConnection := c;
                         txPacket := responsePacket; txResult := nextResult w |}]
       ∧ peerList (cmdAnouncement (Some p) msg w) = peerList w
       ∧ peerHeap (cmdAnouncement (Some p) msg w) = peerHeap w
       ∧ PeerlistCount (cmdAnouncement (Some p) msg w) = PeerlistCount w).
Proof.
  split.
  - intros Hempty.
    assert (Hk : peerList w !! publicKey2Compressed (SenderPublicKey msg) = None)
      by (rewrite Hempty; apply lookup_empty).
    unfold cmdAnouncement. rewrite (PeerlistAdd_new _ _ _ _ Hk).
    set (info := {| PublicKey := SenderPublicKey msg; connectionActive := [connection msg];
                    connectionInactive := []; connectionLatest := Some (connection msg);
                    StatsPacketSent := 0; StatsPacketReceived := 0 |}).
    set (w1 := setPeerList _ _).
    assert (Hp : peerHeap w1 !! length (peerHeap w) = Some info)
      by (apply list_lookup_middle; done).
    rewrite (send_on_latest _ _ _ _ _ Hp eq_refl).
    exists (length (peerHeap w)), info. simpl.
    split; [|split; [apply lookup_insert_eq|done]].
    unfold PeerlistGet. simpl. rewrite Hempty, insert_empty, map_to_list_singleton. done.
  - intros p info c Hp Hc. rewrite cmdAnouncement_known.
    rewrite (send_on_latest _ _ _ _ _ Hp Hc). done.
Qed.

End Handshake.

(** ** The three writes of the scheduler, field by field *)

Lemma remove_connHeap (peer : PeerPtr) (c : ConnPtr) (w : World) :
  connHeap (removeInactiveConnection peer c w)
  = alter (withStatus ConnectionRemoved) c (connHeap w).
Proof. reflexivity. Qed.

Lemma remove_peerHeap (peer : PeerPtr) (c : ConnPtr) (w : World) :
  peerHeap (removeInactiveConnection peer c w)
  = alter (λ p, withLists (connectionActive p) (without c (connectionInactive p)) p)
          peer (peerHeap w).
Proof. reflexivity. Qed.

Lemma pingAttempt_connHeap (peer : PeerPtr) (c : ConnPtr) (w : World) :
  connHeap (pingAttempt peer c w) = alter (withLastPingOut (Now w)) c (connHeap w).
Proof. reflexivity. Qed.

Lemma invalidate_lookup_ne (peer : PeerPtr) (c d : ConnPtr) (w : World) :
  d ≠ c → connHeap (invalidateActiveConnection peer d w) !! c = connHeap w !! c.
Proof. intros Hne. rewrite invalidate_connHeap. by apply list_lookup_alter_ne. Qed.

Lemma invalidate_lookup_eq (peer : PeerPtr) (c : ConnPtr) (w : World) :
  connHeap (invalidateActiveConnection peer c w) !! c
  = invalidated (Now w) <$> connHeap w !! c.
Proof. rewrite invalidate_connHeap. apply list_lookup_alter_eq. Qed.

Lemma remove_lookup_ne (peer : PeerPtr) (c d : ConnPtr) (w : World) :
  d ≠ c → connHeap (removeInactiveConnection peer d w) !! c = connHeap w !! c.
Proof. intros Hne. rewrite remove_connHeap. by apply list_lookup_alter_ne. Qed.

Lemma remove_lookup_eq (peer : PeerPtr) (c : ConnPtr) (w : World) :
  connHeap (removeInactiveConnection peer c w) !! c
  = withStatus ConnectionRemoved <$> connHeap w !! c.
Proof. rewrite remove_connHeap. apply list_lookup_alter_eq. Qed.

Lemma pingAttempt_lookup_ne (peer : PeerPtr) (c d : ConnPtr) (w : World) :
  d ≠ c → connHeap (pingAttempt peer d w) !! c = connHeap w !! c.
Proof. intros Hne. rewrite pingAttempt_connHeap. by apply list_lookup_alter_ne. Qed.

(** The lists of a peer after each write. *)

Lemma GetConnections_invalidate_ne (p q : PeerPtr) (d : ConnPtr) (b : bool) (w : World) :
  q ≠ p →
  GetConnections p b (invalidateActiveConnection q d w) = GetConnections p b w.
Proof.
  intros Hne. unfold GetConnections.
  by rewrite invalidate_peerHeap, list_lookup_alter_ne.
Qed.

Lemma activeOf_invalidate (p : PeerPtr) (d : ConnPtr) (w : World) :
  activeOf p (invalidateActiveConnection p d w) = without d (activeOf p w).
Proof.
  unfold activeOf, GetConnections. rewrite invalidate_peerHeap, list_lookup_alter_eq.
  by destruct (peerHeap w !! p).
Qed.

Lemma inactiveOf_invalidate (p : PeerPtr) (d : ConnPtr) (w : World) :
  is_Some (peerHeap w !! p) →
  inactiveOf p (invalidateActiveConnection p d w) = inactiveOf p w ++ [d].
Proof.
  intros [info Hp]. unfold inactiveOf, GetConnections.
  by rewrite invalidate_peerHeap, list_lookup_alter_eq, Hp.
Qed.

Lemma inactiveOf_invalidate_absent (p : PeerPtr) (d : ConnPtr) (w : World) :
  peerHeap w !! p = None →
  inactiveOf p (invalidateActiveConnection p d w) = [].
Proof.
  intros Hp. unfold inactiveOf, GetConnections.
  by rewrite invalidate_peerHeap, list_lookup_alter_eq, Hp.
Qed.

Lemma GetConnections_remove_ne (p q : PeerPtr) (d : ConnPtr) (b : bool) (w : World) :
  q ≠ p →
  GetConnections p b (removeInactiveConnection q d w) = GetConnections p b w.
Proof.
  intros Hne. unfold GetConnections.
  by rewrite remove_peerHeap, list_lookup_alter_ne.
Qed.

Lemma activeOf_remove (p q : PeerPtr) (d : ConnPtr) (w : World) :
  activeOf p (removeInactiveConnection q d w) = activeOf p w.
Proof.
  unfold activeOf, GetConnections. rewrite remove_peerHeap, list_lookup_alter.
  case_decide; [|done]. subst q. by destruct (peerHeap w !! p).
Qed.

Lemma inactiveOf_remove (p : PeerPtr) (d : ConnPtr) (w : World) :
  inactiveOf p (removeInactiveConnection p d w) = without d (inactiveOf p w).
Proof.
  unfold inactiveOf, GetConnections. rewrite remove_peerHeap, list_lookup_alter_eq.
  by destruct (peerHeap w !! p).
Qed.

Lemma GetConnections_pingAttempt (p q : PeerPtr) (d : ConnPtr) (b : bool) (w : World) :
  GetConnections p b (pingAttempt q d w) = GetConnections p b w.
Proof. reflexivity. Qed.

(** Membership in the lists of any peer, after each write. *)

Lemma elem_of_inactiveOf_invalidate (p q : PeerPtr) (c d : ConnPtr) (w : World) :
  c ∈ inactiveOf p (invalidateActiveConnection q d w) → c ∈ inactiveOf p w ∨ c = d.
Proof.
  destruct (decide (q = p)) as [->|Hne].
  - destruct (peerHeap w !! p) as [info|] eqn:Hp.
    + rewrite inactiveOf_invalidate by (by eexists).
      rewrite elem_of_app, list_elem_of_singleton. tauto.
    + rewrite inactiveOf_invalidate_absent by done. by intros ?%elem_of_nil.
  - unfold inactiveOf. rewrite GetConnections_invalidate_ne by done. by left.
Qed.

Lemma elem_of_inactiveOf_remove (p q : PeerPtr) (c d : ConnPtr) (w : World) :
  c ∈ inactiveOf p (removeInactiveConnection q d w) → c ∈ inactiveOf p w.
Proof.
  destruct (decide (q = p)) as [->|Hne].
  - rewrite inactiveOf_remove, elem_of_without. by intros [_ ?].
  - unfold inactiveOf. by rewrite GetConnections_remove_ne.
Qed.

Lemma elem_of_activeOf_invalidate (p q : PeerPtr) (c d : ConnPtr) (w : World) :
  d ≠ c → c ∈ activeOf p w → c ∈ activeOf p (invalidateActiveConnection q d w).
Proof.
  intros Hdc Hin. destruct (decide (q = p)) as [->|Hne].
  - rewrite activeOf_invalidate, elem_of_without. done.
  - unfold activeOf. by rewrite GetConnections_invalidate_ne.
Qed.

(** ** Rounds, seen through their outcomes *)

Lemma foldl_invariant {A B} (I : A → Prop) (f : A → B → A) (l : list B) (a : A) :
  I a → (∀ a' x, x ∈ l → I a' → I (f a' x)) → I (foldl f a l).
Proof.
  revert a. induction l as [|x l IH]; intros a Ha Hstep; [done|].
  simpl. apply IH.
  - apply Hstep; [left | done].
  - intros a' y Hy. apply Hstep. by right.
Qed.

Lemma sendPing_outcome (th : Thresholds) (q : PeerPtr) (d : ConnPtr) (w : World)
    (conn : Connection) :
  connHeap w !! d = Some conn →
  Before (LastPingOut conn) (thresholdPingOut1 th) = true
  ∨ Before (LastPingOut conn) (thresholdPingOut2 th) = true →
  roundOutcome th q d w (sendPing q d w).
Proof.
  intros Hd Hping. rewrite (sendPing_cases _ _ _ _ Hd).
  destruct (_ && _); econstructor; eauto.
Qed.

Lemma activeRound_outcome (th : Thresholds) (q : PeerPtr) (d : ConnPtr) (w : World) :
  roundOutcome th q d w (activeRound th q w d).
Proof.
  unfold activeRound. destruct (connHeap w !! d) as [conn|] eqn:Hd; [|constructor].
  destruct (Before (LastPacketIn conn) _); [constructor|].
  destruct (Before (LastPacketIn conn) _ && Before (LastPingOut conn) _) eqn:Hping;
    [|constructor].
  apply andb_true_iff in Hping as [_ Hping].
  apply (sendPing_outcome _ _ _ _ conn Hd).
  destruct (bool_decide (Status conn = ConnectionRedundant)); auto.
Qed.

Lemma inactiveRound_outcome (th : Thresholds) (q : PeerPtr) (d : ConnPtr) (w : World) :
  roundOutcome th q d w (inactiveRound th q w d).
Proof.
  unfold inactiveRound. destruct (peerHeap w !! q) as [info|]; [|constructor].
  destruct (connHeap w !! d) as [conn|] eqn:Hd; [|constructor].
  destruct (purgeGuard info conn w) eqn:Hguard.
  - apply andb_true_iff in Hguard as [_ Hexp]. by apply (outcome_remove _ _ _ _ conn).
  - destruct (Before (LastPingOut conn) _) eqn:Hping; [|constructor].
    apply (sendPing_outcome _ _ _ _ conn Hd). auto.
Qed.

Lemma inactiveRound_unfold (th : Thresholds) (p : PeerPtr) (c : ConnPtr) (w : World)
    (info : PeerInfo) (conn : Connection) :
  peerHeap w !! p = Some info →
  connHeap w !! c = Some conn →
  inactiveRound th p w c =
    if purgeGuard info conn w then removeInactiveConnection p c w
    else if Before (LastPingOut conn) (thresholdPingOut1 th) then sendPing p c w
         else w.
Proof. intros Hp Hc. unfold inactiveRound. by rewrite Hp, Hc. Qed.

(** No round moves the clock or touches the registry. *)
Lemma roundOutcome_now (th : Thresholds) (q : PeerPtr) (d : ConnPtr) (w w' : World) :
  roundOutcome th q d w w' → now w' = now w ∧ peerList w' = peerList w.
Proof. by destruct 1. Qed.

(** ** A Redundant connection within its thresholds *)

Lemma thresholds_values (w : World) :
  thresholdInvalidate1 (thresholds w) = (Now w - seconds 22)%Z
  ∧ thresholdInvalidate2 (thresholds w) = (Now w - seconds 88)%Z
  ∧ thresholdPingOut1 (thresholds w) = (Now w - seconds 10)%Z
  ∧ thresholdPingOut2 (thresholds w) = (Now w - seconds 40)%Z.
Proof.
  unfold thresholds, seconds, Add, Now, connectionInvalidate, pingTime, Second. simpl.
  repeat split; lia.
Qed.

Lemma untouched_outcome (th : Thresholds) (t : Time) (p q : PeerPtr) (c d : ConnPtr)
    (conn : Connection) (w w' : World) :
  d ≠ c → roundOutcome th q d w w' → untouched t p c conn w → untouched t p c conn w'.
Proof.
  intros Hdc Hout (Hnow & Hc & Hact & Hinact).
  destruct Hout as [| |cd Hd Hping|cd Hd Hping|cd Hd Hexp].
  - done.
  - split; [done|]. split; [by rewrite invalidate_lookup_ne|].
    split; [by apply elem_of_activeOf_invalidate|].
    intros q' Hin. apply elem_of_inactiveOf_invalidate in Hin as [Hin| ->]; [|done].
    by apply (Hinact q').
  - split; [done|]. split; [by rewrite pingAttempt_lookup_ne|]. done.
  - split; [done|].
    split; [by rewrite invalidate_lookup_ne, pingAttempt_lookup_ne|].
    split; [by apply elem_of_activeOf_invalidate|].
    intros q' Hin. apply elem_of_inactiveOf_invalidate in Hin as [Hin| ->]; [|done].
    by apply (Hinact q').
  - split; [done|]. split; [by rewrite remove_lookup_ne|].
    split; [by rewrite activeOf_remove|].
    intros q' Hin. apply elem_of_inactiveOf_remove in Hin. by apply (Hinact q').
Qed.

(** The round of the connection itself does nothing: it is Redundant, heard
    of within 40 seconds. *)
Lemma redundant_round_idle (w0 w : World) (q : PeerPtr) (c : ConnPtr) (conn : Connection) :
  now w = now w0 →
  connHeap w !! c = Some conn →
  Status conn = ConnectionRedundant →
  (now w0 - seconds 40 ≤ LastPacketIn conn)%Z →
  activeRound (thresholds w0) q w c = w.
Proof.
  intros Hnow Hc Hst Hin. unfold activeRound. rewrite Hc, Hst.
  rewrite bool_decide_true by done. cbv zeta iota.
  destruct (thresholds_values w0) as (_ & -> & _ & ->). unfold Now, Before, seconds in *.
  unfold Second in *.
  replace (LastPacketIn conn <? now w0 - 88 * 1000000000)%Z with false
    by (symmetry; apply Z.ltb_ge; lia).
  replace (LastPacketIn conn <? now w0 - 40 * 1000000000)%Z with false
    by (symmetry; apply Z.ltb_ge; lia).
  done.
Qed.

Lemma untouched_peerRound (w0 w : World) (p q : PeerPtr) (c : ConnPtr) (conn : Connection) :
  Status conn = ConnectionRedundant →
  (now w0 - seconds 40 ≤ LastPacketIn conn)%Z →
  untouched (now w0) p c conn w →
  untouched (now w0) p c conn (peerRound (thresholds w0) w q).
Proof.
  intros Hst Hin Hw. unfold peerRound.
  assert (Hact : untouched (now w0) p c conn (activePass (thresholds w0) q w)).
  { unfold activePass. apply foldl_invariant; [done|].
    intros w' d _ Hw'. destruct (decide (d = c)) as [->|Hdc].
    - pose proof Hw' as (Hnow & Hc & _). by rewrite (redundant_round_idle w0 w' q c conn).
    - eapply untouched_outcome; [done|apply activeRound_outcome|done]. }
  unfold inactivePass. apply foldl_invariant; [done|].
  intros w' d Hd Hw'. destruct (decide (d = c)) as [->|Hdc].
  - destruct Hact as (_ & _ & _ & Hnot). by destruct (Hnot q).
  - eapply untouched_outcome; [done|apply inactiveRound_outcome|done].
Qed.

Lemma redundant_not_invalidated (order : list PeerPtr) (w : World) (p : PeerPtr) (c : ConnPtr)
    (conn : Connection) :
  Status conn = ConnectionRedundant →
  (now w - seconds 40 ≤ LastPacketIn conn)%Z →
  untouched (now w) p c conn w →
  untouched (now w) p c conn (tick order w).
Proof.
  intros Hst Hin Hw. unfold tick. apply foldl_invariant; [done|].
  intros w' q _ Hw'. by apply untouched_peerRound.
Qed.

(** C6: the thresholds for Redundant connections are four times the normal
    ones, 88 and 40 seconds before now; so a Redundant active connection last
    heard of 25 seconds ago is not invalidated by the tick, whatever the order
    in which the tick visits the peers: it stays as it was, in the active
    list, in no inactive list. *)
Theorem redundant_thresholds_are_fourfold
    (order : list PeerPtr) (w : World) (p : PeerPtr) (c : ConnPtr) (conn : Connection) :
  (thresholdInvalidate2 (thresholds w) = (Now w - seconds 88)%Z
   ∧ thresholdPingOut2 (thresholds w) = (Now w - seconds 40)%Z
   ∧ (Now w - thresholdInvalidate2 (thresholds w)
      = 4 * (Now w - thresholdInvalidate1 (thresholds w)))%Z
   ∧ (Now w - thresholdPingOut2 (thresholds w)
      = 4 * (Now w - thresholdPingOut1 (thresholds w)))%Z)
  ∧ (c ∈ activeOf p w →
     (∀ q, c ∉ inactiveOf q w) →
     connHeap w !! c = Some conn →
     Status conn = ConnectionRedundant →
     LastPacketIn conn = (Now w - seconds 25)%Z →
       c ∈ activeOf p (tick order w)
       ∧ (∀ q, c ∉ inactiveOf q (tick order w))
       ∧ connHeap (tick order w) !! c = Some conn
       ∧ statusOf c (tick order w) = Some ConnectionRedundant).
Proof.
  split.
  - destruct (thresholds_values w) as (-> & -> & -> & ->). unfold seconds, Second.
    repeat split; lia.
  - intros Hact Hinact Hc Hst Hin.
    destruct (redundant_not_invalidated order w p c conn Hst)
      as (_ & Hc' & Hact' & Hinact').
    + rewrite Hin. unfold Now, seconds, Second. lia.
    + done.
    + repeat split; try done. unfold statusOf. by rewrite Hc', <- Hst.
Qed.

(** ** A quiet Active connection *)

Section QuietConnection.
Variables (th : Thresholds) (t : Time) (p : PeerPtr) (c : ConnPtr).

Lemma quiet_invalidate (q : PeerPtr) (d : ConnPtr) (w : World) :
  quiet th c w → quiet th c (invalidateActiveConnection q d w).
Proof.
  intros (conn & Hc & Hst & Hin). destruct (decide (d = c)) as [->|Hdc].
  - exists (invalidated (Now w) conn). by rewrite invalidate_lookup_eq, Hc.
  - exists conn. by rewrite invalidate_lookup_ne.
Qed.

Lemma quiet_pingAttempt (q : PeerPtr) (d : ConnPtr) (w : World) :
  quiet th c w → quiet th c (pingAttempt q d w).
Proof.
  intros (conn & Hc & Hst & Hin). destruct (decide (d = c)) as [->|Hdc].
  - exists (withLastPingOut (Now w) conn). by rewrite pingAttempt_lookup, Hc.
  - exists conn. by rewrite pingAttempt_lookup_ne.
Qed.

Lemma quiet_remove (q : PeerPtr) (d : ConnPtr) (w : World) :
  quiet th c w → quiet th c (removeInactiveConnection q d w).
Proof.
  intros (conn & Hc & Hst & Hin). destruct (decide (d = c)) as [->|Hdc].
  - exists (withStatus ConnectionRemoved conn). by rewrite remove_lookup_eq, Hc.
  - exists conn. by rewrite remove_lookup_ne.
Qed.

Lemma activeOf_nonempty_peer (q : PeerPtr) (b : bool) (x : ConnPtr) (w : World) :
  x ∈ GetConnections q b w → is_Some (peerHeap w !! q).
Proof.
  unfold GetConnections. destruct (peerHeap w !! q); [by eexists|].
  by intros ?%elem_of_nil.
Qed.

(** Invalidating [c] for [p] settles it in the inactive list. *)
Lemma invalidate_settles (w : World) :
  now w = t → quiet th c w → is_Some (peerHeap w !! p) →
  invalidatedInTick th t p c (invalidateActiveConnection p c w).
Proof.
  intros Hnow Hq Hp. split; [done|]. split; [by apply quiet_invalidate|].
  destruct Hq as (conn & Hc & _). split; [|split].
  - rewrite inactiveOf_invalidate by done. rewrite elem_of_app, list_elem_of_singleton. by right.
  - rewrite activeOf_invalidate. apply not_elem_of_without.
  - exists (invalidated (Now w) conn). rewrite invalidate_lookup_eq, Hc.
    split; [done|]. split; [done|]. simpl.
    unfold Add, Now, connectionRemove, Second. simpl. lia.
Qed.

Lemma settled_invalidate (q : PeerPtr) (d : ConnPtr) (w : World) :
  invalidatedInTick th t p c w →
  invalidatedInTick th t p c (invalidateActiveConnection q d w).
Proof.
  intros (Hnow & Hq & Hin & Hout & conn & Hc & Hst & Hexp).
  destruct (decide (q = p)) as [->|Hqp].
  - destruct (decide (d = c)) as [->|Hdc].
    + apply invalidate_settles; [done..|]. by apply (activeOf_nonempty_peer p false c).
    + split; [done|]. split; [by apply quiet_invalidate|]. split; [|split].
      * rewrite inactiveOf_invalidate by (by apply (activeOf_nonempty_peer p false c)).
        rewrite elem_of_app. by left.
      * rewrite activeOf_invalidate, elem_of_without. tauto.
      * exists conn. by rewrite invalidate_lookup_ne.
  - split; [done|]. split; [by apply quiet_invalidate|].
    unfold movedToInactive, inactiveOf, activeOf.
    rewrite !GetConnections_invalidate_ne by done. split; [done|]. split; [done|].
    destruct (decide (d = c)) as [->|Hdc].
    + exists (invalidated (Now w) conn). rewrite invalidate_lookup_eq, Hc.
      split; [done|]. split; [done|]. simpl.
      unfold Add, Now, connectionRemove, Second. simpl. lia.
    + exists conn. by rewrite invalidate_lookup_ne.
Qed.

Lemma settled_pingAttempt (q : PeerPtr) (d : ConnPtr) (w : World) :
  invalidatedInTick th t p c w → invalidatedInTick th t p c (pingAttempt q d w).
Proof.
  intros (Hnow & Hq & Hin & Hout & conn & Hc & Hst & Hexp).
  split; [done|]. split; [by apply quiet_pingAttempt|]. split; [done|]. split; [done|].
  destruct (decide (d = c)) as [->|Hdc].
  - exists (withLastPingOut (Now w) conn). by rewrite pingAttempt_lookup, Hc.
  - exists conn. by rewrite pingAttempt_lookup_ne.
Qed.

Lemma settled_remove (q : PeerPtr) (d : ConnPtr) (w : World) (cd : Connection) :
  connHeap w !! d = Some cd →
  Before (Expires cd) (Now w) = true →
  invalidatedInTick th t p c w →
  invalidatedInTick th t p c (removeInactiveConnection q d w).
Proof.
  intros Hd Hexpired (Hnow & Hq & Hin & Hout & conn & Hc & Hst & Hexp).
  assert (Hdc : d ≠ c).
  { intros ->. rewrite Hc in Hd. injection Hd as <-.
    unfold Before in Hexpired. apply Z.ltb_lt in Hexpired. lia. }
  split; [done|]. split; [by apply quiet_remove|]. split; [|split].
  - destruct (decide (q = p)) as [->|Hqp].
    + rewrite inactiveOf_remove, elem_of_without. done.
    + unfold inactiveOf. by rewrite GetConnections_remove_ne.
  - by rewrite activeOf_remove.
  - exists conn. by rewrite remove_lookup_ne.
Qed.

Lemma settled_outcome (th' : Thresholds) (q : PeerPtr) (d : ConnPtr) (w w' : World) :
  roundOutcome th' q d w w' →
  invalidatedInTick th t p c w → invalidatedInTick th t p c w'.
Proof.
  intros Hout Hw. destruct Hout as [| |cd Hd Hping|cd Hd Hping|cd Hd Hexp].
  - done.
  - by apply settled_invalidate.
  - by apply settled_pingAttempt.
  - by apply settled_invalidate, settled_pingAttempt.
  - by apply (settled_remove _ _ _ cd).
Qed.

Lemma due_invalidate (q : PeerPtr) (d : ConnPtr) (w : World) :
  dueForInvalidation th t p c w →
  dueForInvalidation th t p c (invalidateActiveConnection q d w)
  ∨ invalidatedInTick th t p c (invalidateActiveConnection q d w).
Proof.
  intros (Hnow & Hq & Hin).
  destruct (decide (q = p ∧ d = c)) as [[-> ->]|Hne].
  - right. apply invalidate_settles; [done..|]. by apply (activeOf_nonempty_peer p true c).
  - left. split; [done|]. split; [by apply quiet_invalidate|].
    destruct (decide (q = p)) as [->|Hqp].
    + rewrite activeOf_invalidate, elem_of_without. split; [|done]. intros ->. tauto.
    + unfold activeOf. by rewrite GetConnections_invalidate_ne.
Qed.

Lemma due_pingAttempt (q : PeerPtr) (d : ConnPtr) (w : World) :
  dueForInvalidation th t p c w → dueForInvalidation th t p c (pingAttempt q d w).
Proof.
  intros (Hnow & Hq & Hin). split; [done|]. split; [by apply quiet_pingAttempt|]. done.
Qed.

Lemma due_remove (q : PeerPtr) (d : ConnPtr) (w : World) :
  dueForInvalidation th t p c w →
  dueForInvalidation th t p c (removeInactiveConnection q d w).
Proof.
  intros (Hnow & Hq & Hin). split; [done|]. split; [by apply quiet_remove|].
  by rewrite activeOf_remove.
Qed.

Lemma either_outcome (th' : Thresholds) (q : PeerPtr) (d : ConnPtr) (w w' : World) :
  roundOutcome th' q d w w' →
  dueForInvalidation th t p c w ∨ invalidatedInTick th t p c w →
  dueForInvalidation th t p c w' ∨ invalidatedInTick th t p c w'.
Proof.
  intros Hout [Hw|Hw]; [|right; by eapply settled_outcome].
  destruct Hout as [| |cd Hd Hping|cd Hd Hping|cd Hd Hexp].
  - by left.
  - by apply due_invalidate.
  - left. by apply due_pingAttempt.
  - by apply due_invalidate, due_pingAttempt.
  - left. by apply due_remove.
Qed.

(** The round of [c] itself, in the loop over the active connections of [p]. *)
Lemma quiet_round_invalidates (q : PeerPtr) (w : World) :
  quiet th c w → activeRound th q w c = invalidateActiveConnection q c w.
Proof.
  intros (conn & Hc & Hst & Hin). unfold activeRound. rewrite Hc.
  rewrite bool_decide_false by done. cbv zeta iota. by rewrite Hin.
Qed.

Lemma activePass_settles (l : list ConnPtr) (w : World) :
  dueForInvalidation th t p c w ∨ invalidatedInTick th t p c w →
  (dueForInvalidation th t p c w → c ∈ l) →
  invalidatedInTick th t p c (foldl (activeRound th p) w l).
Proof.
  revert w. induction l as [|d l IH]; intros w Hw Hin.
  - destruct Hw as [Hw|Hw]; [|done]. by apply Hin, elem_of_nil in Hw.
  - simpl. destruct (decide (d = c)) as [->|Hdc].
    + assert (Hs : invalidatedInTick th t p c (activeRound th p w c)).
      { destruct Hw as [(Hnow & Hq & Hact)|Hw].
        - rewrite quiet_round_invalidates by done.
          apply invalidate_settles; [done..|]. by apply (activeOf_nonempty_peer p true c).
        - by eapply settled_outcome; [apply activeRound_outcome|]. }
      apply IH; [by right|]. intros (_ & _ & Hact). exfalso.
      by destruct Hs as (_ & _ & _ & Hout & _).
    + apply IH; [by eapply either_outcome; [apply activeRound_outcome|]|].
      intros Hdue. destruct Hw as [Hw|Hw].
      * apply Hin, elem_of_cons in Hw as [->|Hw]; done.
      * exfalso. destruct Hdue as (_ & _ & Hact).
        assert (Hs : invalidatedInTick th t p c (activeRound th p w d))
          by (by eapply settled_outcome; [apply activeRound_outcome|]).
        by destruct Hs as (_ & _ & _ & Hout & _).
Qed.

Lemma peerRound_settles (w : World) :
  dueForInvalidation th t p c w ∨ invalidatedInTick th t p c w →
  invalidatedInTick th t p c (peerRound th w p).
Proof.
  intros Hw. unfold peerRound, inactivePass. apply foldl_invariant.
  - apply activePass_settles; [done|]. by intros (_ & _ & Hact).
  - intros w' d _ Hw'. by eapply settled_outcome; [apply inactiveRound_outcome|].
Qed.

Lemma peerRound_either (q : PeerPtr) (w : World) :
  dueForInvalidation th t p c w ∨ invalidatedInTick th t p c w →
  dueForInvalidation th t p c (peerRound th w q) ∨ invalidatedInTick th t p c (peerRound th w q).
Proof.
  intros Hw. unfold peerRound, inactivePass, activePass.
  apply (foldl_invariant (λ w', dueForInvalidation th t p c w' ∨ invalidatedInTick th t p c w')).
  - apply (foldl_invariant
             (λ w', dueForInvalidation th t p c w' ∨ invalidatedInTick th t p c w')); [done|].
    intros w' d _ Hw'. by eapply either_outcome; [apply activeRound_outcome|].
  - intros w' d _ Hw'. by eapply either_outcome; [apply inactiveRound_outcome|].
Qed.

Lemma peerRound_settled (q : PeerPtr) (w : World) :
  invalidatedInTick th t p c w → invalidatedInTick th t p c (peerRound th w q).
Proof.
  intros Hw. unfold peerRound, inactivePass, activePass.
  apply foldl_invariant; [apply foldl_invariant; [done|]|].
  - intros w' d _ Hw'. by eapply settled_outcome; [apply activeRound_outcome|].
  - intros w' d _ Hw'. by eapply settled_outcome; [apply inactiveRound_outcome|].
Qed.

Lemma peers_settle (l : list PeerPtr) (w : World) :
  dueForInvalidation th t p c w ∨ invalidatedInTick th t p c w →
  (dueForInvalidation th t p c w → p ∈ l) →
  invalidatedInTick th t p c (foldl (peerRound th) w l).
Proof.
  revert w. induction l as [|q l IH]; intros w Hw Hin.
  - destruct Hw as [Hw|Hw]; [|done]. by apply Hin, elem_of_nil in Hw.
  - simpl. destruct (decide (q = p)) as [->|Hqp].
    + apply IH; [right; by apply peerRound_settles|].
      intros (_ & _ & Hact). exfalso.
      by destruct (peerRound_settles w Hw) as (_ & _ & _ & Hout & _).
    + apply IH; [by apply peerRound_either|].
      intros Hdue. destruct Hw as [Hw|Hw].
      * apply Hin, elem_of_cons in Hw as [->|Hw]; done.
      * exfalso. destruct Hdue as (_ & _ & Hact).
        by destruct (peerRound_settled q w Hw) as (_ & _ & _ & Hout & _).
Qed.

End QuietConnection.

(** ** Pings on the wire *)

Lemma pingsOn_other (c : ConnPtr) (log : list Transmission) (tx : Transmission) :
  txConnection tx ≠ c → pingsOn c (log ++ [tx]) = pingsOn c log.
Proof.
  intros Hne. unfold pingsOn. rewrite filter_app, filter_cons_False by tauto.
  by rewrite filter_nil, app_nil_r.
Qed.

Lemma roundOutcome_wire (th : Thresholds) (q : PeerPtr) (d : ConnPtr) (w w' : World) :
  roundOutcome th q d w w' →
  wire w' = wire w ∨ ∃ tx, txConnection tx = d ∧ wire w' = wire w ++ [tx].
Proof.
  destruct 1; [by left|by left|right|right|by left].
  - eexists. split; [|apply pingAttempt_wire]. done.
  - eexists. split; [|apply (pingAttempt_wire q d w)]. done.
Qed.

Lemma roundOutcome_pingsOn (th : Thresholds) (q : PeerPtr) (c d : ConnPtr) (w w' : World) :
  d ≠ c → roundOutcome th q d w w' → pingsOn c (wire w') = pingsOn c (wire w).
Proof.
  intros Hdc Hout. destruct (roundOutcome_wire _ _ _ _ _ Hout) as [->|(tx & Htx & ->)]; [done|].
  apply pingsOn_other. by rewrite Htx.
Qed.

Lemma quiet_outcome (th th' : Thresholds) (q : PeerPtr) (c d : ConnPtr) (w w' : World) :
  roundOutcome th' q d w w' → quiet th c w → quiet th c w'.
Proof.
  intros Hout Hq. destruct Hout.
  - done.
  - by apply quiet_invalidate.
  - by apply quiet_pingAttempt.
  - by apply quiet_invalidate, quiet_pingAttempt.
  - by apply quiet_remove.
Qed.

(** The loop over the active connections sends no ping on a quiet connection. *)
Lemma activePass_no_ping (th : Thresholds) (q : PeerPtr) (c : ConnPtr) (w : World) :
  quiet th c w →
  pingsOn c (wire (activePass th q w)) = pingsOn c (wire w).
Proof.
  intros Hq. unfold activePass.
  apply (foldl_invariant (λ w', quiet th c w' ∧ pingsOn c (wire w') = pingsOn c (wire w)));
    [done|].
  intros w' d _ [Hq' Hlog]. destruct (decide (d = c)) as [->|Hdc].
  - rewrite quiet_round_invalidates by done. split; [by apply quiet_invalidate|done].
  - split; [by eapply quiet_outcome; [apply activeRound_outcome|]|].
    rewrite <- Hlog. by eapply roundOutcome_pingsOn; [|apply activeRound_outcome].
Qed.

(** A connection pinged within the last 10 seconds is not pinged by any
    round of the tick. *)
Lemma recentlyPinged_outcome (w0 : World) (q : PeerPtr) (c d : ConnPtr)
    (log : list Transmission) (w w' : World) :
  roundOutcome (thresholds w0) q d w w' →
  recentlyPinged (now w0) c log w → recentlyPinged (now w0) c log w'.
Proof.
  intros Hout Hw. pose proof Hw as (Hnow & (conn & Hc & Hrecent) & Hlog).
  assert (Hdue : ∀ cd, connHeap w !! d = Some cd →
            Before (LastPingOut cd) (thresholdPingOut1 (thresholds w0)) = true
            ∨ Before (LastPingOut cd) (thresholdPingOut2 (thresholds w0)) = true →
            d ≠ c).
  { intros cd Hd Hping ->. rewrite Hc in Hd. injection Hd as <-.
    destruct (thresholds_values w0) as (_ & _ & Hp1 & Hp2). rewrite Hp1, Hp2 in Hping.
    unfold Before, Now, seconds, Second in *.
    destruct Hping as [Hping|Hping]; apply Z.ltb_lt in Hping; lia. }
  destruct Hout as [| |cd Hd Hping|cd Hd Hping|cd Hd Hexp].
  - done.
  - split; [done|]. split; [|done]. destruct (decide (d = c)) as [->|Hdc].
    + exists (invalidated (Now w) conn). by rewrite invalidate_lookup_eq, Hc.
    + exists conn. by rewrite invalidate_lookup_ne.
  - pose proof (Hdue cd Hd Hping) as Hdc. split; [done|]. split.
    + exists conn. by rewrite pingAttempt_lookup_ne.
    + rewrite pingAttempt_wire, pingsOn_other; done.
  - pose proof (Hdue cd Hd Hping) as Hdc. split; [done|]. split.
    + exists conn. by rewrite invalidate_lookup_ne, pingAttempt_lookup_ne.
    + change (wire (invalidateActiveConnection q d (pingAttempt q d w)))
        with (wire (pingAttempt q d w)).
      rewrite pingAttempt_wire, pingsOn_other; done.
  - split; [done|]. split; [|done]. destruct (decide (d = c)) as [->|Hdc].
    + exists (withStatus ConnectionRemoved conn). by rewrite remove_lookup_eq, Hc.
    + exists conn. by rewrite remove_lookup_ne.
Qed.

Lemma recentlyPinged_tick (order : list PeerPtr) (w : World) (c : ConnPtr)
    (conn : Connection) :
  connHeap w !! c = Some conn →
  (now w - seconds 10 ≤ LastPingOut conn)%Z →
  pingsOn c (wire (tick order w)) = pingsOn c (wire w).
Proof.
  intros Hc Hrecent.
  enough (Hinv : recentlyPinged (now w) c (pingsOn c (wire w)) (tick order w))
    by (by destruct Hinv as (_ & _ & ?)).
  unfold tick. apply foldl_invariant; [split; [done|]; split; [eauto|done]|].
  intros w1 q _ Hw1. unfold peerRound, inactivePass, activePass.
  apply foldl_invariant; [apply foldl_invariant; [done|]|].
  - intros w' d _ Hw'. by eapply recentlyPinged_outcome; [apply activeRound_outcome|].
  - intros w' d _ Hw'. by eapply recentlyPinged_outcome; [apply inactiveRound_outcome|].
Qed.

(** A connection moved to the inactive list with an overdue ping is pinged by
    the loop over the inactive connections. *)

Lemma pingsOn_self (c : ConnPtr) (log : list Transmission) (tx : Transmission) :
  txConnection tx = c → Command (txPacket tx) = CommandPing →
  pingsOn c (log ++ [tx]) = pingsOn c log ++ [tx].
Proof.
  intros Hc Hcmd. unfold pingsOn. rewrite filter_app, filter_cons_True by done.
  by rewrite filter_nil.
Qed.

Lemma pingAttempt_pingsOn (q : PeerPtr) (c : ConnPtr) (w : World) :
  length (pingsOn c (wire (pingAttempt q c w))) = S (length (pingsOn c (wire w))).
Proof.
  rewrite pingAttempt_wire, pingsOn_self by done. rewrite length_app. simpl. lia.
Qed.

Lemma roundOutcome_pingsOn_le (th : Thresholds) (q : PeerPtr) (c d : ConnPtr) (w w' : World) :
  roundOutcome th q d w w' →
  length (pingsOn c (wire w)) ≤ length (pingsOn c (wire w')).
Proof.
  intros Hout. destruct (decide (d = c)) as [->|Hdc].
  - destruct Hout; try done.
    + rewrite pingAttempt_pingsOn. lia.
    + change (wire (invalidateActiveConnection q c (pingAttempt q c w)))
        with (wire (pingAttempt q c w)).
      rewrite pingAttempt_pingsOn. lia.
  - by rewrite (roundOutcome_pingsOn _ _ _ _ _ _ Hdc Hout).
Qed.

Lemma peerRound_pingsOn_le (th : Thresholds) (q : PeerPtr) (c : ConnPtr) (w : World) :
  length (pingsOn c (wire w)) ≤ length (pingsOn c (wire (peerRound th w q))).
Proof.
  unfold peerRound, inactivePass, activePass.
  apply (foldl_invariant (λ w', length (pingsOn c (wire w)) ≤ length (pingsOn c (wire w')))).
  - apply (foldl_invariant
             (λ w', length (pingsOn c (wire w)) ≤ length (pingsOn c (wire w')))); [done|].
    intros w' d _ Hw'.
    pose proof (roundOutcome_pingsOn_le _ _ c _ _ _ (activeRound_outcome th q d w')). lia.
  - intros w' d _ Hw'.
    pose proof (roundOutcome_pingsOn_le _ _ c _ _ _ (inactiveRound_outcome th q d w')). lia.
Qed.

Section OverduePing.
Variables (th : Thresholds) (t : Time) (p : PeerPtr) (c : ConnPtr) (n : nat).

Lemma pingedOrOverdue_outcome (th' : Thresholds) (q : PeerPtr) (d : ConnPtr) (w w' : World) :
  roundOutcome th' q d w w' → pingedOrOverdue th c n w → pingedOrOverdue th c n w'.
Proof.
  intros Hout [Hn Hw]. pose proof (roundOutcome_pingsOn_le _ _ c _ _ _ Hout) as Hle.
  split; [lia|]. destruct Hw as [Hw|(conn & Hc & Hdue)]; [left; lia|].
  destruct (decide (d = c)) as [->|Hdc].
  - destruct Hout as [| |cd Hd Hping|cd Hd Hping|cd Hd Hexp].
    + right. by exists conn.
    + right. exists (invalidated (Now w) conn). by rewrite invalidate_lookup_eq, Hc.
    + left. rewrite pingAttempt_pingsOn. lia.
    + left. change (wire (invalidateActiveConnection q c (pingAttempt q c w)))
        with (wire (pingAttempt q c w)).
      rewrite pingAttempt_pingsOn. lia.
    + right. exists (withStatus ConnectionRemoved conn). by rewrite remove_lookup_eq, Hc.
  - right. exists conn. split; [|done]. destruct Hout as [| |cd Hd Hping|cd Hd Hping|cd Hd Hexp].
    + done.
    + by rewrite invalidate_lookup_ne.
    + by rewrite pingAttempt_lookup_ne.
    + by rewrite invalidate_lookup_ne, pingAttempt_lookup_ne.
    + by rewrite remove_lookup_ne.
Qed.

(** The round of [c] itself in the loop over the inactive connections of [p]:
    its expiry is ahead, so it is not purged, and an overdue ping is sent. *)
Lemma settled_round_pings (w : World) :
  invalidatedInTick th t p c w →
  pingedOrOverdue th c n w →
  n < length (pingsOn c (wire (inactiveRound th p w c))).
Proof.
  intros (Hnow & _ & Hin & _ & conn & Hc & Hst & Hexp) [Hn Hw].
  destruct (activeOf_nonempty_peer p false c w Hin) as [info Hp].
  rewrite (inactiveRound_unfold _ _ _ _ _ _ Hp Hc). unfold purgeGuard.
  replace (Before (Expires conn) (Now w)) with false
    by (symmetry; apply Z.ltb_ge; lia).
  rewrite andb_false_r.
  destruct (Before (LastPingOut conn) (thresholdPingOut1 th)) eqn:Hdue.
  - rewrite (sendPing_cases _ _ _ _ Hc), Hst.
    change (activeOrRedundant ConnectionInactive) with false. cbn [andb].
    rewrite pingAttempt_pingsOn. lia.
  - destruct Hw as [Hw|(conn' & Hc' & Hdue')]; [done|].
    rewrite Hc in Hc'. injection Hc' as <-. congruence.
Qed.

Lemma inactivePass_pings (l : list ConnPtr) (w : World) :
  invalidatedInTick th t p c w →
  pingedOrOverdue th c n w →
  c ∈ l ∨ n < length (pingsOn c (wire w)) →
  n < length (pingsOn c (wire (foldl (inactiveRound th p) w l))).
Proof.
  revert w. induction l as [|d l IH]; intros w Hw Hpo Hc.
  - destruct Hc as [Hc|Hc]; [by apply elem_of_nil in Hc|done].
  - cbn [foldl]. pose proof (inactiveRound_outcome th p d w) as Hout.
    apply IH.
    + by eapply settled_outcome.
    + by eapply pingedOrOverdue_outcome.
    + destruct Hc as [Hc|Hc].
      * apply elem_of_cons in Hc as [<-|Hc]; [right|by left].
        by apply settled_round_pings.
      * right. pose proof (roundOutcome_pingsOn_le _ _ c _ _ _ Hout). lia.
Qed.

Lemma peerRound_pings (w : World) :
  dueForInvalidation th t p c w ∨ invalidatedInTick th t p c w →
  pingedOrOverdue th c n w →
  n < length (pingsOn c (wire (peerRound th w p))).
Proof.
  intros Hw Hpo. unfold peerRound, inactivePass.
  assert (Hs : invalidatedInTick th t p c (activePass th p w))
    by (apply activePass_settles; [done|]; by intros (_ & _ & Hact)).
  assert (Hpo' : pingedOrOverdue th c n (activePass th p w)).
  { unfold activePass. apply foldl_invariant; [done|].
    intros w' d _ Hw'. by eapply pingedOrOverdue_outcome; [apply activeRound_outcome|]. }
  apply inactivePass_pings; [done..|]. left. by destruct Hs as (_ & _ & Hin & _).
Qed.

Lemma peerRound_pingedOrOverdue (q : PeerPtr) (w : World) :
  pingedOrOverdue th c n w → pingedOrOverdue th c n (peerRound th w q).
Proof.
  intros Hw. unfold peerRound, inactivePass, activePass.
  apply foldl_invariant; [apply foldl_invariant; [done|]|].
  - intros w' d _ Hw'. by eapply pingedOrOverdue_outcome; [apply activeRound_outcome|].
  - intros w' d _ Hw'. by eapply pingedOrOverdue_outcome; [apply inactiveRound_outcome|].
Qed.

Lemma peers_ping (l : list PeerPtr) (w : World) :
  dueForInvalidation th t p c w ∨ invalidatedInTick th t p c w →
  pingedOrOverdue th c n w →
  p ∈ l ∨ n < length (pingsOn c (wire w)) →
  n < length (pingsOn c (wire (foldl (peerRound th) w l))).
Proof.
  revert w. induction l as [|q l IH]; intros w Hw Hpo Hp.
  - destruct Hp as [Hp|Hp]; [by apply elem_of_nil in Hp|done].
  - cbn [foldl]. apply IH.
    + by apply peerRound_either.
    + by apply peerRound_pingedOrOverdue.
    + destruct Hp as [Hp|Hp].
      * apply elem_of_cons in Hp as [<-|Hp]; [right|by left].
        by apply peerRound_pings.
      * right. pose proof (peerRound_pingsOn_le th q c w). lia.
Qed.

End OverduePing.

(** C5 (amended): an Active connection of a registered peer whose last
    inbound packet is 25 seconds old is moved to the inactive list by the
    tick, whatever the order in which the tick visits the peers: afterwards
    it is in the peer's inactive list, not in its active list, with status
    Inactive. The loop over the active connections sends no ping on it. The
    loop over the inactive connections of the same tick meets it again: when
    its last ping is at most 10 seconds old, the whole tick sends no ping on
    it; when its last ping is older, the tick does send one. *)
Theorem quiet_connection_invalidated
    (order : list PeerPtr) (w : World) (p : PeerPtr) (c : ConnPtr) (conn : Connection) :
  order ≡ₚ PeerlistGet w →
  p ∈ PeerlistGet w →
  c ∈ activeOf p w →
  connHeap w !! c = Some conn →
  Status conn = ConnectionActive →
  LastPacketIn conn = (Now w - seconds 25)%Z →
  (c ∈ inactiveOf p (tick order w)
   ∧ (c ∉ activeOf p (tick order w))
   ∧ statusOf c (tick order w) = Some ConnectionInactive)
  ∧ (∀ q w', quiet (thresholds w) c w' →
       pingsOn c (wire (activePass (thresholds w) q w')) = pingsOn c (wire w'))
  ∧ ((Now w - seconds 10 ≤ LastPingOut conn)%Z →
       pingsOn c (wire (tick order w)) = pingsOn c (wire w))
  ∧ ((LastPingOut conn < Now w - seconds 10)%Z →
       length (pingsOn c (wire w)) < length (pingsOn c (wire (tick order w)))).
Proof.
  intros Horder Hp Hact Hc Hst Hin. rewrite <- Horder in Hp.
  assert (Hq : quiet (thresholds w) c w).
  { exists conn. split; [done|]. split; [by rewrite Hst|].
    destruct (thresholds_values w) as (-> & _). rewrite Hin.
    unfold Before, Now, seconds, Second. apply Z.ltb_lt. lia. }
  split; [|split; [|split]].
  - assert (Hs : invalidatedInTick (thresholds w) (now w) p c (tick order w))
      by (apply peers_settle; [by left|done]).
    destruct Hs as (_ & _ & Hin' & Hout' & conn' & Hc' & Hst' & _).
    split; [done|]. split; [done|]. unfold statusOf. by rewrite Hc', <- Hst'.
  - intros q w'. apply activePass_no_ping.
  - by apply recentlyPinged_tick.
  - intros Hold. apply (peers_ping (thresholds w) (now w) p); [by left| |by left].
    split; [done|]. right. exists conn. split; [done|].
    destruct (thresholds_values w) as (_ & _ & -> & _). by apply Z.ltb_lt.
Qed.

(** C5, as the specification words it, fails: the connection invalidated by
    the loop over the active connections is met again by the loop over the
    inactive ones, in the same tick, and is pinged there when its last ping is
    older than 10 seconds. *)
Lemma invalidated_connection_pinged_in_same_tick :
  ¬ (∀ order w p c conn,
       order ≡ₚ PeerlistGet w →
       p ∈ PeerlistGet w →
       c ∈ activeOf p w →
       connHeap w !! c = Some conn →
       Status conn = ConnectionActive →
       LastPacketIn conn = (Now w - seconds 25)%Z →
       c ∈ inactiveOf p (tick order w)
       ∧ pingsOn c (wire (tick order w)) = pingsOn c (wire w)).
Proof.
  intros Hclaim.
  destruct (Hclaim (PeerlistGet (silentFor25 25)) (silentFor25 25) 0 0
              (sampleConnection ConnectionActive (seconds 75) (seconds 75)))
    as [_ Hpings].
  - done.
  - vm_compute. left.
  - vm_compute. left.
  - reflexivity.
  - reflexivity.
  - reflexivity.
  - vm_compute in Hpings. discriminate Hpings.
Qed.

(** ** The guard on purging *)

Lemma length_without (c : ConnPtr) (l : list ConnPtr) :
  NoDup l → c ∈ l → S (length (without c l)) = length l.
Proof.
  unfold without. induction 1 as [|x l Hx Hnd IH]; intros Hin; [by apply elem_of_nil in Hin|].
  apply elem_of_cons in Hin as [->|Hin].
  - rewrite filter_cons_False by tauto. simpl. f_equal.
    clear IH Hnd. induction l as [|y l IH]; [done|].
    apply not_elem_of_cons in Hx as [Hxy Hx].
    rewrite filter_cons_True by done. simpl. f_equal. by apply IH.
  - rewrite filter_cons_True by (intros ->; done). simpl. f_equal. by apply IH.
Qed.

Lemma sendPing_keeps_inactive (p : PeerPtr) (c x : ConnPtr) (w : World) :
  x ∈ inactiveOf p w → x ∈ inactiveOf p (sendPing p c w).
Proof.
  intros Hx. rewrite sendPing_eq.
  destruct (connHeap (pingAttempt p c w) !! c) as [conn|]; [|done].
  destruct (_ && _); [|done].
  rewrite inactiveOf_invalidate by (by apply (activeOf_nonempty_peer p false x)).
  rewrite elem_of_app. by left.
Qed.

(** C2, as the specification words it, fails: with no active connection and
    three expired inactive ones, the first is purged although only two others
    are there. *)
Lemma purged_with_two_others :
  ¬ (∀ order w p c conn,
       order ≡ₚ PeerlistGet w →
       c ∈ inactiveOf p w →
       connHeap w !! c = Some conn →
       Before (Expires conn) (Now w) = true →
       (c ∉ inactiveOf p (tick order w)) →
       1 ≤ length (activeOf p (tick order w))
       ∨ 2 < length (without c (inactiveOf p w))).
Proof.
  intros Hclaim.
  destruct (Hclaim (PeerlistGet threeExpired) threeExpired 0 0 expiredConnection)
    as [Hact|Hothers].
  - done.
  - vm_compute. left.
  - reflexivity.
  - reflexivity.
  - apply (bool_decide_unpack _). vm_compute. exact I.
  - vm_compute in Hact. lia.
  - vm_compute in Hothers. lia.
Qed.

(** The round of an expired inactive connection purges it exactly when the
    peer has an active connection or at least two other inactive ones. *)
Lemma expired_round (th : Thresholds) (p : PeerPtr) (c : ConnPtr) (w : World)
    (info : PeerInfo) (conn : Connection) :
  peerHeap w !! p = Some info →
  connHeap w !! c = Some conn →
  NoDup (connectionInactive info) →
  c ∈ connectionInactive info →
  Before (Expires conn) (Now w) = true →
  (c ∉ inactiveOf p (inactiveRound th p w c))
  ↔ (1 ≤ length (connectionActive info)
     ∨ 2 ≤ length (without c (connectionInactive info))).
Proof.
  intros Hp Hc Hnd Hin Hexp. pose proof (length_without c _ Hnd Hin) as Hlen.
  rewrite (inactiveRound_unfold _ _ _ _ _ _ Hp Hc). unfold purgeGuard. rewrite Hexp.
  assert (Hhere : c ∈ inactiveOf p w) by (unfold inactiveOf, GetConnections; by rewrite Hp).
  destruct (bool_decide (1 ≤ length (connectionActive info))) eqn:Hact; simpl.
  - apply bool_decide_eq_true in Hact. split; [auto|]. intros _.
    rewrite inactiveOf_remove. apply not_elem_of_without.
  - apply bool_decide_eq_false in Hact.
    destruct (bool_decide (2 < length (connectionInactive info))) eqn:Hinact; simpl.
    + apply bool_decide_eq_true in Hinact. split; [intros _; right; lia|]. intros _.
      rewrite inactiveOf_remove. apply not_elem_of_without.
    + apply bool_decide_eq_false in Hinact. split; [|lia].
      intros Hgone. exfalso. apply Hgone.
      destruct (Before (LastPingOut conn) _); [by apply sendPing_keeps_inactive|done].
Qed.

(** ** The last known path is never dropped *)

Lemma NoDup_without (d : ConnPtr) (l : list ConnPtr) : NoDup l → NoDup (without d l).
Proof. apply NoDup_filter. Qed.

Lemma without_absent (d : ConnPtr) (l : list ConnPtr) : d ∉ l → without d l = l.
Proof.
  unfold without. induction l as [|x l IH]; intros Hd; [done|].
  apply not_elem_of_cons in Hd as [Hdx Hd].
  rewrite filter_cons_True by done. f_equal. by apply IH.
Qed.

Lemma length_without_le (d : ConnPtr) (l : list ConnPtr) :
  NoDup l → length l ≤ S (length (without d l)).
Proof.
  intros Hnd. destruct (decide (d ∈ l)) as [Hin|Hout].
  - by rewrite (length_without d l Hnd Hin).
  - rewrite without_absent by done. lia.
Qed.

Lemma notLive_invalidate (q : PeerPtr) (d x : ConnPtr) (w : World) :
  notLive x w → notLive x (invalidateActiveConnection q d w).
Proof.
  intros Hx conn. destruct (decide (d = x)) as [->|Hdx].
  - rewrite invalidate_lookup_eq. destruct (connHeap w !! x); [|done]. by intros [= <-].
  - rewrite invalidate_lookup_ne by done. apply Hx.
Qed.

Lemma notLive_invalidated (q : PeerPtr) (d : ConnPtr) (w : World) :
  notLive d (invalidateActiveConnection q d w).
Proof.
  intros conn. rewrite invalidate_lookup_eq. destruct (connHeap w !! d); [|done].
  by intros [= <-].
Qed.

Lemma notLive_pingAttempt (q : PeerPtr) (d x : ConnPtr) (w : World) :
  notLive x w → notLive x (pingAttempt q d w).
Proof.
  intros Hx conn. destruct (decide (d = x)) as [->|Hdx].
  - rewrite pingAttempt_lookup. destruct (connHeap w !! x) as [cx|] eqn:Hcx; [|done].
    intros [= <-]. exact (Hx cx Hcx).
  - rewrite pingAttempt_lookup_ne by done. apply Hx.
Qed.

Lemma notLive_remove (q : PeerPtr) (d x : ConnPtr) (w : World) :
  notLive x w → notLive x (removeInactiveConnection q d w).
Proof.
  intros Hx conn. destruct (decide (d = x)) as [->|Hdx].
  - rewrite remove_lookup_eq. destruct (connHeap w !! x); [|done]. by intros [= <-].
  - rewrite remove_lookup_ne by done. apply Hx.
Qed.

Lemma notLive_outcome (th : Thresholds) (q : PeerPtr) (d x : ConnPtr) (w w' : World) :
  roundOutcome th q d w w' → notLive x w → notLive x w'.
Proof.
  intros Hout Hx. destruct Hout.
  - done.
  - by apply notLive_invalidate.
  - by apply notLive_pingAttempt.
  - by apply notLive_invalidate, notLive_pingAttempt.
  - by apply notLive_remove.
Qed.

(** Rounds for another peer leave the lists of [p] alone. *)
Lemma roundOutcome_other_peer (th : Thresholds) (p q : PeerPtr) (d : ConnPtr) (b : bool)
    (w w' : World) :
  q ≠ p → roundOutcome th q d w w' → GetConnections p b w' = GetConnections p b w.
Proof.
  intros Hqp Hout. destruct Hout.
  - done.
  - by apply GetConnections_invalidate_ne.
  - done.
  - by rewrite GetConnections_invalidate_ne.
  - by apply GetConnections_remove_ne.
Qed.

Lemma peerRound_other_peer (th : Thresholds) (p q : PeerPtr) (w : World) :
  q ≠ p →
  (∀ b, GetConnections p b (peerRound th w q) = GetConnections p b w)
  ∧ (∀ x, notLive x w → notLive x (peerRound th w q)).
Proof.
  intros Hqp. unfold peerRound, inactivePass, activePass.
  apply (foldl_invariant (λ w', (∀ b, GetConnections p b w' = GetConnections p b w)
                                ∧ (∀ x, notLive x w → notLive x w'))).
  - apply (foldl_invariant (λ w', (∀ b, GetConnections p b w' = GetConnections p b w)
                                  ∧ (∀ x, notLive x w → notLive x w'))); [done|].
    intros w' d _ [Hl Hs]. pose proof (activeRound_outcome th q d w') as Hout. split.
    + intros b. rewrite <- Hl. by eapply roundOutcome_other_peer.
    + intros x Hx. eapply notLive_outcome; [done|]. by apply Hs.
  - intros w' d _ [Hl Hs]. pose proof (inactiveRound_outcome th q d w') as Hout. split.
    + intros b. rewrite <- Hl. by eapply roundOutcome_other_peer.
    + intros x Hx. eapply notLive_outcome; [done|]. by apply Hs.
Qed.

Lemma peers_other_peer (th : Thresholds) (p : PeerPtr) (l : list PeerPtr) (w : World) :
  p ∉ l →
  (∀ b, GetConnections p b (foldl (peerRound th) w l) = GetConnections p b w)
  ∧ (∀ x, notLive x w → notLive x (foldl (peerRound th) w l)).
Proof.
  intros Hp.
  apply (foldl_invariant (λ w', (∀ b, GetConnections p b w' = GetConnections p b w)
                                ∧ (∀ x, notLive x w → notLive x w'))); [done|].
  intros w' q Hq [Hl Hs].
  destruct (peerRound_other_peer th p q w') as [Hl' Hs']; [by intros ->|].
  split; [intros b; by rewrite Hl'|]. intros x Hx. by apply Hs', Hs.
Qed.

Lemma listsOk_same_lists (p : PeerPtr) (w w' : World) :
  (∀ b, GetConnections p b w' = GetConnections p b w) →
  (∀ x, notLive x w → notLive x w') →
  listsOk p w → listsOk p w'.
Proof.
  intros Hl Hs [Hnd Hst]. unfold listsOk, activeOf, inactiveOf. rewrite !Hl.
  split; [done|]. intros d Hd. by apply Hs, Hst.
Qed.

(** The rounds for the peer itself. *)

Lemma activeRound_cases (th : Thresholds) (q : PeerPtr) (d : ConnPtr) (w : World) :
  activeRound th q w d = w
  ∨ activeRound th q w d = invalidateActiveConnection q d w
  ∨ activeRound th q w d = pingAttempt q d w
  ∨ activeRound th q w d = invalidateActiveConnection q d (pingAttempt q d w).
Proof.
  unfold activeRound. destruct (connHeap w !! d) as [conn|] eqn:Hd; [|by left].
  destruct (Before (LastPacketIn conn) _); [by right; left|].
  destruct (_ && _); [|by left].
  rewrite (sendPing_cases _ _ _ _ Hd). destruct (_ && _); auto.
Qed.

Lemma inactiveRound_cases (th : Thresholds) (p : PeerPtr) (d : ConnPtr) (w : World) :
  notLive d w →
  inactiveRound th p w d = w
  ∨ inactiveRound th p w d = pingAttempt p d w
  ∨ (inactiveRound th p w d = removeInactiveConnection p d w
     ∧ (1 ≤ length (activeOf p w) ∨ 2 < length (inactiveOf p w))).
Proof.
  intros Hd. unfold inactiveRound, activeOf, inactiveOf, GetConnections.
  destruct (peerHeap w !! p) as [info|]; [|by left].
  destruct (connHeap w !! d) as [conn|] eqn:Hc; [|by left].
  destruct (purgeGuard info conn w) eqn:Hguard.
  - right; right. split; [done|]. unfold purgeGuard in Hguard.
    apply andb_true_iff in Hguard as [Hguard _]. apply orb_true_iff in Hguard.
    by rewrite !bool_decide_eq_true in Hguard.
  - destruct (Before (LastPingOut conn) _); [|by left].
    rewrite (sendPing_cases _ _ _ _ Hc), (Hd conn Hc). by right; left.
Qed.

Lemma listsOk_invalidate (p : PeerPtr) (d : ConnPtr) (w : World) :
  listsOk p w → d ∈ activeOf p w → listsOk p (invalidateActiveConnection p d w).
Proof.
  intros [Hnd Hst] Hd.
  rewrite NoDup_app in Hnd. destruct Hnd as (Hact & Hdisj & Hinact).
  unfold listsOk. rewrite activeOf_invalidate.
  rewrite inactiveOf_invalidate by (by apply (activeOf_nonempty_peer p true d)).
  split.
  - rewrite NoDup_app. split; [by apply NoDup_without|]. split.
    + intros x Hx. apply elem_of_without in Hx as [Hxd Hx].
      rewrite elem_of_app, list_elem_of_singleton. intros [Hin|Heq]; [|done].
      by apply (Hdisj x).
    + rewrite NoDup_app. split; [done|]. split; [|apply NoDup_singleton].
      intros x Hx. rewrite list_elem_of_singleton. intros ->. by apply (Hdisj d).
  - intros x. rewrite elem_of_app, list_elem_of_singleton. intros [Hx| ->].
    + by apply notLive_invalidate, Hst.
    + apply notLive_invalidated.
Qed.

Lemma listsOk_pingAttempt (p q : PeerPtr) (d : ConnPtr) (w : World) :
  listsOk p w → listsOk p (pingAttempt q d w).
Proof.
  intros [Hnd Hst]. split; [done|]. intros x Hx. by apply notLive_pingAttempt, Hst.
Qed.

Lemma listsOk_remove (p : PeerPtr) (d : ConnPtr) (w : World) :
  listsOk p w → listsOk p (removeInactiveConnection p d w).
Proof.
  intros [Hnd Hst].
  rewrite NoDup_app in Hnd. destruct Hnd as (Hact & Hdisj & Hinact).
  unfold listsOk. rewrite activeOf_remove, inactiveOf_remove. split.
  - rewrite NoDup_app. split; [done|]. split; [|by apply NoDup_without].
    intros x Hx. rewrite elem_of_without. intros [_ Hin]. by apply (Hdisj x).
  - intros x Hx. apply elem_of_without in Hx as [_ Hx]. by apply notLive_remove, Hst.
Qed.

Section LastPath.
Variables (th : Thresholds) (p : PeerPtr) (c : ConnPtr).

Lemma activePass_listsOk (l : list ConnPtr) (w : World) :
  NoDup l →
  (∀ d, d ∈ l → d ∈ activeOf p w) →
  listsOk p w →
  c ∈ inactiveOf p w →
  listsOk p (foldl (activeRound th p) w l) ∧ c ∈ inactiveOf p (foldl (activeRound th p) w l).
Proof.
  revert w. induction l as [|d l IH]; intros w Hnd Hl Hok Hc; [done|].
  apply NoDup_cons in Hnd as [Hdl Hnd]. simpl.
  assert (Hd : d ∈ activeOf p w) by (apply Hl; left).
  assert (Hpeer : is_Some (peerHeap w !! p)) by (by apply (activeOf_nonempty_peer p true d)).
  assert (Hrest : ∀ d', d' ∈ l → d' ∈ without d (activeOf p w)).
  { intros d' Hd'. apply elem_of_without. split; [by intros ->|]. apply Hl. by right. }
  destruct (activeRound_cases th p d w) as [->|[->|[->| ->]]].
  - apply IH; [done| |done..]. intros d' Hd'. apply Hl. by right.
  - apply IH; [done| | |].
    + by rewrite activeOf_invalidate.
    + by apply listsOk_invalidate.
    + rewrite inactiveOf_invalidate by done. rewrite elem_of_app. by left.
  - apply IH; [done| | |done].
    + intros d' Hd'. apply Hl. by right.
    + by apply listsOk_pingAttempt.
  - apply IH; [done| | |].
    + by rewrite activeOf_invalidate.
    + by apply listsOk_invalidate; [apply listsOk_pingAttempt|].
    + rewrite inactiveOf_invalidate by done. rewrite elem_of_app. by left.
Qed.

Lemma inactivePass_path (l : list ConnPtr) (w : World) :
  NoDup l →
  (∀ d, d ∈ l → d ∈ inactiveOf p w) →
  listsOk p w →
  c ∈ inactiveOf p w ∨ retainsPath p w →
  c ∈ inactiveOf p (foldl (inactiveRound th p) w l)
  ∨ retainsPath p (foldl (inactiveRound th p) w l).
Proof.
  revert w. induction l as [|d l IH]; intros w Hnd Hl Hok Hc; [done|].
  apply NoDup_cons in Hnd as [Hdl Hnd]. simpl.
  assert (Hd : d ∈ inactiveOf p w) by (apply Hl; left).
  assert (Hlive : notLive d w) by (by apply Hok).
  destruct (inactiveRound_cases th p d w Hlive) as [->|[->|[-> Hguard]]].
  - apply IH; [done| |done..]. intros d' Hd'. apply Hl. by right.
  - apply IH; [done| | |done].
    + intros d' Hd'. apply Hl. by right.
    + by apply listsOk_pingAttempt.
  - apply IH; [done| | |].
    + intros d' Hd'. rewrite inactiveOf_remove. apply elem_of_without.
      split; [by intros ->|]. apply Hl. by right.
    + by apply listsOk_remove.
    + right. unfold retainsPath. rewrite activeOf_remove, inactiveOf_remove.
      destruct Hguard as [Hact|Hinact]; [by left|right].
      destruct Hok as [Hok _]. apply NoDup_app in Hok as (_ & _ & Hok).
      pose proof (length_without_le d _ Hok). lia.
Qed.

Lemma peerRound_path (w : World) :
  listsOk p w →
  c ∈ inactiveOf p w →
  c ∈ inactiveOf p (peerRound th w p) ∨ retainsPath p (peerRound th w p).
Proof.
  intros Hok Hc. unfold peerRound.
  pose proof Hok as [Hnd _]. apply NoDup_app in Hnd as (Hact & _ & _).
  destruct (activePass_listsOk (activeOf p w) w Hact) as [Hok1 Hc1]; [done..|].
  fold (activePass th p w) in Hok1, Hc1.
  pose proof Hok1 as [Hnd1 _]. apply NoDup_app in Hnd1 as (_ & _ & Hinact1).
  unfold inactivePass. apply inactivePass_path; [done|done|done|by left].
Qed.

Lemma peers_path (l : list PeerPtr) (w : World) :
  NoDup l →
  listsOk p w →
  c ∈ inactiveOf p w →
  c ∈ inactiveOf p (foldl (peerRound th) w l) ∨ retainsPath p (foldl (peerRound th) w l).
Proof.
  intros Hnd Hok Hc. destruct (decide (p ∈ l)) as [Hin|Hout].
  - apply list_elem_of_split in Hin as (l1 & l2 & ->).
    apply NoDup_app in Hnd as (_ & Hdisj & Hnd2). apply NoDup_cons in Hnd2 as [Hp2 _].
    assert (Hp1 : p ∉ l1) by (intros Hp1; apply (Hdisj p Hp1); left).
    rewrite foldl_app. simpl.
    destruct (peers_other_peer th p l1 w Hp1) as [Hl1 Hs1].
    set (w1 := foldl (peerRound th) w l1) in *.
    assert (Hok1 : listsOk p w1) by (by apply (listsOk_same_lists p w)).
    assert (Hc1 : c ∈ inactiveOf p w1) by (unfold inactiveOf; by rewrite Hl1).
    pose proof (peerRound_path w1 Hok1 Hc1) as Hpath.
    destruct (peers_other_peer th p l2 (peerRound th w1 p) Hp2) as [Hl2 _].
    unfold retainsPath, activeOf, inactiveOf in *. by rewrite !Hl2.
  - destruct (peers_other_peer th p l w Hout) as [Hl _].
    left. unfold inactiveOf. by rewrite Hl.
Qed.

End LastPath.

(** C2 (amended): the round of an expired inactive connection purges it
    exactly when the peer has at least one active connection or at least two
    other inactive connections (more than two inactive ones, the candidate
    counted); otherwise the connection stays in the inactive list. Hence,
    over a whole tick, in whatever order it visits the peers, a peer whose
    lists are in order loses an inactive connection only if it retains an
    active connection or two other inactive ones afterwards. *)
Theorem purge_only_with_another_path
    (order : list PeerPtr) (w : World) (p : PeerPtr) (c : ConnPtr) :
  (∀ th info conn,
     peerHeap w !! p = Some info →
     connHeap w !! c = Some conn →
     NoDup (connectionInactive info) →
     c ∈ connectionInactive info →
     Before (Expires conn) (Now w) = true →
     (c ∉ inactiveOf p (inactiveRound th p w c))
     ↔ (1 ≤ length (connectionActive info)
        ∨ 2 ≤ length (without c (connectionInactive info))))
  ∧ (order ≡ₚ PeerlistGet w →
     NoDup (PeerlistGet w) →
     listsOk p w →
     c ∈ inactiveOf p w →
     (c ∉ inactiveOf p (tick order w)) →
     retainsPath p (tick order w)).
Proof.
  split.
  - intros th info conn. apply expired_round.
  - intros Horder Hnd Hok Hc Hgone. rewrite <- Horder in Hnd.
    destruct (peers_path (thresholds w) p c order w Hnd Hok Hc) as [Hin|Hpath];
      [by apply Hgone in Hin|done].
Qed.

(** ** The interface monitor *)

Section ListenerRemoval.
Variables (heap : list Network) (ifaceName : string).

Lemma removeRound_skip (s : Slice) (log : list NetPtr) (n : nat) (x : NetPtr) :
  backing s !! n = Some x →
  ownedBy heap ifaceName x = false →
  removeRound heap ifaceName (Some (s, log)) n = Some (s, log).
Proof. intros Hn Hx. unfold removeRound. simpl. by rewrite Hn, Hx. Qed.

Lemma removeRounds_skip (ns : list NetPtr) (s : Slice) (log : list NetPtr) :
  (∀ n, n ∈ ns → ∃ x, backing s !! n = Some x ∧ ownedBy heap ifaceName x = false) →
  foldl (removeRound heap ifaceName) (Some (s, log)) ns = Some (s, log).
Proof.
  induction ns as [|n ns IH]; intros Hns; [done|]. cbn [foldl].
  destruct (Hns n) as (x & Hn & Hx); [left|].
  rewrite (removeRound_skip _ _ _ x Hn Hx). apply IH. intros m Hm. apply Hns. by right.
Qed.

Lemma removeRound_hit (s : Slice) (log : list NetPtr) (n : nat) (a : NetPtr) :
  backing s !! n = Some a →
  ownedBy heap ifaceName a = true →
  removeRound heap ifaceName (Some (s, log)) n
  = (λ s', (s', Terminate a log)) <$> removeFromList s n.
Proof.
  intros Hn Ha. unfold removeRound. simpl. rewrite Hn, Ha.
  by destruct (removeFromList s n).
Qed.

(** Removing index [n] of a full slice. *)
Lemma removeFromList_middle (l1 l2 : list NetPtr) (a : NetPtr) :
  ∃ s', removeFromList (mkSlice (l1 ++ a :: l2)) (length l1) = Some s'
        ∧ elements s' = l1 ++ l2
        ∧ length (backing s') = length (l1 ++ a :: l2)
        ∧ ∀ n x, length l1 ≤ n → backing s' !! n = Some x → x ∈ l2 ∨ (l2 = [] ∧ x = a).
Proof.
  unfold removeFromList, sliceTo, cap, mkSlice. cbn [backing len].
  rewrite decide_True by (rewrite length_app; lia). cbn [mbind option_bind].
  destruct l2 as [|b l2].
  - rewrite decide_False by (rewrite length_app; cbn [length]; lia).
    eexists. split; [done|]. unfold elements. cbn [backing len].
    split; [by rewrite take_app_length, app_nil_r|]. split; [done|].
    intros n x Hn Hx. right. split; [done|].
    apply lookup_app_Some in Hx as [Hx|[_ Hx]].
    + apply lookup_lt_Some in Hx. lia.
    + destruct (n - length l1); [by injection Hx|done].
  - rewrite decide_True by (rewrite length_app; cbn [length]; lia).
    unfold sliceFrom, elements. cbn [backing len].
    rewrite decide_True by (rewrite length_app; cbn [length]; lia). cbn [mbind option_bind].
    rewrite firstn_all.
    replace (drop (length l1 + 1) (l1 ++ a :: b :: l2)) with (b :: l2).
    2:{ rewrite drop_app_ge by lia. by replace (length l1 + 1 - length l1) with 1 by lia. }
    unfold append, cap. cbn [backing len].
    rewrite decide_True by (rewrite length_app; cbn [length]; lia).
    eexists. split; [done|]. unfold elements. cbn [backing len].
    rewrite take_app_length.
    split.
    { rewrite app_assoc. rewrite take_app_length'; [done|].
      rewrite length_app. cbn [length]. lia. }
    split.
    { rewrite !length_app, length_drop, !length_app. cbn [length]. lia. }
    intros n x Hn Hx. left.
    apply lookup_app_Some in Hx as [Hx|[_ Hx]]; [apply lookup_lt_Some in Hx; lia|].
    apply lookup_app_Some in Hx as [Hx|[_ Hx]]; [by eapply list_elem_of_lookup_2|].
    apply list_elem_of_lookup_2 in Hx.
    rewrite drop_app_ge in Hx by lia.
    replace (length l1 + length (b :: l2) - length l1) with (S (length l2)) in Hx
      by (cbn [length]; lia).
    cbn [drop] in Hx. by apply (subseteq_drop (length l2) (b :: l2)).
Qed.

Lemma removeLoop_single (l1 l2 : list NetPtr) (a : NetPtr) (log : list NetPtr) :
  Forall (λ x, ownedBy heap ifaceName x = false) (l1 ++ l2) →
  ownedBy heap ifaceName a = true →
  ∃ s', removeLoop heap ifaceName (mkSlice (l1 ++ a :: l2)) log = Some (s', log ++ [a])
        ∧ elements s' = l1 ++ l2.
Proof.
  intros Hothers Ha. apply Forall_app in Hothers as [H1 H2].
  rewrite Forall_forall in H1, H2.
  unfold removeLoop.
  replace (len (mkSlice (l1 ++ a :: l2))) with (length l1 + S (length l2))
    by (unfold mkSlice; cbn [len]; by rewrite length_app).
  rewrite seq_app, foldl_app. cbn [seq foldl Nat.add].
  rewrite removeRounds_skip.
  2:{ intros n Hn. apply elem_of_seq in Hn as [_ Hn]. 
      destruct (lookup_lt_is_Some_2 l1 n) as [x Hx]; [lia|].
      exists x. split; [by apply lookup_app_l_Some|]. apply H1. by eapply list_elem_of_lookup_2. }
  rewrite (removeRound_hit _ _ _ a); [|by apply list_lookup_middle|done].
  destruct (removeFromList_middle l1 l2 a) as (s' & -> & Hel & Hlen & Hrest).
  cbn [fmap option_fmap option_map]. exists s'. split; [|done].
  apply removeRounds_skip. intros n Hn. apply elem_of_seq in Hn as [Hn1 Hn2].
  destruct (lookup_lt_is_Some_2 (backing s') n) as [x Hx].
  { rewrite Hlen, length_app. cbn [length]. lia. }
  exists x. split; [done|]. destruct (Hrest n x) as [Hin|[-> _]]; [lia|done| |].
  - by apply H2.
  - cbn [length] in Hn2. lia.
Qed.
End ListenerRemoval.

(** The removal never panics: every index it slices at is within bounds. *)
Lemma removeFromList_total (s : Slice) (n : nat) :
  len s ≤ cap s → n < cap s →
  ∃ s', removeFromList s n = Some s' ∧ cap s' = cap s ∧ len s' ≤ cap s'.
Proof.
  intros Hlen Hn. unfold removeFromList, sliceTo.
  rewrite decide_True by lia. cbn [mbind option_bind].
  destruct (decide (Z.of_nat n < Z.of_nat (len s) - 1)%Z) as [Hlt|Hge].
  - unfold sliceFrom. rewrite decide_True by lia. cbn [mbind option_bind].
    assert (Htail : length (drop (n + 1) (elements s)) = len s - (n + 1)).
    { unfold elements. rewrite length_drop, length_take. unfold cap in Hlen. lia. }
    unfold append, cap in *. cbn [len backing].
    destruct (decide _) as [_|Hno]; [|lia].
    eexists. split; [done|]. cbn [backing len].
    rewrite !length_app, length_take, Htail, length_drop. lia.
  - eexists. split; [done|]. unfold cap. cbn [backing len]. unfold cap in Hn. lia.
Qed.

Lemma removeRounds_total (heap : list Network) (ifaceName : string) (ns : list nat)
    (s : Slice) (log : list NetPtr) :
  len s ≤ cap s →
  Forall (λ n, n < cap s) ns →
  is_Some (foldl (removeRound heap ifaceName) (Some (s, log)) ns).
Proof.
  revert s log. induction ns as [|n ns IH]; intros s log Hlen Hns; [by eexists|].
  apply Forall_cons in Hns as [Hn Hns]. cbn [foldl].
  unfold removeRound at 2. cbn [mbind option_bind].
  destruct (lookup_lt_is_Some_2 (backing s) n Hn) as [x ->].
  destruct (ownedBy heap ifaceName x).
  - destruct (removeFromList_total s n Hlen Hn) as (s' & -> & Hcap & Hlen').
    cbn [mbind option_bind]. apply IH; [done|]. by rewrite Hcap.
  - by apply IH.
Qed.

Lemma networkChangeInterfaceRemove_total (ifaceName : string) (st : NetState) :
  len (networks6 st) ≤ cap (networks6 st) →
  len (networks4 st) ≤ cap (networks4 st) →
  is_Some (networkChangeInterfaceRemove ifaceName st).
Proof.
  intros H6 H4. unfold networkChangeInterfaceRemove, removeLoop.
  destruct (removeRounds_total (listeners st) ifaceName (seq 0 (len (networks6 st)))
              (networks6 st) (terminated st) H6) as [[n6 log6] ->].
  { apply Forall_forall. intros n Hn. apply elem_of_seq in Hn. lia. }
  cbn [mbind option_bind].
  destruct (removeRounds_total (listeners st) ifaceName (seq 0 (len (networks4 st)))
              (networks4 st) log6 H4) as [[n4 log4] ->].
  { apply Forall_forall. intros n Hn. apply elem_of_seq in Hn. lia. }
  by eexists.
Qed.

(** Without a listener of the interface, a loop leaves list and log alone. *)
Lemma removeLoop_none (heap : list Network) (ifaceName : string) (l : list NetPtr)
    (log : list NetPtr) :
  Forall (λ x, ownedBy heap ifaceName x = false) l →
  removeLoop heap ifaceName (mkSlice l) log = Some (mkSlice l, log).
Proof.
  intros Hl. rewrite Forall_forall in Hl. unfold removeLoop.
  apply removeRounds_skip. intros n Hn. apply elem_of_seq in Hn as [_ Hn].
  destruct (lookup_lt_is_Some_2 l n) as [x Hx]; [done|].
  exists x. split; [done|]. apply Hl. by eapply list_elem_of_lookup_2.
Qed.

(** With one listener of the interface, in the IPv6 list, the removal does
    what is expected of it: that listener is terminated once and leaves the
    list, the others stay. *)
Lemma interface_removal_single_listener (ifaceName : string) (heap : list Network)
    (l1 l2 l4 : list NetPtr) (a : NetPtr) (log : list NetPtr) :
  Forall (λ x, ownedBy heap ifaceName x = false) (l1 ++ l2) →
  Forall (λ x, ownedBy heap ifaceName x = false) l4 →
  ownedBy heap ifaceName a = true →
  ∃ st',
    networkChangeInterfaceRemove ifaceName
      {| listeners := heap; networks4 := mkSlice l4;
         networks6 := mkSlice (l1 ++ a :: l2); terminated := log |} = Some st'
    ∧ elements (networks6 st') = l1 ++ l2
    ∧ elements (networks4 st') = l4
    ∧ terminated st' = log ++ [a].
Proof.
  intros H6 H4 Ha. unfold networkChangeInterfaceRemove. cbn [listeners networks6 networks4 terminated].
  destruct (removeLoop_single heap ifaceName l1 l2 a log H6 Ha) as (s6 & -> & Hel).
  cbn [mbind option_bind]. rewrite (removeLoop_none _ _ _ _ H4). cbn [mbind option_bind].
  eexists. split; [done|]. cbn [networks6 networks4 terminated].
  split; [done|]. split; [|done]. unfold elements, mkSlice. cbn [backing len].
  apply firstn_all.
Qed.

(** A cycle whose snapshot equals the previous one removes nothing. *)
Lemma monitorRemoved_same (ifaces : gmap string (list string)) (st : NetState) :
  monitorRemoved ifaces ifaces st = (Some st, ifaces).
Proof.
  unfold monitorRemoved. f_equal.
  apply (foldl_invariant (λ acc, acc = Some st)); [done|].
  intros acc [name addrs] Hin ->. apply elem_of_map_to_list in Hin.
  cbn [mbind option_bind]. by rewrite Hin.
Qed.

(** C8: what the removal does when two listeners of the IPv6 list are owned
    by the removed interface. Both are terminated, yet the second one stays
    registered. With three, the second is never terminated and stays
    registered, and the third is terminated twice and stays registered. The
    monitor cycle that finds the interface gone does the same. *)
Theorem interface_removal_with_several_listeners :
  (∃ st',
     networkChangeInterfaceRemove "eth0"
       (allIPv6 [listenerOn "eth0" "fe80::1"; listenerOn "eth0" "2001:db8::1"]) = Some st'
     ∧ elements (networks6 st') = [1]
     ∧ terminated st' = [0; 1])
  ∧ (∃ st',
     networkChangeInterfaceRemove "eth0"
       (allIPv6 [listenerOn "eth0" "fe80::1"; listenerOn "eth0" "2001:db8::1";
                 listenerOn "eth0" "2001:db8::2"]) = Some st'
     ∧ elements (networks6 st') = [1; 2]
     ∧ terminated st' = [0; 2; 2])
  ∧ (∃ st',
     monitorRemoved {[ "eth0" := ["fe80::1"; "2001:db8::1"] ]} ∅
       (allIPv6 [listenerOn "eth0" "fe80::1"; listenerOn "eth0" "2001:db8::1"])
     = (Some st', ∅)
     ∧ elements (networks6 st') = [1]
     ∧ terminated st' = [0; 1]).
Proof.
  split; [|split]; eexists; (split; [vm_compute; reflexivity|]); split; reflexivity.
Qed.

(* ===================================================================== *)
(** * Further properties of the code                                      *)
(* ===================================================================== *)

(** ** The registry: removal, round trips, coherence *)

Section RegistryRoundTrips.
Context `{Btcec}.

(** X1: the registry key of a public key always has 33 bytes: byte [i] is
    byte [i] of the serialized key, and zero where the serialized key is
    shorter; a serialized key of 33 bytes is the key itself, and of a longer
    one only the first 33 bytes count. *)
Theorem publicKey2Compressed_33_bytes (pk : btcecPublicKey) :
  length (publicKey2Compressed pk) = 33
  ∧ (∀ i, i < 33 →
       publicKey2Compressed pk !! i = Some (default 0%Z (SerializeCompressed pk !! i)))
  ∧ (length (SerializeCompressed pk) = 33 → publicKey2Compressed pk = SerializeCompressed pk)
  ∧ (33 ≤ length (SerializeCompressed pk) →
       publicKey2Compressed pk = take 33 (SerializeCompressed pk)).
Proof.
  unfold publicKey2Compressed, PubKeyBytesLenCompressed.
  split; [|split; [|split]].
  - rewrite length_take, length_app, length_replicate. lia.
  - intros i Hi. rewrite lookup_take_lt by done.
    destruct (SerializeCompressed pk !! i) as [b|] eqn:Hb.
    + by rewrite (lookup_app_l_Some _ _ _ _ Hb).
    + apply lookup_ge_None in Hb. rewrite lookup_app_r by done.
      cbn [default]. apply lookup_replicate_2. lia.
  - intros Hlen. rewrite take_app_le by lia. apply take_ge. lia.
  - intros Hlen. by rewrite take_app_le by lia.
Qed.

Lemma PeerlistAdd_cases (pk : btcecPublicKey) (conns : list ConnPtr) (w : World) :
  (conns = [] ∧ PeerlistAdd pk conns w = (None, false, w))
  ∨ (∃ p, conns ≠ [] ∧ peerList w !! publicKey2Compressed pk = Some p
          ∧ PeerlistAdd pk conns w = (Some p, false, w))
  ∨ (∃ first rest, conns = first :: rest ∧ peerList w !! publicKey2Compressed pk = None
       ∧ PeerlistAdd pk conns w =
         (Some (length (peerHeap w)), true,
          setPeerList (<[publicKey2Compressed pk := length (peerHeap w)]> (peerList w))
            (setPeerHeap (peerHeap w ++ [{| PublicKey := pk;
                                            connectionActive := first :: rest;
                                            connectionInactive := [];
                                            connectionLatest := Some first;
                                            StatsPacketSent := 0;
                                            StatsPacketReceived := 0 |}]) w))).
Proof.
  destruct conns as [|first rest]; [by left|]. right.
  destruct (peerList w !! publicKey2Compressed pk) as [p|] eqn:Hk.
  - left. exists p. split; [done|]. split; [done|]. by apply PeerlistAdd_known.
  - right. exists first, rest. split; [done|]. split; [done|]. by apply PeerlistAdd_new.
Qed.

(** X2: after [PeerlistAdd] with at least one connection, [PeerlistLookup]
    finds the peer the call returned, for the key supplied and for every key
    that compresses to the same bytes; and a call that adds returns a record
    that was not on the heap before. *)
Theorem PeerlistAdd_then_Lookup (pk : btcecPublicKey) (conns : list ConnPtr) (w : World) :
  conns ≠ [] →
  ∃ p, (PeerlistAdd pk conns w).1.1 = Some p
       ∧ PeerlistLookup pk (PeerlistAdd pk conns w).2 = Some p
       ∧ (∀ pk', publicKey2Compressed pk' = publicKey2Compressed pk →
                 PeerlistLookup pk' (PeerlistAdd pk conns w).2 = Some p)
       ∧ ((PeerlistAdd pk conns w).1.2 = true →
            peerHeap w !! p = None ∧ is_Some (peerHeap (PeerlistAdd pk conns w).2 !! p)).
Proof.
  intros Hne. unfold PeerlistLookup.
  destruct (PeerlistAdd_cases pk conns w)
    as [[-> _]|[(p & _ & Hk & ->)|(first & rest & -> & Hk & ->)]]; [done| |].
  - exists p. simpl. split; [done|]. split; [done|]. split; [|done].
    intros pk' Hpk'. by rewrite Hpk'.
  - exists (length (peerHeap w)). simpl. split; [done|].
    split; [apply lookup_insert_eq|]. split.
    + intros pk' ->. apply lookup_insert_eq.
    + intros _. split; [by apply lookup_ge_None|].
      eexists. by apply list_lookup_middle.
Qed.

(** X3: [PeerlistAdd] touches nothing but the identity it is called for: the
    lookups of all other identities, the records already on the heap, the
    connections, the clock and the wire are as before, and the count of peers
    grows by one exactly when the call reports "added". *)
Theorem PeerlistAdd_frame (pk : btcecPublicKey) (conns : list ConnPtr) (w : World) :
  (∀ pk', publicKey2Compressed pk' ≠ publicKey2Compressed pk →
          PeerlistLookup pk' (PeerlistAdd pk conns w).2 = PeerlistLookup pk' w)
  ∧ (∀ p info, peerHeap w !! p = Some info →
               peerHeap (PeerlistAdd pk conns w).2 !! p = Some info)
  ∧ connHeap (PeerlistAdd pk conns w).2 = connHeap w
  ∧ now (PeerlistAdd pk conns w).2 = now w
  ∧ wire (PeerlistAdd pk conns w).2 = wire w
  ∧ PeerlistCount (PeerlistAdd pk conns w).2
    = PeerlistCount w + (if (PeerlistAdd pk conns w).1.2 then 1 else 0).
Proof.
  unfold PeerlistLookup, PeerlistCount.
  destruct (PeerlistAdd_cases pk conns w)
    as [[-> _]|[(p & _ & Hk & ->)|(first & rest & -> & Hk & ->)]]; simpl.
  - repeat split; auto with lia.
  - repeat split; auto with lia.
  - split; [|split; [|repeat split]].
    + intros pk' Hpk'. by apply lookup_insert_ne.
    + intros p info Hp. by apply lookup_app_l_Some.
    + rewrite map_size_insert_None by done. lia.
Qed.

Lemma PeerlistRemove_eq (peer : PeerPtr) (info : PeerInfo) (w : World) :
  peerHeap w !! peer = Some info →
  PeerlistRemove peer w
  = setPeerList (delete (publicKey2Compressed (PublicKey info)) (peerList w)) w.
Proof. intros Hp. unfold PeerlistRemove. by rewrite Hp. Qed.

(** X4: after [PeerlistRemove] the identity of the removed peer is not found
    any more, whichever record was registered for it; all other identities
    are found as before; the count of peers drops by one exactly when the
    identity was registered; the records stay on the heap. *)
Theorem PeerlistRemove_then_Lookup (peer : PeerPtr) (info : PeerInfo) (w : World) :
  peerHeap w !! peer = Some info →
  PeerlistLookup (PublicKey info) (PeerlistRemove peer w) = None
  ∧ (∀ pk', publicKey2Compressed pk' ≠ publicKey2Compressed (PublicKey info) →
            PeerlistLookup pk' (PeerlistRemove peer w) = PeerlistLookup pk' w)
  ∧ PeerlistCount (PeerlistRemove peer w)
    + (if PeerlistLookup (PublicKey info) w is Some _ then 1 else 0) = PeerlistCount w
  ∧ peerHeap (PeerlistRemove peer w) = peerHeap w
  ∧ (registryOk w → peer ∉ PeerlistGet (PeerlistRemove peer w)).
Proof.
  intros Hp. rewrite (PeerlistRemove_eq _ _ _ Hp). unfold PeerlistLookup, PeerlistCount. simpl.
  split; [apply lookup_delete_eq|]. split; [|split; [|split; [done|]]].
  - intros pk' Hpk'. by apply lookup_delete_ne.
  - destruct (peerList w !! publicKey2Compressed (PublicKey info)) as [p|] eqn:Hk.
    + rewrite map_size_delete_Some by (by eexists).
      assert (size (peerList w) ≠ 0); [|lia].
      intros Hz. apply map_size_empty_iff in Hz. by rewrite Hz, lookup_empty in Hk.
    + rewrite delete_id by done. lia.
  - intros Hok Hin. apply elem_of_PeerlistGet in Hin as [k Hk]. simpl in Hk.
    apply lookup_delete_Some in Hk as [Hne Hk].
    specialize (Hok k peer Hk). rewrite Hp in Hok. simpl in Hok. by injection Hok.
Qed.

(** X5: adding an identity that was unknown and removing the peer the call
    returned restores the registry: the same entries, the same count, the
    same peers enumerated; only the heap keeps the orphaned record. *)
Theorem PeerlistAdd_then_Remove (pk : btcecPublicKey) (conns : list ConnPtr) (w : World) :
  conns ≠ [] →
  PeerlistLookup pk w = None →
  ∃ p w1, PeerlistAdd pk conns w = (Some p, true, w1)
          ∧ peerList (PeerlistRemove p w1) = peerList w
          ∧ PeerlistCount (PeerlistRemove p w1) = PeerlistCount w
          ∧ PeerlistGet (PeerlistRemove p w1) = PeerlistGet w
          ∧ PeerlistLookup pk (PeerlistRemove p w1) = None.
Proof.
  intros Hne Hk. unfold PeerlistLookup in Hk.
  destruct conns as [|first rest]; [done|].
  rewrite (PeerlistAdd_new _ _ _ _ Hk). eexists _, _. split; [done|].
  erewrite PeerlistRemove_eq by (simpl; by apply list_lookup_middle).
  unfold PeerlistCount, PeerlistGet, PeerlistLookup. simpl.
  rewrite delete_insert_eq, delete_id by done. done.
Qed.

(** X6: once a peer is removed, the next [PeerlistAdd] for its identity
    starts afresh: it reports "added" and returns a new record, not the
    removed one, holding only the connections of this call. *)
Theorem PeerlistRemove_then_Add (pk : btcecPublicKey) (p : PeerPtr) (conns : list ConnPtr)
    (w : World) :
  registryOk w →
  PeerlistLookup pk w = Some p →
  conns ≠ [] →
  ∃ p' w' info,
    PeerlistAdd pk conns (PeerlistRemove p w) = (Some p', true, w')
    ∧ p' ≠ p
    ∧ PeerlistLookup pk w' = Some p'
    ∧ peerHeap w' !! p' = Some info
    ∧ connectionActive info = conns
    ∧ connectionInactive info = []
    ∧ peerHeap w' !! p = peerHeap w !! p
    ∧ PeerlistCount w' = PeerlistCount w.
Proof.
  intros Hok Hk Hne. unfold PeerlistLookup in Hk.
  pose proof (Hok _ _ Hk) as Hrec.
  destruct (peerHeap w !! p) as [old|] eqn:Hp; [|done]. simpl in Hrec. injection Hrec as Hkey.
  rewrite (PeerlistRemove_eq _ _ _ Hp), Hkey.
  destruct conns as [|first rest]; [done|].
  rewrite PeerlistAdd_new by (simpl; apply lookup_delete_eq). simpl.
  eexists _, _, _. split; [done|].
  assert (Hlt : p < length (peerHeap w)) by (by apply lookup_lt_is_Some; eexists).
  split; [lia|]. unfold PeerlistLookup, PeerlistCount. simpl.
  split; [apply lookup_insert_eq|]. split; [by apply list_lookup_middle|].
  split; [done|]. split; [done|]. split.
  - by apply lookup_app_l_Some.
  - rewrite insert_delete_eq. rewrite map_size_insert_Some; [done|by eexists].
Qed.

(** X7: in a registry in order, [PeerlistGet] enumerates, each once, exactly
    the peers that [PeerlistLookup] finds under their own public key, and
    [PeerlistCount] is their number. *)
Theorem PeerlistGet_Lookup_Count (w : World) :
  registryOk w →
  NoDup (PeerlistGet w)
  ∧ length (PeerlistGet w) = PeerlistCount w
  ∧ ∀ p, p ∈ PeerlistGet w
         ↔ ∃ info, peerHeap w !! p = Some info
                   ∧ PeerlistLookup (PublicKey info) w = Some p.
Proof.
  intros Hok. split; [by apply registryOk_NoDup|]. split.
  - unfold PeerlistGet, PeerlistCount. by rewrite length_fmap, length_map_to_list.
  - intros p. rewrite elem_of_PeerlistGet. unfold PeerlistLookup. split.
    + intros [k Hk]. pose proof (Hok _ _ Hk) as Hrec.
      destruct (peerHeap w !! p) as [info|]; [|done]. simpl in Hrec. injection Hrec as <-.
      by exists info.
    + intros (info & _ & Hk). eauto.
Qed.

End RegistryRoundTrips.

(** ** The tick as a whole *)

(** What every round keeps, a whole tick keeps. *)
Lemma peerRound_invariant (I : World → Prop) (th : Thresholds) (q : PeerPtr) (w : World) :
  (∀ d w1 w2, roundOutcome th q d w1 w2 → I w1 → I w2) →
  I w → I (peerRound th w q).
Proof.
  intros Hstep Hw. unfold peerRound, inactivePass, activePass.
  apply foldl_invariant; [apply foldl_invariant; [done|]|].
  - intros w' d _ Hw'. eapply Hstep; [apply activeRound_outcome|done].
  - intros w' d _ Hw'. eapply Hstep; [apply inactiveRound_outcome|done].
Qed.

Lemma tick_invariant (I : World → Prop) (order : list PeerPtr) (w : World) :
  (∀ q d w1 w2, q ∈ order → roundOutcome (thresholds w) q d w1 w2 → I w1 → I w2) →
  I w → I (tick order w).
Proof.
  intros Hstep Hw. unfold tick. apply foldl_invariant; [done|].
  intros w' q Hq. apply peerRound_invariant. intros d w1 w2. by apply Hstep.
Qed.

Lemma foldl_fixed {A B} (f : A → B → A) (l : list B) (a : A) :
  (∀ x, x ∈ l → f a x = a) → foldl f a l = a.
Proof.
  induction l as [|x l IH]; intros Hfix; [done|].
  simpl. rewrite Hfix by left. apply IH. intros y Hy. apply Hfix. by right.
Qed.

(** The round of an active connection within its thresholds does nothing. *)
Lemma activeRound_within (w0 w : World) (q : PeerPtr) (c : ConnPtr) (conn : Connection) :
  now w = now w0 →
  connHeap w !! c = Some conn →
  withinThresholds (now w0) conn →
  activeRound (thresholds w0) q w c = w.
Proof.
  intros Hnow Hc [Hinv Hping]. unfold activeRound. rewrite Hc. cbv zeta.
  destruct (thresholds_values w0) as (-> & -> & -> & ->).
  unfold invalidateAfter, pingAfter in *. unfold Now, Before, seconds, Second in *.
  destruct (bool_decide (Status conn = ConnectionRedundant)).
  - replace (LastPacketIn conn <? now w0 - 88 * 1000000000)%Z with false
      by (symmetry; apply Z.ltb_ge; lia).
    destruct Hping as [Hping|Hping].
    + replace (LastPacketIn conn <? now w0 - 40 * 1000000000)%Z with false
        by (symmetry; apply Z.ltb_ge; lia). done.
    + replace (LastPingOut conn <? now w0 - 40 * 1000000000)%Z with false
        by (symmetry; apply Z.ltb_ge; lia). by rewrite andb_false_r.
  - replace (LastPacketIn conn <? now w0 - 22 * 1000000000)%Z with false
      by (symmetry; apply Z.ltb_ge; lia).
    destruct Hping as [Hping|Hping].
    + replace (LastPacketIn conn <? now w0 - 10 * 1000000000)%Z with false
        by (symmetry; apply Z.ltb_ge; lia). done.
    + replace (LastPingOut conn <? now w0 - 10 * 1000000000)%Z with false
        by (symmetry; apply Z.ltb_ge; lia). by rewrite andb_false_r.
Qed.

(** The round of an inactive connection at rest does nothing. *)
Lemma inactiveRound_atRest (w : World) (q : PeerPtr) (c : ConnPtr) (conn : Connection) :
  connHeap w !! c = Some conn →
  atRest (now w) conn →
  inactiveRound (thresholds w) q w c = w.
Proof.
  intros Hc [Hexp Hping]. unfold inactiveRound. rewrite Hc.
  destruct (peerHeap w !! q) as [info|]; [|done].
  unfold purgeGuard. destruct (thresholds_values w) as (_ & _ & -> & _).
  unfold Now, Before, seconds, Second in *.
  replace (Expires conn <? now w)%Z with false by (symmetry; apply Z.ltb_ge; lia).
  replace (LastPingOut conn <? now w - 10 * 1000000000)%Z with false
    by (symmetry; apply Z.ltb_ge; lia).
  by rewrite andb_false_r.
Qed.

(** X8: a tick over peers whose connections are all in order does nothing
    at all: when every active connection of the peers visited is within its
    thresholds and every inactive one is unexpired and pinged within the last
    10 seconds, the world after the tick is the world before. *)
Theorem tick_of_settled_peers_is_idle (order : list PeerPtr) (w : World) :
  (∀ p c conn, p ∈ order → c ∈ activeOf p w → connHeap w !! c = Some conn →
               withinThresholds (now w) conn) →
  (∀ p c conn, p ∈ order → c ∈ inactiveOf p w → connHeap w !! c = Some conn →
               atRest (now w) conn) →
  tick order w = w.
Proof.
  intros Hact Hinact. unfold tick. apply foldl_fixed. intros p Hp.
  unfold peerRound.
  assert (Ha : activePass (thresholds w) p w = w).
  { unfold activePass. apply foldl_fixed. intros c Hc.
    destruct (connHeap w !! c) as [conn|] eqn:Hconn.
    - apply (activeRound_within w w p c conn); [done|done|]. by apply (Hact p c).
    - unfold activeRound. by rewrite Hconn. }
  rewrite Ha. unfold inactivePass. apply foldl_fixed. intros c Hc.
  destruct (connHeap w !! c) as [conn|] eqn:Hconn.
  - apply (inactiveRound_atRest w p c conn); [done|]. by apply (Hinact p c).
  - unfold inactiveRound. rewrite Hconn. by destruct (peerHeap w !! p).
Qed.

(** What a round puts on the wire: nothing, or one ping of the peer on the
    connection of the round; it takes one answer of the operating system with
    each packet. *)
Lemma roundOutcome_sent (th : Thresholds) (q : PeerPtr) (d : ConnPtr) (w w' : World) :
  roundOutcome th q d w w' →
  (wire w' = wire w ∧ sendResults w' = sendResults w)
  ∨ (wire w' = wire w ++ [pingFrom q d w] ∧ sendResults w' = tail (sendResults w)).
Proof. destruct 1; [by left|by left|by right|by right|by left]. Qed.

(** X9: all that a tick transmits is pings, each in the name of a peer it
    visits: the wire after the tick is the wire before, followed by pings
    only; each takes one answer of the operating system; the clock and the
    registry are as before. *)
Theorem tick_sends_only_pings (order : list PeerPtr) (w : World) :
  ∃ added,
    wire (tick order w) = wire w ++ added
    ∧ Forall (λ tx, txPacket tx = pingPacket ∧ txPeer tx ∈ order) added
    ∧ sendResults (tick order w) = drop (length added) (sendResults w)
    ∧ now (tick order w) = now w
    ∧ peerList (tick order w) = peerList w.
Proof.
  apply tick_invariant.
  - intros q d w1 w2 Hq Hout (added & Hwire & Hall & Hres & Hnow & Hlist).
    destruct (roundOutcome_now _ _ _ _ _ Hout) as [Hnow' Hlist'].
    destruct (roundOutcome_sent _ _ _ _ _ Hout) as [[Hw Hr]|[Hw Hr]].
    + exists added. rewrite Hw, Hr, Hnow', Hlist'. done.
    + exists (added ++ [pingFrom q d w1]). rewrite Hw, Hr, Hnow', Hlist', Hwire, Hres.
      split; [by rewrite app_assoc|]. split.
      * apply Forall_app. split; [done|]. by apply Forall_singleton.
      * rewrite length_app. simpl. rewrite <- drop_drop.
        split; [|done]. by destruct (drop (length added) (sendResults w)).
  - exists []. by rewrite app_nil_r.
Qed.

(** A round leaves the time of the last ping of a connection as it is,
    unless it pings the connection, and then the time is now. *)
Lemma remove_LastPingOut (peer : PeerPtr) (c d : ConnPtr) (w : World) :
  LastPingOut <$> connHeap (removeInactiveConnection peer c w) !! d
  = LastPingOut <$> connHeap w !! d.
Proof.
  rewrite remove_connHeap, list_lookup_alter.
  destruct (decide (c = d)) as [->|]; [|done]. by destruct (connHeap w !! d).
Qed.

Lemma pingAttempt_LastPingOut (peer : PeerPtr) (c : ConnPtr) (w : World) (conn : Connection) :
  connHeap w !! c = Some conn →
  LastPingOut <$> connHeap (pingAttempt peer c w) !! c = Some (Now w).
Proof. intros Hc. by rewrite pingAttempt_lookup, Hc. Qed.

(** The invariant of the rate limit: at most one ping more than [n] is on the
    wire for [c], and once it is there the connection bears the stamp of
    the tick. *)
Lemma once_outcome (w0 : World) (q : PeerPtr) (c d : ConnPtr) (n : nat) (w w' : World) :
  roundOutcome (thresholds w0) q d w w' →
  now w = now w0
  ∧ length (pingsOn c (wire w)) ≤ S n
  ∧ (length (pingsOn c (wire w)) = S n →
       LastPingOut <$> connHeap w !! c = Some (now w0)) →
  now w' = now w0
  ∧ length (pingsOn c (wire w')) ≤ S n
  ∧ (length (pingsOn c (wire w')) = S n →
       LastPingOut <$> connHeap w' !! c = Some (now w0)).
Proof.
  intros Hout (Hnow & Hle & Hstamp).
  assert (Hdue : ∀ cd, d = c → connHeap w !! d = Some cd →
            Before (LastPingOut cd) (thresholdPingOut1 (thresholds w0)) = true
            ∨ Before (LastPingOut cd) (thresholdPingOut2 (thresholds w0)) = true →
            length (pingsOn c (wire w)) ≤ n).
  { intros cd -> Hd Hping.
    destruct (decide (length (pingsOn c (wire w)) = S n)) as [Heq|]; [|lia].
    apply Hstamp in Heq. rewrite Hd in Heq. injection Heq as Heq.
    destruct (thresholds_values w0) as (_ & _ & Hp1 & Hp2). rewrite Hp1, Hp2, Heq in Hping.
    unfold Before, Now, seconds, Second in *.
    destruct Hping as [Hping|Hping]; apply Z.ltb_lt in Hping; lia. }
  destruct Hout as [| |cd Hd Hping|cd Hd Hping|cd Hd Hexp].
  - done.
  - split; [done|]. split; [done|]. by rewrite invalidate_LastPingOut.
  - split; [done|]. destruct (decide (d = c)) as [->|Hdc].
    + specialize (Hdue cd eq_refl Hd Hping). rewrite pingAttempt_pingsOn.
      split; [lia|]. intros _. rewrite (pingAttempt_LastPingOut _ _ _ _ Hd).
      unfold Now. by rewrite Hnow.
    + rewrite pingAttempt_wire, pingsOn_other by done.
      by rewrite pingAttempt_lookup_ne.
  - split; [done|].
    change (wire (invalidateActiveConnection q d (pingAttempt q d w)))
      with (wire (pingAttempt q d w)).
    rewrite invalidate_LastPingOut. destruct (decide (d = c)) as [->|Hdc].
    + specialize (Hdue cd eq_refl Hd Hping). rewrite pingAttempt_pingsOn.
      split; [lia|]. intros _. rewrite (pingAttempt_LastPingOut _ _ _ _ Hd).
      unfold Now. by rewrite Hnow.
    + rewrite pingAttempt_wire, pingsOn_other by done.
      by rewrite pingAttempt_lookup_ne.
  - split; [done|]. split; [done|]. by rewrite remove_LastPingOut.
Qed.

Lemma once_tick (order : list PeerPtr) (w : World) (c : ConnPtr) :
  now (tick order w) = now w
  ∧ length (pingsOn c (wire (tick order w))) ≤ S (length (pingsOn c (wire w)))
  ∧ (length (pingsOn c (wire (tick order w))) = S (length (pingsOn c (wire w))) →
       LastPingOut <$> connHeap (tick order w) !! c = Some (now w)).
Proof.
  apply (tick_invariant (λ w', now w' = now w
           ∧ length (pingsOn c (wire w')) ≤ S (length (pingsOn c (wire w)))
           ∧ (length (pingsOn c (wire w')) = S (length (pingsOn c (wire w))) →
                LastPingOut <$> connHeap w' !! c = Some (now w)))).
  - intros q d w1 w2 _. apply once_outcome.
  - split; [done|]. split; [lia|]. lia.
Qed.

(** X10: the tick limits the rate of the pings: on any one connection it
    sends at most one ping, however many peers list the connection and in
    whichever lists, and none at all on a connection that was pinged within
    the last 10 seconds; a ping sent leaves its time on the connection. *)
Theorem tick_pings_at_most_once (order : list PeerPtr) (w : World) (c : ConnPtr) :
  length (pingsOn c (wire (tick order w))) ≤ S (length (pingsOn c (wire w)))
  ∧ length (pingsOn c (wire w)) ≤ length (pingsOn c (wire (tick order w)))
  ∧ (length (pingsOn c (wire (tick order w))) = S (length (pingsOn c (wire w))) →
       LastPingOut <$> connHeap (tick order w) !! c = Some (now w))
  ∧ (∀ conn, connHeap w !! c = Some conn →
             (now w - seconds 10 ≤ LastPingOut conn)%Z →
             pingsOn c (wire (tick order w)) = pingsOn c (wire w)).
Proof.
  destruct (once_tick order w c) as (_ & Hle & Hstamp).
  split; [done|]. split; [|split; [done|]].
  - apply (tick_invariant (λ w', length (pingsOn c (wire w)) ≤ length (pingsOn c (wire w')))).
    + intros q d w1 w2 _ Hout Hle'.
      pose proof (roundOutcome_pingsOn_le _ _ c _ _ _ Hout). lia.
    + done.
  - intros conn Hc Hrecent. by apply (recentlyPinged_tick order w c conn).
Qed.

(** An active connection within its thresholds, listed as inactive nowhere,
    comes through the round of any peer as it is, and unpinged. *)
Lemma within_peerRound (w0 w : World) (p q : PeerPtr) (c : ConnPtr) (conn : Connection)
    (log : list Transmission) :
  withinThresholds (now w0) conn →
  untouched (now w0) p c conn w ∧ pingsOn c (wire w) = log →
  untouched (now w0) p c conn (peerRound (thresholds w0) w q)
  ∧ pingsOn c (wire (peerRound (thresholds w0) w q)) = log.
Proof.
  intros Hin Hw. unfold peerRound.
  assert (Hact : untouched (now w0) p c conn (activePass (thresholds w0) q w)
                 ∧ pingsOn c (wire (activePass (thresholds w0) q w)) = log).
  { unfold activePass. apply foldl_invariant; [done|].
    intros w' d _ [Hw' Hlog]. destruct (decide (d = c)) as [->|Hdc].
    - pose proof Hw' as (Hnow & Hc & _). by rewrite (activeRound_within w0 w' q c conn).
    - split; [eapply untouched_outcome; [done|apply activeRound_outcome|done]|].
      by rewrite (roundOutcome_pingsOn _ _ _ _ _ _ Hdc (activeRound_outcome _ q d w')). }
  unfold inactivePass. apply foldl_invariant; [done|].
  intros w' d Hd [Hw' Hlog]. destruct (decide (d = c)) as [->|Hdc].
  - destruct Hact as [(_ & _ & _ & Hnot) _]. by destruct (Hnot q).
  - split; [eapply untouched_outcome; [done|apply inactiveRound_outcome|done]|].
    by rewrite (roundOutcome_pingsOn _ _ _ _ _ _ Hdc (inactiveRound_outcome _ q d w')).
Qed.

(** X11: the tick leaves an active connection within its thresholds exactly
    as it is, whatever it does to the other connections and whatever the
    order of the peers: the record is unchanged, no ping is sent on it, it
    stays in the active list and in no inactive list. The thresholds are
    inclusive: a connection last heard of exactly 22 seconds ago (88 if
    Redundant) and pinged exactly 10 seconds ago (40 if Redundant) is still
    within. *)
Theorem tick_spares_connection_within_thresholds
    (order : list PeerPtr) (w : World) (p : PeerPtr) (c : ConnPtr) (conn : Connection) :
  c ∈ activeOf p w →
  (∀ q, c ∉ inactiveOf q w) →
  connHeap w !! c = Some conn →
  withinThresholds (now w) conn
  ∨ (LastPacketIn conn = (now w - seconds (invalidateAfter (Status conn)))%Z
     ∧ LastPingOut conn = (now w - seconds (pingAfter (Status conn)))%Z) →
  connHeap (tick order w) !! c = Some conn
  ∧ c ∈ activeOf p (tick order w)
  ∧ (∀ q, c ∉ inactiveOf q (tick order w))
  ∧ pingsOn c (wire (tick order w)) = pingsOn c (wire w).
Proof.
  intros Hact Hinact Hc Hin.
  assert (Hwithin : withinThresholds (now w) conn).
  { destruct Hin as [Hin|[Hin Hping]]; [done|]. split; [lia|right; lia]. }
  enough (Hinv : untouched (now w) p c conn (tick order w)
                 ∧ pingsOn c (wire (tick order w)) = pingsOn c (wire w))
    by (by destruct Hinv as [(_ & ? & ? & ?) ?]).
  unfold tick. apply foldl_invariant; [done|].
  intros w' q _ Hw'. by apply within_peerRound.
Qed.

(** ** A connection that falls silent, tick after tick *)

(** A fold that meets [x0] turns what holds throughout into what [x0]
    brings about, if that lasts. *)
Lemma foldl_trigger {A B} (E P : A → Prop) (f : A → B → A) (l : list B) (x0 : B) (a : A) :
  (∀ a' x, E a' → E (f a' x)) →
  (∀ a' x, P a' → P (f a' x)) →
  (∀ a', E a' → P (f a' x0)) →
  x0 ∈ l → E a → P (foldl f a l).
Proof.
  intros HE HP Hx0. revert a. induction l as [|x l IH]; intros a Hin Ha.
  - by apply elem_of_nil in Hin.
  - simpl. apply elem_of_cons in Hin as [<-|Hin].
    + apply foldl_invariant; [by apply Hx0|]. intros a' y _. apply HP.
    + apply IH; [done|]. by apply HE.
Qed.

Lemma roundOutcome_sendResults (th : Thresholds) (q : PeerPtr) (d : ConnPtr) (w w' : World) :
  roundOutcome th q d w w' → sendResults w = [] → sendResults w' = [].
Proof. destruct 1; try done; simpl; by intros ->. Qed.

Section SilentConnection.
Variables (p : PeerPtr) (c : ConnPtr) (conn : Connection).

(** The round of another connection leaves the silent one as it is. *)
Lemma silent_outcome (th : Thresholds) (q : PeerPtr) (d : ConnPtr) (pinged : Time) (n : nat)
    (w w' : World) :
  d ≠ c → roundOutcome th q d w w' →
  silentActive p c conn pinged n w → silentActive p c conn pinged n w'.
Proof.
  intros Hdc Hout (Hc & Hact & Hinact & Hres & Hn).
  destruct (untouched_outcome th (now w) p q c d (withLastPingOut pinged conn) w w' Hdc Hout)
    as (_ & Hc' & Hact' & Hinact'); [done|].
  split; [done|]. split; [done|]. split; [done|].
  split; [by eapply roundOutcome_sendResults|].
  by rewrite (roundOutcome_pingsOn _ _ _ _ _ _ Hdc Hout).
Qed.

(** The ping of a silent connection, when the send succeeds. *)
Lemma silent_ping (q : PeerPtr) (pinged : Time) (n : nat) (w : World) :
  silentActive p c conn pinged n w →
  sendPing q c w = pingAttempt q c w
  ∧ silentActive p c conn (now w) (S n) (pingAttempt q c w).
Proof.
  intros (Hc & Hact & Hinact & Hres & Hn). split.
  - rewrite (sendPing_cases _ _ _ _ Hc). unfold nextResult. rewrite Hres.
    by rewrite andb_false_r.
  - split; [by rewrite pingAttempt_lookup, Hc|].
    split; [unfold activeOf; by rewrite GetConnections_pingAttempt|].
    split; [intros q'; unfold inactiveOf; rewrite GetConnections_pingAttempt; apply Hinact|].
    split; [simpl; by rewrite Hres|].
    by rewrite pingAttempt_pingsOn, Hn.
Qed.

Variables (w0 : World) (pinged0 : Time) (n0 : nat).

(** The tick at hand is taken in [w0]. The connection is not Redundant, was
    heard of within 22 seconds and not within 10, and the last ping is more
    than 10 seconds old: the tick is to ping it. *)
Hypothesis Hstatus : Status conn = ConnectionActive.
Hypothesis Hheard : (now w0 - seconds 22 ≤ LastPacketIn conn < now w0 - seconds 10)%Z.
Hypothesis Hpinged : (pinged0 < now w0 - seconds 10)%Z.

Local Abbreviation due := (toPing p c conn w0 pinged0 n0).
Local Abbreviation sent := (pingedNow p c conn w0 n0).

Lemma toPing_activeRound (q : PeerPtr) (w : World) :
  due w → sent (activeRound (thresholds w0) q w c).
Proof.
  intros [Hnow Hw]. pose proof Hw as (Hc & _).
  destruct (silent_ping q pinged0 n0 w Hw) as [Hsend Hafter].
  unfold activeRound. rewrite Hc. cbv zeta.
  cbn [Status LastPacketIn LastPingOut withLastPingOut].
  rewrite Hstatus, bool_decide_false by done.
  destruct (thresholds_values w0) as (-> & _ & -> & _).
  unfold Now, Before, seconds, Second in *.
  replace (LastPacketIn conn <? now w0 - 22 * 1000000000)%Z with false
    by (symmetry; apply Z.ltb_ge; lia).
  replace (LastPacketIn conn <? now w0 - 10 * 1000000000)%Z with true
    by (symmetry; apply Z.ltb_lt; lia).
  replace (pinged0 <? now w0 - 10 * 1000000000)%Z with true
    by (symmetry; apply Z.ltb_lt; lia).
  cbn [andb]. rewrite Hsend. split; [done|]. by rewrite <- Hnow.
Qed.

Lemma pingedNow_activeRound (q : PeerPtr) (w : World) :
  sent w → activeRound (thresholds w0) q w c = w.
Proof.
  intros [Hnow (Hc & _)]. apply (activeRound_within w0 w q c _ Hnow Hc).
  unfold withinThresholds, invalidateAfter, pingAfter.
  cbn [Status LastPacketIn LastPingOut withLastPingOut].
  rewrite Hstatus, bool_decide_false by done. unfold seconds, Second in *. lia.
Qed.

Lemma toPing_other (active : bool) (q : PeerPtr) (d : ConnPtr) (w : World) :
  d ≠ c →
  (due w → due ((if active then activeRound else inactiveRound) (thresholds w0) q w d))
  ∧ (sent w → sent ((if active then activeRound else inactiveRound) (thresholds w0) q w d)).
Proof.
  intros Hdc.
  assert (Hout : roundOutcome (thresholds w0) q d w
                   ((if active then activeRound else inactiveRound) (thresholds w0) q w d))
    by (destruct active; [apply activeRound_outcome|apply inactiveRound_outcome]).
  destruct (roundOutcome_now _ _ _ _ _ Hout) as [Hnow _].
  split; intros [Hn Hw]; (split; [by rewrite Hnow|by eapply silent_outcome]).
Qed.

Lemma activeRound_silent_either (q : PeerPtr) (d : ConnPtr) (w : World) :
  due w ∨ sent w →
  due (activeRound (thresholds w0) q w d) ∨ sent (activeRound (thresholds w0) q w d).
Proof.
  intros Hw. destruct (decide (d = c)) as [->|Hdc].
  - right. destruct Hw as [Hw|Hw];
      [by apply toPing_activeRound|by rewrite pingedNow_activeRound].
  - destruct (toPing_other true q d w Hdc) as [Hto Hpi]. destruct Hw; [left|right]; auto.
Qed.

Lemma activeRound_pinged (q : PeerPtr) (d : ConnPtr) (w : World) :
  sent w → sent (activeRound (thresholds w0) q w d).
Proof.
  intros Hw. destruct (decide (d = c)) as [->|Hdc].
  - by rewrite pingedNow_activeRound.
  - by apply (toPing_other true q d w Hdc).
Qed.

Lemma inactivePass_same (q : PeerPtr) (w : World) :
  (due w → due (inactivePass (thresholds w0) q w))
  ∧ (sent w → sent (inactivePass (thresholds w0) q w)).
Proof.
  unfold inactivePass. split; intros Hw.
  - apply foldl_invariant; [done|]. intros w' d Hd Hw'.
    apply (toPing_other false q d w'); [|done].
    intros ->. destruct Hw as [_ (_ & _ & Hinact & _)]. by apply (Hinact q).
  - apply foldl_invariant; [done|]. intros w' d Hd Hw'.
    apply (toPing_other false q d w'); [|done].
    intros ->. destruct Hw as [_ (_ & _ & Hinact & _)]. by apply (Hinact q).
Qed.

Lemma peerRound_silent_either (q : PeerPtr) (w : World) :
  due w ∨ sent w →
  due (peerRound (thresholds w0) w q) ∨ sent (peerRound (thresholds w0) w q).
Proof.
  intros Hw. unfold peerRound.
  assert (Ha : due (activePass (thresholds w0) q w)
               ∨ sent (activePass (thresholds w0) q w)).
  { unfold activePass. apply foldl_invariant; [done|].
    intros w' d _. apply activeRound_silent_either. }
  destruct (inactivePass_same q (activePass (thresholds w0) q w)) as [Hto Hpi].
  destruct Ha; [left|right]; auto.
Qed.

Lemma peerRound_pinged (q : PeerPtr) (w : World) :
  sent w → sent (peerRound (thresholds w0) w q).
Proof.
  intros Hw. unfold peerRound. apply inactivePass_same.
  unfold activePass. apply foldl_invariant; [done|].
  intros w' d _. apply activeRound_pinged.
Qed.

(** The round of the peer itself pings the connection, if that is still to
    be done. *)
Lemma peerRound_pings_silent (w : World) :
  due w ∨ sent w → sent (peerRound (thresholds w0) w p).
Proof.
  intros [Hw|Hw]; [|by apply peerRound_pinged].
  unfold peerRound. apply inactivePass_same. unfold activePass.
  apply (foldl_trigger (λ w', due w' ∨ sent w') sent _ _ c).
  - intros w' d. apply activeRound_silent_either.
  - intros w' d. apply activeRound_pinged.
  - intros w' [Hw'|Hw']; [by apply toPing_activeRound|by rewrite pingedNow_activeRound].
  - by destruct Hw as [_ (_ & Hact & _)].
  - by left.
Qed.

Lemma tick_pings_silent (order : list PeerPtr) (w : World) :
  p ∈ order → due w → sent (foldl (peerRound (thresholds w0)) w order).
Proof.
  intros Hp Hw.
  apply (foldl_trigger (λ w', due w' ∨ sent w') sent _ _ p).
  - intros w' q. apply peerRound_silent_either.
  - intros w' q. apply peerRound_pinged.
  - apply peerRound_pings_silent.
  - done.
  - by left.
Qed.

End SilentConnection.

Lemma silentActive_Sleep (p : PeerPtr) (c : ConnPtr) (conn : Connection) (pinged : Time)
    (n : nat) (d : Duration) (w : World) :
  silentActive p c conn pinged n w → silentActive p c conn pinged n (Sleep d w).
Proof. done. Qed.

(** A tick that finds the silent connection within its thresholds leaves it
    as it is. *)
Lemma silent_within (p : PeerPtr) (c : ConnPtr) (conn : Connection) (pinged : Time) (n : nat)
    (order : list PeerPtr) (w : World) :
  withinThresholds (now w) (withLastPingOut pinged conn) →
  silentActive p c conn pinged n w →
  now (tick order w) = now w ∧ silentActive p c conn pinged n (tick order w).
Proof.
  intros Hin Hw. unfold tick.
  apply (foldl_invariant (λ w', now w' = now w ∧ silentActive p c conn pinged n w'));
    [done|].
  intros w1 q _ Hw1. unfold peerRound, inactivePass.
  assert (Hact : now (activePass (thresholds w) q w1) = now w
                 ∧ silentActive p c conn pinged n (activePass (thresholds w) q w1)).
  { unfold activePass. apply foldl_invariant; [done|].
    intros w' d _ [Hnow Hw']. destruct (decide (d = c)) as [->|Hdc].
    - pose proof Hw' as (Hc & _). by rewrite (activeRound_within w w' q c _ Hnow Hc).
    - pose proof (activeRound_outcome (thresholds w) q d w') as Hout.
      destruct (roundOutcome_now _ _ _ _ _ Hout) as [Hnow' _].
      split; [by rewrite Hnow'|by eapply silent_outcome]. }
  apply foldl_invariant; [done|].
  intros w' d Hd [Hnow Hw'].
  assert (Hdc : d ≠ c).
  { intros ->. destruct Hact as [_ (_ & _ & Hinact & _)]. by apply (Hinact q). }
  pose proof (inactiveRound_outcome (thresholds w) q d w') as Hout.
  destruct (roundOutcome_now _ _ _ _ _ Hout) as [Hnow' _].
  split; [by rewrite Hnow'|by eapply silent_outcome].
Qed.

(** A tick that finds it due pings it. *)
Lemma silent_pinged (p : PeerPtr) (c : ConnPtr) (conn : Connection) (pinged : Time) (n : nat)
    (order : list PeerPtr) (w : World) :
  Status conn = ConnectionActive →
  (now w - seconds 22 ≤ LastPacketIn conn < now w - seconds 10)%Z →
  (pinged < now w - seconds 10)%Z →
  p ∈ order →
  silentActive p c conn pinged n w →
  now (tick order w) = now w ∧ silentActive p c conn (now w) (S n) (tick order w).
Proof.
  intros Hst Hheard Hpinged Hp Hw. unfold tick.
  by apply (tick_pings_silent p c conn w pinged n Hst Hheard Hpinged order w Hp).
Qed.

(** A tick that finds it silent for more than 22 seconds invalidates it,
    and, the last ping being recent, without another ping. *)
Lemma silent_invalidated (p : PeerPtr) (c : ConnPtr) (conn : Connection) (pinged : Time)
    (n : nat) (order : list PeerPtr) (w : World) :
  Status conn = ConnectionActive →
  (LastPacketIn conn < now w - seconds 22)%Z →
  (now w - seconds 10 ≤ pinged)%Z →
  p ∈ order →
  silentActive p c conn pinged n w →
  c ∈ inactiveOf p (tick order w)
  ∧ (c ∉ activeOf p (tick order w))
  ∧ statusOf c (tick order w) = Some ConnectionInactive
  ∧ length (pingsOn c (wire (tick order w))) = n.
Proof.
  intros Hst Hheard Hpinged Hp (Hc & Hact & Hinact & Hres & Hn).
  assert (Hq : quiet (thresholds w) c w).
  { eexists. split; [done|]. cbn [Status LastPacketIn withLastPingOut].
    split; [by rewrite Hst|].
    destruct (thresholds_values w) as (-> & _).
    unfold Before, Now, seconds, Second in *. apply Z.ltb_lt. lia. }
  assert (Hs : invalidatedInTick (thresholds w) (now w) p c (tick order w))
    by (apply peers_settle; [by left|done]).
  destruct Hs as (_ & _ & Hin' & Hout' & conn' & Hc' & Hst' & _).
  split; [done|]. split; [done|]. split; [unfold statusOf; by rewrite Hc', <- Hst'|].
  by rewrite (recentlyPinged_tick order w c _ Hc).
Qed.

Lemma autoPingAll_snoc (orders : list (list PeerPtr)) (order : list PeerPtr) (w : World) :
  autoPingAll (orders ++ [order]) w = tick order (Sleep Second (autoPingAll orders w)).
Proof. unfold autoPingAll. by rewrite foldl_app. Qed.

Lemma after_cases (heard pinged0 : Time) (k : nat) :
  (k < 11 ∧ pingedAfter heard pinged0 k = pinged0 ∧ pingsAfter k = 0)
  ∨ (11 ≤ k < 22 ∧ pingedAfter heard pinged0 k = (heard + seconds 11)%Z ∧ pingsAfter k = 1)
  ∨ (22 ≤ k ∧ pingedAfter heard pinged0 k = (heard + seconds 22)%Z ∧ pingsAfter k = 2).
Proof.
  unfold pingedAfter, pingsAfter.
  destruct (decide (k < 11)); [by left|]. destruct (decide (k < 22)); [right; left|right; right];
    (split; [lia|done]).
Qed.

(** The first 22 ticks after the last packet. *)
Lemma silent_timeline (orders : list (list PeerPtr)) (w : World) (p : PeerPtr) (c : ConnPtr)
    (conn : Connection) (k : nat) :
  Forall (λ order, p ∈ order) orders →
  Status conn = ConnectionActive →
  LastPacketIn conn = now w →
  (LastPingOut conn ≤ now w)%Z →
  silentActive p c conn (LastPingOut conn) (length (pingsOn c (wire w))) w →
  k ≤ 22 → k ≤ length orders →
  now (autoPingAll (take k orders) w) = (now w + seconds (Z.of_nat k))%Z
  ∧ silentActive p c conn (pingedAfter (now w) (LastPingOut conn) k)
      (length (pingsOn c (wire w)) + pingsAfter k) (autoPingAll (take k orders) w).
Proof.
  intros Horders Hst Hheard Hpinged Hw. induction k as [|k IH]; intros Hk Hlen.
  - rewrite take_0. unfold pingedAfter, pingsAfter, seconds. simpl.
    split; [lia|]. by rewrite Nat.add_0_r.
  - destruct IH as [Hnow Hk']; [lia|lia|].
    destruct (lookup_lt_is_Some_2 orders k) as [order Horder]; [lia|].
    rewrite (take_S_r _ _ _ Horder), autoPingAll_snoc.
    assert (Hp : p ∈ order).
    { rewrite Forall_forall in Horders. apply Horders. by eapply list_elem_of_lookup_2. }
    set (wk := autoPingAll (take k orders) w) in *.
    assert (Hnow' : now (Sleep Second wk) = (now w + seconds (Z.of_nat (S k)))%Z).
    { simpl. unfold Add. rewrite Hnow. unfold seconds. lia. }
    apply (silentActive_Sleep _ _ _ _ _ Second) in Hk'.
    assert (Hcalm : (now w + seconds (Z.of_nat (S k)) - seconds 22 ≤ now w)%Z)
      by (unfold seconds, Second; lia).
    destruct (after_cases (now w) (LastPingOut conn) k)
      as [(Hk1 & Hp1 & Hn1)|[(Hk1 & Hp1 & Hn1)|(Hk1 & Hp1 & Hn1)]];
      destruct (after_cases (now w) (LastPingOut conn) (S k))
        as [(Hk2 & Hp2 & Hn2)|[(Hk2 & Hp2 & Hn2)|(Hk2 & Hp2 & Hn2)]];
      try lia; rewrite Hp1, Hn1 in Hk'; rewrite Hp2, Hn2.
    + assert (Hwithin : withinThresholds (now (Sleep Second wk))
                          (withLastPingOut (LastPingOut conn) conn)).
      { unfold withinThresholds, invalidateAfter, pingAfter.
        cbn [Status LastPacketIn LastPingOut withLastPingOut].
        rewrite Hst, bool_decide_false by done. rewrite Hnow', Hheard.
        unfold seconds, Second in *. lia. }
      destruct (silent_within p c conn _ _ order _ Hwithin Hk') as [Hn Hs].
      split; [by rewrite Hn|done].
    + assert (Hheard' : (now (Sleep Second wk) - seconds 22 ≤ LastPacketIn conn
                           < now (Sleep Second wk) - seconds 10)%Z)
        by (rewrite Hnow', Hheard; unfold seconds, Second in *; lia).
      assert (Hpinged' : (LastPingOut conn < now (Sleep Second wk) - seconds 10)%Z)
        by (rewrite Hnow'; unfold seconds, Second in *; lia).
      destruct (silent_pinged p c conn _ _ order _ Hst Hheard' Hpinged' Hp Hk') as [Hn Hs].
      split; [by rewrite Hn|].
      rewrite Hnow' in Hs. replace (S k) with 11 in Hs by lia.
      replace (length (pingsOn c (wire w)) + 1) with (S (length (pingsOn c (wire w)) + 0))
        by lia. done.
    + assert (Hwithin : withinThresholds (now (Sleep Second wk))
                          (withLastPingOut (now w + seconds 11)%Z conn)).
      { unfold withinThresholds, invalidateAfter, pingAfter.
        cbn [Status LastPacketIn LastPingOut withLastPingOut].
        rewrite Hst, bool_decide_false by done. rewrite Hnow', Hheard.
        unfold seconds, Second in *. lia. }
      destruct (silent_within p c conn _ _ order _ Hwithin Hk') as [Hn Hs].
      split; [by rewrite Hn|done].
    + assert (Hheard' : (now (Sleep Second wk) - seconds 22 ≤ LastPacketIn conn
                           < now (Sleep Second wk) - seconds 10)%Z)
        by (rewrite Hnow', Hheard; unfold seconds, Second in *; lia).
      assert (Hpinged' : (now w + seconds 11 < now (Sleep Second wk) - seconds 10)%Z)
        by (rewrite Hnow'; unfold seconds, Second in *; lia).
      destruct (silent_pinged p c conn _ _ order _ Hst Hheard' Hpinged' Hp Hk') as [Hn Hs].
      split; [by rewrite Hn|].
      rewrite Hnow' in Hs. replace (S k) with 22 in Hs by lia.
      replace (length (pingsOn c (wire w)) + 2) with (S (length (pingsOn c (wire w)) + 1))
        by lia. done.
Qed.

(** X12: the keep-alive of a connection that falls silent, from the loop of
    [autoPingAll] ticking once a second. The connection was heard of just
    now, its sends succeed, and nothing is heard of it any more. For 22
    seconds it stays active: the ticks of the first 10 seconds send nothing
    on it, the tick at 11 seconds pings it, the one at 22 seconds pings it
    again, and no other tick does. The tick at 23 seconds moves it to the
    inactive list, without a ping. *)
Theorem silent_connection_pinged_twice_then_invalidated
    (orders : list (list PeerPtr)) (w : World) (p : PeerPtr) (c : ConnPtr) (conn : Connection) :
  length orders = 23 →
  Forall (λ order, p ∈ order) orders →
  connHeap w !! c = Some conn →
  Status conn = ConnectionActive →
  LastPacketIn conn = now w →
  (LastPingOut conn ≤ now w)%Z →
  c ∈ activeOf p w →
  (∀ q, c ∉ inactiveOf q w) →
  sendResults w = [] →
  (∀ k, k ≤ 22 →
     c ∈ activeOf p (autoPingAll (take k orders) w)
     ∧ statusOf c (autoPingAll (take k orders) w) = Some ConnectionActive
     ∧ length (pingsOn c (wire (autoPingAll (take k orders) w)))
       = length (pingsOn c (wire w)) + pingsAfter k)
  ∧ c ∈ inactiveOf p (autoPingAll orders w)
  ∧ (c ∉ activeOf p (autoPingAll orders w))
  ∧ statusOf c (autoPingAll orders w) = Some ConnectionInactive
  ∧ length (pingsOn c (wire (autoPingAll orders w))) = length (pingsOn c (wire w)) + 2.
Proof.
  intros Hlen Horders Hc Hst Hheard Hpinged Hact Hinact Hres.
  assert (Hw : silentActive p c conn (LastPingOut conn) (length (pingsOn c (wire w))) w).
  { split; [by destruct conn|]. done. }
  split.
  - intros k Hk.
    destruct (silent_timeline orders w p c conn k Horders Hst Hheard Hpinged Hw Hk)
      as [_ (Hc' & Hact' & _ & _ & Hn)]; [lia|].
    split; [done|]. split; [|done]. unfold statusOf. rewrite Hc'. simpl. by rewrite Hst.
  - destruct (silent_timeline orders w p c conn 22 Horders Hst Hheard Hpinged Hw)
      as [Hnow Hs]; [lia|lia|].
    destruct (lookup_lt_is_Some_2 orders 22) as [order Horder]; [lia|].
    assert (Hall : orders = take 22 orders ++ [order]).
    { rewrite <- (take_S_r _ _ _ Horder). symmetry. apply take_ge. lia. }
    rewrite Hall at 1 2 3 4. rewrite autoPingAll_snoc.
    assert (Hp : p ∈ order).
    { rewrite Forall_forall in Horders. apply Horders. by eapply list_elem_of_lookup_2. }
    apply (silentActive_Sleep _ _ _ _ _ Second) in Hs.
    destruct (after_cases (now w) (LastPingOut conn) 22)
      as [(? & _)|[(? & _)|(_ & Hp22 & Hn22)]]; [lia|lia|].
    rewrite Hp22, Hn22 in Hs.
    apply (silent_invalidated p c conn (now w + seconds 22)%Z
             (length (pingsOn c (wire w)) + 2) order
             (Sleep Second (autoPingAll (take 22 orders) w)) Hst); [| |done|done].
    + cbn [now Sleep]. unfold Add. rewrite Hnow, Hheard. unfold seconds, Second. lia.
    + cbn [now Sleep]. unfold Add. rewrite Hnow. unfold seconds, Second. lia.
Qed.

(** ** The handlers and the chat *)

Section HandlersRest.
Context `{Btcec}.

(** A packet sent changes the wire and the answers to come, nothing else. *)
Lemma send_frame (p : PeerPtr) (packet : PacketRaw) (w : World) :
  peerList (send p packet w).2 = peerList w
  ∧ peerHeap (send p packet w).2 = peerHeap w
  ∧ connHeap (send p packet w).2 = connHeap w
  ∧ now (send p packet w).2 = now w.
Proof.
  unfold send. destruct (peerHeap w !! p) as [info|]; [|done].
  by destruct (connectionLatest info).
Qed.

Lemma send_wire (p : PeerPtr) (packet : PacketRaw) (w : World) :
  (send p packet w).2 =
    match latestOf p w with
    | Some c => (sendConnection p packet c w).2
    | None => w
    end.
Proof.
  unfold send, latestOf. destruct (peerHeap w !! p) as [info|]; [|done]. simpl.
  by destruct (connectionLatest info).
Qed.

(** X13: a Response never triggers a packet. From an identity not yet known
    it registers the sender, with the connection of the packet as its only
    active and its preferred connection; from a known peer, and from an
    identity registered meanwhile, it changes nothing. *)
Theorem cmdResponse_registers_silently (msg : packet2) (w : World) :
  (∀ peer, wire (cmdResponse peer msg w) = wire w)
  ∧ (∀ p, cmdResponse (Some p) msg w = w)
  ∧ (∀ p, PeerlistLookup (SenderPublicKey msg) w = Some p → cmdResponse None msg w = w)
  ∧ (PeerlistLookup (SenderPublicKey msg) w = None →
       ∃ p info,
         PeerlistLookup (SenderPublicKey msg) (cmdResponse None msg w) = Some p
         ∧ peerHeap w !! p = None
         ∧ peerHeap (cmdResponse None msg w) !! p = Some info
         ∧ PublicKey info = SenderPublicKey msg
         ∧ connectionActive info = [connection msg]
         ∧ connectionInactive info = []
         ∧ connectionLatest info = Some (connection msg)
         ∧ PeerlistCount (cmdResponse None msg w) = S (PeerlistCount w)).
Proof.
  unfold PeerlistLookup. split; [|split; [done|split]].
  - intros [p|]; [done|]. unfold cmdResponse, PeerlistAdd.
    by destruct (peerList w !! _).
  - intros p Hk. unfold cmdResponse. by rewrite (PeerlistAdd_known _ _ _ p).
  - intros Hk. unfold cmdResponse. rewrite (PeerlistAdd_new _ _ _ _ Hk).
    unfold PeerlistCount. simpl. eexists _, _.
    split; [apply lookup_insert_eq|]. split; [by apply lookup_ge_None|].
    split; [by apply list_lookup_middle|]. simpl.
    rewrite map_size_insert_None by done. done.
Qed.


Lemma cmdAnouncement_registered (msg : packet2) (w : World) (p : PeerPtr) :
  peerList w !! publicKey2Compressed (SenderPublicKey msg) = Some p →
  cmdAnouncement None msg w = w.
Proof. intros Hk. unfold cmdAnouncement. by rewrite (PeerlistAdd_known _ _ _ p). Qed.

(** X15: a second Announcement of an identity, received on whatever
    connection, creates no second record and does not add its connection to
    the peer: the peer resolved by [PeerlistLookup] is the one of the first
    Announcement, the registry is unchanged, and the second Response goes out
    on the connection of the first Announcement. Dispatched for the [nil]
    peer (the sender resolved before the first Announcement registered it),
    the second Announcement is dropped without a Response. *)
Theorem cmdAnouncement_repeated (msg msg' : packet2) (w : World) :
  PeerlistLookup (SenderPublicKey msg) w = None →
  publicKey2Compressed (SenderPublicKey msg') = publicKey2Compressed (SenderPublicKey msg) →
  ∃ p info,
    PeerlistLookup (SenderPublicKey msg') (cmdAnouncement None msg w) = Some p
    ∧ peerHeap (cmdAnouncement None msg w) !! p = Some info
    ∧ peerHeap (cmdAnouncement (Some p) msg' (cmdAnouncement None msg w)) !! p = Some info
    ∧ connectionActive info = [connection msg]
    ∧ peerList (cmdAnouncement (Some p) msg' (cmdAnouncement None msg w))
      = peerList (cmdAnouncement None msg w)
    ∧ PeerlistCount (cmdAnouncement (Some p) msg' (cmdAnouncement None msg w))
      = S (PeerlistCount w)
    ∧ wire (cmdAnouncement (Some p) msg' (cmdAnouncement None msg w))
      = wire w ++ [{| txPeer := p; txConnection := connection msg;
                      txPacket := responsePacket; txResult := answer 0 w |};
                   {| txPeer := p; txConnection := connection msg;
                      txPacket := responsePacket; txResult := answer 1 w |}]
    ∧ cmdAnouncement None msg' (cmdAnouncement None msg w) = cmdAnouncement None msg w.
Proof.
  intros Hk Hkey. unfold PeerlistLookup in *. rewrite Hkey.
  set (info := {| PublicKey := SenderPublicKey msg; connectionActive := [connection msg];
                  connectionInactive := []; connectionLatest := Some (connection msg);
                  StatsPacketSent := 0; StatsPacketReceived := 0 |}).
  assert (Hw1 : cmdAnouncement None msg w
          = (sendConnection (length (peerHeap w)) responsePacket (connection msg)
               (setPeerList (<[publicKey2Compressed (SenderPublicKey msg) :=
                                 length (peerHeap w)]> (peerList w))
                  (setPeerHeap (peerHeap w ++ [info]) w))).2).
  { unfold cmdAnouncement. rewrite (PeerlistAdd_new _ _ _ _ Hk).
    fold info.
    erewrite send_on_latest; [done|simpl; by apply list_lookup_middle|done]. }
  set (w1 := cmdAnouncement None msg w) in *.
  assert (Hp : peerHeap w1 !! length (peerHeap w) = Some info)
    by (rewrite Hw1; simpl; by apply list_lookup_middle).
  assert (Hl : peerList w1 !! publicKey2Compressed (SenderPublicKey msg)
               = Some (length (peerHeap w)))
    by (rewrite Hw1; simpl; apply lookup_insert_eq).
  exists (length (peerHeap w)), info.
  split; [done|]. split; [done|].
  rewrite cmdAnouncement_known.
  rewrite (send_on_latest _ _ _ _ _ Hp eq_refl). simpl.
  split; [done|]. split; [done|]. split; [done|]. split; [|split].
  - unfold PeerlistCount. rewrite Hw1. simpl. by rewrite map_size_insert_None.
  - rewrite Hw1. simpl. rewrite <- app_assoc. simpl. unfold answer.
    by destruct (sendResults w) as [|e [|e' l]].
  - apply (cmdAnouncement_registered _ _ (length (peerHeap w))). by rewrite Hkey.
Qed.

Lemma SendChatAll_cons (p : PeerPtr) (order : list PeerPtr) (text : string) (w : World) :
  SendChatAll (p :: order) text w = SendChatAll order text (send p (chatPacket text) w).2.
Proof. reflexivity. Qed.

(** The chats of [SendChatAll], for any world with the same peers. *)
Lemma SendChatAll_wire (order : list PeerPtr) (text : string) (w0 w : World) :
  peerHeap w = peerHeap w0 →
  peerHeap (SendChatAll order text w) = peerHeap w0
  ∧ peerList (SendChatAll order text w) = peerList w
  ∧ connHeap (SendChatAll order text w) = connHeap w
  ∧ now (SendChatAll order text w) = now w
  ∧ wire (SendChatAll order text w)
    = wire w ++ imap (chatTo text (setPeerHeap (peerHeap w0) w))
                     (filter (λ p, is_Some (latestOf p w0)) order).
Proof.
  revert w. induction order as [|p order IH]; intros w Hheap.
  - simpl. by rewrite app_nil_r.
  - rewrite !SendChatAll_cons, send_wire.
    replace (latestOf p w) with (latestOf p w0) by (unfold latestOf; by rewrite Hheap).
    destruct (latestOf p w0) as [c|] eqn:Hc.
    + rewrite filter_cons_True by (by eexists).
      destruct (IH (sendConnection p (chatPacket text) c w).2 Hheap)
        as (Hh & Hl & Hc' & Hn & Hw).
      rewrite Hh, Hl, Hc', Hn, Hw. simpl.
      split; [done|]. split; [done|]. split; [done|]. split; [done|].
      rewrite <- app_assoc. f_equal. simpl. f_equal.
      * unfold chatTo, answer.
        change (latestOf p (setPeerHeap (peerHeap w0) w)) with (latestOf p w0).
        rewrite Hc. simpl. destruct (sendResults w); reflexivity.
      * apply imap_ext. intros i q _. unfold chatTo, answer, compose. simpl.
        f_equal. destruct (sendResults w); reflexivity.
    + rewrite filter_cons_False by (rewrite Hc; by intros [? ?]). by apply IH.
Qed.

(** X16: [SendChatAll] sends one chat packet, carrying the bytes of the
    text, to each peer it visits that has a preferred connection, in the
    order of the visit and on that connection, the [i]-th one receiving the
    [i]-th answer of the operating system; it sends nothing else and changes
    neither the registry nor any peer or connection. Visiting the peers of
    [PeerlistGet], each of which has a preferred connection, it sends
    exactly [PeerlistCount] packets. *)
Theorem SendChatAll_one_chat_per_peer (order : list PeerPtr) (text : string) (w : World) :
  wire (SendChatAll order text w)
  = wire w ++ imap (chatTo text w) (filter (λ p, is_Some (latestOf p w)) order)
  ∧ peerHeap (SendChatAll order text w) = peerHeap w
  ∧ peerList (SendChatAll order text w) = peerList w
  ∧ connHeap (SendChatAll order text w) = connHeap w
  ∧ (order ≡ₚ PeerlistGet w → reachable order w →
       length (wire (SendChatAll order text w)) = length (wire w) + PeerlistCount w).
Proof.
  destruct (SendChatAll_wire order text w w eq_refl) as (Hh & Hl & Hc & _ & Hw).
  replace (setPeerHeap (peerHeap w) w) with w in Hw by (by destruct w).
  split; [done|]. split; [done|]. split; [done|]. split; [done|].
  intros Horder Hreach. rewrite Hw, length_app, length_imap. f_equal.
  replace (filter (λ p, is_Some (latestOf p w)) order) with order.
  - rewrite Horder. unfold PeerlistGet, PeerlistCount.
    by rewrite length_fmap, length_map_to_list.
  - symmetry. clear Hw Horder Hh Hl Hc. induction order as [|p order IH]; [done|].
    rewrite filter_cons_True.
    + f_equal. apply IH. intros q Hq. apply Hreach. by right.
    + destruct (Hreach p) as (info & c & Hp & Hlatest); [left|].
      unfold latestOf. rewrite Hp. simpl. by eexists.
Qed.

(** The registry stays in order under everything a node does. *)
Lemma send_registryOk (p : PeerPtr) (packet : PacketRaw) (w : World) :
  registryOk w → registryOk (send p packet w).2.
Proof.
  intros Hok k q. destruct (send_frame p packet w) as (-> & -> & _). apply Hok.
Qed.

Lemma PeerlistRemove_registryOk (p : PeerPtr) (w : World) :
  registryOk w → registryOk (PeerlistRemove p w).
Proof.
  intros Hok. unfold PeerlistRemove. destruct (peerHeap w !! p) as [info|]; [|done].
  intros k q. simpl. rewrite lookup_delete_Some. intros [_ Hk]. by apply Hok.
Qed.

Lemma roundOutcome_PublicKey (th : Thresholds) (q : PeerPtr) (d : ConnPtr) (w w' : World)
    (p : PeerPtr) :
  roundOutcome th q d w w' →
  PublicKey <$> peerHeap w' !! p = PublicKey <$> peerHeap w !! p.
Proof.
  assert (Hinv : ∀ w1, PublicKey <$> peerHeap (invalidateActiveConnection q d w1) !! p
                       = PublicKey <$> peerHeap w1 !! p).
  { intros w1. rewrite invalidate_peerHeap, list_lookup_alter.
    case_decide; [|done]. subst. by destruct (peerHeap w1 !! p). }
  destruct 1; [done|apply Hinv|done|by rewrite Hinv|].
  rewrite remove_peerHeap, list_lookup_alter.
  case_decide; [|done]. subst. by destruct (peerHeap w !! p).
Qed.

Lemma registryOk_same_keys (w w' : World) :
  peerList w' = peerList w →
  (∀ p, PublicKey <$> peerHeap w' !! p = PublicKey <$> peerHeap w !! p) →
  registryOk w → registryOk w'.
Proof.
  intros Hl Hkeys Hok k p. rewrite Hl. intros Hk. specialize (Hok k p Hk).
  specialize (Hkeys p).
  destruct (peerHeap w !! p) as [info|]; [|done].
  destruct (peerHeap w' !! p) as [info'|]; [|done].
  simpl in *. injection Hkeys as ->. done.
Qed.

Lemma tick_registryOk (order : list PeerPtr) (w : World) :
  registryOk w → registryOk (tick order w).
Proof.
  apply tick_invariant. intros q d w1 w2 _ Hout.
  apply registryOk_same_keys.
  - by destruct (roundOutcome_now _ _ _ _ _ Hout).
  - intros p. by apply (roundOutcome_PublicKey _ _ _ _ _ p Hout).
Qed.

Lemma act_registryOk (a : Action) (w : World) : registryOk w → registryOk (act w a).
Proof.
  intros Hok. destruct a as [pk conns|p|peer msg|peer msg|peer msg|peer msg|order|order text];
    simpl.
  - by apply PeerlistAdd_registryOk.
  - by apply PeerlistRemove_registryOk.
  - unfold cmdAnouncement. destruct peer as [p|]; [by apply send_registryOk|].
    pose proof (PeerlistAdd_registryOk (SenderPublicKey msg) [connection msg] w Hok) as Hadd.
    destruct (PeerlistAdd _ _ w) as [[[p|] added] w1]; simpl in Hadd;
      destruct added; try done. by apply send_registryOk.
  - unfold cmdResponse. destruct peer; [done|]. by apply PeerlistAdd_registryOk.
  - unfold cmdPing. destruct peer; [|done]. by apply send_registryOk.
  - done.
  - apply tick_registryOk. intros k p. apply Hok.
  - unfold SendChatAll. apply foldl_invariant; [done|].
    intros w' p _. apply send_registryOk.
Qed.

(** X17: at most one record per identity, at all times. Whatever a node does
    from its start, in whatever order (peers added and removed, packets
    handled for whatever peer they were resolved to, ticks of the scheduler,
    chats), every entry of the registry points to a record with the entry's
    identity, no record is registered twice, and no identity has more than
    one record. *)
Theorem registry_in_order_at_all_times
    (actions : list Action) (t : Time) (conns : list Connection) (answers : list error) :
  registryOk (run actions (emptyWorld t conns answers))
  ∧ NoDup (PeerlistGet (run actions (emptyWorld t conns answers)))
  ∧ ∀ k, length (recordsOf k (run actions (emptyWorld t conns answers))) ≤ 1.
Proof.
  assert (Hok : registryOk (run actions (emptyWorld t conns answers))).
  { unfold run. apply foldl_invariant; [apply registryOk_empty|].
    intros w a _. apply act_registryOk. }
  split; [done|]. split; [by apply registryOk_NoDup|].
  intros k. by apply recordsOf_at_most_one.
Qed.

End HandlersRest.

(** ** Removing listeners, for any test of the listener *)

(** [removeFromList], cell by cell: the cells from [n] up to the last but one
    of the list take the value of their right neighbour, all others keep
    theirs; the list is one shorter, or cut at [n]. *)
Lemma removeFromList_cells (s : Slice) (n : nat) :
  len s ≤ cap s → n < cap s →
  ∃ s', removeFromList s n = Some s'
        ∧ cap s' = cap s
        ∧ len s' = (if decide (n + 1 < len s) then len s - 1 else n)
        ∧ ∀ i, backing s' !! i
               = backing s !! (if decide (n ≤ i ∧ i + 1 < len s) then S i else i).
Proof.
  intros Hlen Hn. unfold removeFromList, sliceTo.
  rewrite decide_True by lia. cbn [mbind option_bind].
  destruct (decide (Z.of_nat n < Z.of_nat (len s) - 1)%Z) as [Hlt|Hge].
  - unfold sliceFrom. rewrite decide_True by lia. cbn [mbind option_bind].
    assert (Htail : length (drop (n + 1) (elements s)) = len s - (n + 1)).
    { unfold elements. rewrite length_drop, length_take. unfold cap in Hlen. lia. }
    unfold append, cap in *. cbn [len backing].
    destruct (decide _) as [_|Hno]; [|lia].
    eexists. split; [done|]. cbn [backing len].
    split; [rewrite !length_app, length_take, Htail, length_drop; lia|].
    split; [rewrite Htail, decide_True by lia; lia|].
    intros i. rewrite Htail.
    destruct (decide (n ≤ i ∧ i + 1 < len s)) as [[Hi1 Hi2]|Hi].
    + rewrite lookup_app_r by (rewrite length_take; lia).
      rewrite length_take, Nat.min_l by lia.
      rewrite lookup_app_l by (rewrite Htail; lia).
      unfold elements. rewrite lookup_drop, lookup_take_lt by lia. f_equal. lia.
    + destruct (decide (i < n)) as [Hin|Hin].
      * rewrite lookup_app_l by (rewrite length_take; lia).
        by rewrite lookup_take_lt by lia.
      * rewrite lookup_app_r by (rewrite length_take; lia).
        rewrite length_take, Nat.min_l by lia.
        rewrite lookup_app_r by (rewrite Htail; lia).
        rewrite Htail, lookup_drop. f_equal. lia.
  - eexists. split; [done|]. unfold cap. cbn [backing len].
    split; [done|]. split; [rewrite decide_False by lia; done|].
    intros i. rewrite decide_False by lia. done.
Qed.

Lemma elem_of_elements (s : Slice) (x : NetPtr) :
  x ∈ elements s ↔ ∃ i, i < len s ∧ backing s !! i = Some x.
Proof.
  unfold elements. rewrite list_elem_of_lookup. split.
  - intros [i Hi]. apply lookup_take_Some in Hi as [Hi Hlt]. eauto.
  - intros (i & Hlt & Hi). exists i. by rewrite lookup_take_lt.
Qed.

Section RemoveBy.
Variable matches : NetPtr → bool.

Lemma removeInv_start (s0 : Slice) (log0 : list NetPtr) :
  len s0 ≤ cap s0 → removeInv matches s0 log0 (s0, log0).
Proof.
  intros Hlen. split; [done|]. split; [done|]. split; [|split; [done|]].
  - intros i x Hi Hx. apply elem_of_elements. eauto.
  - exists []. by rewrite app_nil_r.
Qed.

Lemma removeInv_round (s0 : Slice) (log0 : list NetPtr) (st : Slice * list NetPtr) (n : nat) :
  len s0 ≤ cap s0 → n < len s0 →
  removeInv matches s0 log0 st →
  ∃ st', removeRoundBy matches (Some st) n = Some st' ∧ removeInv matches s0 log0 st'.
Proof.
  intros Hlen0 Hn (Hcap & Hlen & Hcells & Hkeep & ts & Hlog & Hts).
  destruct st as [s log]. simpl in *. unfold removeRoundBy. cbn [mbind option_bind].
  destruct (lookup_lt_is_Some_2 (backing s) n) as [x Hx]; [unfold cap in *; lia|].
  rewrite Hx. destruct (matches x) eqn:Hm.
  - destruct (removeFromList_cells s n) as (s' & -> & Hcap' & Hlen' & Hcells'); [lia|lia|].
    cbn [mbind option_bind]. eexists. split; [done|]. unfold removeInv. cbn [fst snd].
    split; [lia|]. split; [destruct (decide (n + 1 < len s)); lia|]. split; [|split].
    + intros i y Hi. rewrite Hcells'.
      destruct (decide (n ≤ i ∧ i + 1 < len s)); apply Hcells; lia.
    + intros y Hy Hmy. specialize (Hkeep y Hy Hmy).
      apply elem_of_elements in Hkeep as (j & Hj & Hjy).
      assert (Hjn : j ≠ n) by (intros ->; rewrite Hx in Hjy; injection Hjy as ->; congruence).
      apply elem_of_elements. rewrite Hlen'.
      destruct (decide (n + 1 < len s)) as [Hcase|Hcase].
      * destruct (decide (j < n)) as [Hlt|Hge].
        -- exists j. split; [lia|]. rewrite Hcells'. by rewrite decide_False by lia.
        -- exists (j - 1). split; [lia|]. rewrite Hcells'. rewrite decide_True by lia.
           by replace (S (j - 1)) with j by lia.
      * exists j. split; [lia|]. rewrite Hcells'. by rewrite decide_False by lia.
    + exists (ts ++ [x]). unfold Terminate. rewrite Hlog, app_assoc. split; [done|].
      apply Forall_app. split; [done|]. apply Forall_singleton. split; [done|].
      by apply (Hcells n).
  - eexists. split; [done|]. simpl. repeat split; try done. by exists ts.
Qed.

Lemma removeInv_rounds (s0 : Slice) (log0 : list NetPtr) (ns : list nat)
    (st : Slice * list NetPtr) :
  len s0 ≤ cap s0 → Forall (λ n, n < len s0) ns →
  removeInv matches s0 log0 st →
  ∃ st', foldl (removeRoundBy matches) (Some st) ns = Some st' ∧ removeInv matches s0 log0 st'.
Proof.
  intros Hlen0. revert st. induction ns as [|n ns IH]; intros st Hns Hst; [by eexists|].
  apply Forall_cons in Hns as [Hn Hns]. cbn [foldl].
  destruct (removeInv_round s0 log0 st n Hlen0 Hn Hst) as (st' & -> & Hst').
  by apply IH.
Qed.

(** The loop, whatever the test: it does not panic; what it terminates are
    listeners of the list that pass the test; the listeners that fail the
    test stay in the list; no listener enters the list; the list does not
    grow. *)
Lemma removeLoopBy_sound (s0 : Slice) (log0 : list NetPtr) :
  len s0 ≤ cap s0 →
  ∃ s' ts,
    removeLoopBy matches s0 log0 = Some (s', log0 ++ ts)
    ∧ len s' ≤ cap s'
    ∧ len s' ≤ len s0
    ∧ Forall (λ x, matches x = true ∧ x ∈ elements s0) ts
    ∧ (∀ x, x ∈ elements s0 → matches x = false → x ∈ elements s')
    ∧ (∀ x, x ∈ elements s' → x ∈ elements s0).
Proof.
  intros Hlen0. unfold removeLoopBy.
  destruct (removeInv_rounds s0 log0 (seq 0 (len s0)) (s0, log0) Hlen0)
    as ([s' log'] & -> & Hcap & Hlen & Hcells & Hkeep & ts & Hlog & Hts).
  { apply Forall_forall. intros n Hn. apply elem_of_seq in Hn. lia. }
  { by apply removeInv_start. }
  simpl in *. subst log'. exists s', ts. split; [done|]. split; [lia|]. split; [done|].
  split; [done|]. split; [done|].
  intros x Hx. apply elem_of_elements in Hx as (i & Hi & Hx). apply (Hcells i); [lia|done].
Qed.

(** A list with exactly one listener that passes the test: the loop
    terminates it, once, and takes it out of the list; the others stay, in
    their order. *)
Lemma removeLoopBy_single (s0 : Slice) (log0 : list NetPtr) (l1 l2 : list NetPtr) (a : NetPtr) :
  len s0 ≤ cap s0 →
  elements s0 = l1 ++ a :: l2 →
  Forall (λ x, matches x = false) (l1 ++ l2) →
  matches a = true →
  ∃ s', removeLoopBy matches s0 log0 = Some (s', log0 ++ [a])
        ∧ len s' ≤ cap s'
        ∧ elements s' = l1 ++ l2.
Proof.
  intros Hlen0 Hel Hothers Ha. apply Forall_app in Hothers as [H1 H2].
  rewrite Forall_forall in H1, H2.
  assert (Hlen : len s0 = length l1 + S (length l2)).
  { apply (f_equal length) in Hel. unfold elements in Hel.
    rewrite length_take, length_app in Hel. simpl in Hel. unfold cap in Hlen0. lia. }
  assert (Hcell : ∀ i, i < len s0 → backing s0 !! i = (l1 ++ a :: l2) !! i).
  { intros i Hi. rewrite <- Hel. unfold elements. by rewrite lookup_take_lt. }
  unfold removeLoopBy. rewrite Hlen, seq_app, foldl_app. cbn [seq foldl Nat.add].
  assert (Hskip : ∀ (s : Slice) (log : list NetPtr) (ns : list nat),
            (∀ n, n ∈ ns → ∃ x, backing s !! n = Some x ∧ matches x = false) →
            foldl (removeRoundBy matches) (Some (s, log)) ns = Some (s, log)).
  { intros s log ns. induction ns as [|n ns IH]; intros Hns; [done|]. cbn [foldl].
    destruct (Hns n) as (x & Hn & Hx); [left|].
    unfold removeRoundBy at 2. cbn [mbind option_bind]. rewrite Hn, Hx.
    apply IH. intros m Hm. apply Hns. by right. }
  rewrite Hskip.
  2:{ intros n Hn. apply elem_of_seq in Hn as [_ Hn].
      destruct (lookup_lt_is_Some_2 l1 n) as [x Hx]; [lia|].
      exists x. rewrite Hcell by lia. split; [by apply lookup_app_l_Some|].
      apply H1. by eapply list_elem_of_lookup_2. }
  unfold removeRoundBy at 2. cbn [mbind option_bind].
  rewrite Hcell by lia. rewrite list_lookup_middle by done. rewrite Ha.
  destruct (removeFromList_cells s0 (length l1)) as (s' & -> & Hcap' & Hlen' & Hcells');
    [done|lia|].
  cbn [mbind option_bind]. unfold Terminate.
  assert (Hlen'' : len s' = length l1 + length l2).
  { rewrite Hlen'. destruct (decide _); lia. }
  assert (Hcell' : ∀ i, length l1 < i → i < len s0 →
            ∃ x, backing s' !! i = Some x ∧ x ∈ l2).
  { intros i Hi1 Hi2. rewrite Hcells'.
    destruct (decide (length l1 ≤ i ∧ i + 1 < len s0)) as [Hmid|Hlast].
    - rewrite Hcell by lia.
      destruct (lookup_lt_is_Some_2 l2 (i - length l1)) as [x Hx]; [lia|].
      exists x. split; [|by eapply list_elem_of_lookup_2].
      rewrite lookup_app_r by lia.
      replace (S i - length l1) with (S (i - length l1)) by lia. done.
    - rewrite Hcell by lia.
      destruct (lookup_lt_is_Some_2 l2 (i - length l1 - 1)) as [x Hx]; [lia|].
      exists x. split; [|by eapply list_elem_of_lookup_2].
      rewrite lookup_app_r by lia.
      replace (i - length l1) with (S (i - length l1 - 1)) by lia. done. }
  exists s'. split; [|split; [unfold cap in *; lia|]].
  - apply Hskip. intros n Hn. apply elem_of_seq in Hn as [Hn1 Hn2].
    destruct (Hcell' n) as (x & Hx & Hin); [lia|lia|].
    exists x. split; [done|]. by apply H2.
  - apply list_eq. intros i. unfold elements.
    destruct (decide (i < len s')) as [Hi|Hi].
    + rewrite lookup_take_lt by done. rewrite Hcells'.
      destruct (decide (length l1 ≤ i ∧ i + 1 < len s0)) as [Hmid|Hlow].
      * rewrite Hcell by lia. rewrite !lookup_app_r by lia.
        by replace (S i - length l1) with (S (i - length l1)) by lia.
      * rewrite Hcell by lia. rewrite !lookup_app_l by lia. done.
    + rewrite lookup_take_ge by lia. symmetry. apply lookup_ge_None.
      rewrite length_app. lia.
Qed.

End RemoveBy.

Lemma removeLoop_By (heap : list Network) (ifaceName : string) (s : Slice) (log : list NetPtr) :
  removeLoop heap ifaceName s log = removeLoopBy (ownedBy heap ifaceName) s log.
Proof. reflexivity. Qed.

Lemma removeLoopBy_none (matches : NetPtr → bool) (s0 : Slice) (log0 : list NetPtr) :
  len s0 ≤ cap s0 →
  Forall (λ x, matches x = false) (elements s0) →
  removeLoopBy matches s0 log0 = Some (s0, log0).
Proof.
  intros Hlen Hall. rewrite Forall_forall in Hall. unfold removeLoopBy.
  assert (Hns : ∀ n, n ∈ seq 0 (len s0) → n < len s0)
    by (intros n Hn; apply elem_of_seq in Hn; lia).
  induction (seq 0 (len s0)) as [|n ns IH]; [done|]. cbn [foldl].
  destruct (lookup_lt_is_Some_2 (backing s0) n) as [x Hx].
  { specialize (Hns n (list_elem_of_here _ _)). unfold cap in Hlen. lia. }
  unfold removeRoundBy at 2. cbn [mbind option_bind]. rewrite Hx.
  rewrite Hall.
  - apply IH. intros m Hm. apply Hns. by right.
  - apply elem_of_elements. exists n. split; [apply Hns; left|done].
Qed.

(** At most one element of a list passes a test: none does, or the list
    splits around the one that does. *)
Lemma filter_at_most_one {A} (P : A → bool) (l : list A) :
  length (filter (λ x, P x = true) l) ≤ 1 →
  Forall (λ x, P x = false) l
  ∨ ∃ l1 a l2, l = l1 ++ a :: l2 ∧ P a = true ∧ Forall (λ x, P x = false) (l1 ++ l2).
Proof.
  induction l as [|x l IH]; intros Hle; [by left|].
  destruct (P x) eqn:Hx.
  - rewrite filter_cons_True in Hle by done. simpl in Hle. right.
    exists [], x, l. split; [done|]. split; [done|]. simpl.
    apply Forall_forall. intros y Hy. destruct (P y) eqn:Hy'; [|done].
    assert (y ∈ filter (λ x, P x = true) l) as Hin by (by apply list_elem_of_filter).
    destruct (filter (λ x, P x = true) l); [by apply elem_of_nil in Hin|simpl in Hle; lia].
  - rewrite filter_cons_False in Hle by congruence.
    destruct (IH Hle) as [Hall|(l1 & a & l2 & -> & Ha & Hall)].
    + left. by constructor.
    + right. exists (x :: l1), a, l2. split; [done|]. split; [done|]. by constructor.
Qed.

Lemma filter_all {A} (P : A → Prop) `{∀ x, Decision (P x)} (l : list A) :
  Forall P l → filter P l = l.
Proof.
  induction 1 as [|x l Hx _ IH]; [done|]. by rewrite filter_cons_True, IH.
Qed.

(** With at most one listener that passes the test, the loop is exact. *)
Lemma removeLoopBy_exact (matches : NetPtr → bool) (s0 : Slice) (log0 : list NetPtr) :
  len s0 ≤ cap s0 →
  length (filter (λ x, matches x = true) (elements s0)) ≤ 1 →
  ∃ s', removeLoopBy matches s0 log0
        = Some (s', log0 ++ filter (λ x, matches x = true) (elements s0))
        ∧ len s' ≤ cap s'
        ∧ elements s' = filter (λ x, matches x = false) (elements s0).
Proof.
  intros Hlen Hone.
  destruct (filter_at_most_one matches _ Hone) as [Hall|(l1 & a & l2 & Hel & Ha & Hall)].
  - exists s0. rewrite (removeLoopBy_none _ _ _ Hlen Hall).
    rewrite (filter_none (λ x, matches x = true)), app_nil_r.
    + split; [done|]. split; [done|]. by rewrite filter_all.
    + rewrite Forall_forall in Hall. intros x Hx. rewrite (Hall x Hx). done.
  - destruct (removeLoopBy_single matches s0 log0 l1 l2 a Hlen Hel Hall Ha)
      as (s' & -> & Hlen' & Hel').
    exists s'. rewrite Hel, Hel'. apply Forall_app in Hall as [H1 H2].
    rewrite !filter_app, !filter_cons_True by done.
    rewrite filter_cons_False by congruence.
    rewrite !(filter_none (λ x, matches x = true)).
    + rewrite !filter_all by done. done.
    + rewrite Forall_forall in H2. intros x Hx. rewrite (H2 x Hx). done.
    + rewrite Forall_forall in H1. intros x Hx. rewrite (H1 x Hx). done.
Qed.

Section RemovalHandlers.
Context `{NetLib}.

(** Both handlers are two loops, one per list, with the log handed on. *)
Lemma two_loops_sound (matches : NetPtr → bool) (s6 s4 : Slice) (log : list NetPtr) :
  len s6 ≤ cap s6 → len s4 ≤ cap s4 →
  ∃ n6 n4 ts,
    (removeLoopBy matches s6 log ≫= λ '(n6, log6),
       removeLoopBy matches s4 log6 ≫= λ '(n4, log4), Some (n6, n4, log4))
    = Some (n6, n4, log ++ ts)
    ∧ (len n6 ≤ cap n6 ∧ len n4 ≤ cap n4)
    ∧ Forall (λ x, matches x = true ∧ (x ∈ elements s6 ∨ x ∈ elements s4)) ts
    ∧ (∀ x, matches x = false →
            (x ∈ elements s6 → x ∈ elements n6) ∧ (x ∈ elements s4 → x ∈ elements n4))
    ∧ (∀ x, (x ∈ elements n6 → x ∈ elements s6) ∧ (x ∈ elements n4 → x ∈ elements s4)).
Proof.
  intros H6 H4.
  destruct (removeLoopBy_sound matches s6 log H6)
    as (n6 & ts6 & -> & Hl6 & _ & Hts6 & Hkeep6 & Hsub6).
  cbn [mbind option_bind].
  destruct (removeLoopBy_sound matches s4 (log ++ ts6) H4)
    as (n4 & ts4 & -> & Hl4 & _ & Hts4 & Hkeep4 & Hsub4).
  cbn [mbind option_bind].
  exists n6, n4, (ts6 ++ ts4). rewrite app_assoc. split; [done|]. split; [done|].
  split; [|split].
  - apply Forall_app. split; eapply Forall_impl; eauto; simpl; intros x [? ?]; auto.
  - intros x Hx. split; intros Hin; [by apply Hkeep6|by apply Hkeep4].
  - intros x. split; intros Hin; [by apply Hsub6|by apply Hsub4].
Qed.

(** X18: neither removal handler panics; what they terminate are listeners
    of the two lists that pass the handler's test (owned by the interface,
    bound to the IP); every listener that fails the test stays in its list,
    so a listener opened on a wildcard address, which has no interface, is
    never taken out by the removal of an interface; no listener enters a
    list; and the lists remain fit for the next removal. *)
Theorem removal_terminates_matching_listeners_only (st : NetState) :
  len (networks6 st) ≤ cap (networks6 st) →
  len (networks4 st) ≤ cap (networks4 st) →
  (∀ ifaceName, ∃ st' ts,
     networkChangeInterfaceRemove ifaceName st = Some st'
     ∧ listeners st' = listeners st
     ∧ terminated st' = terminated st ++ ts
     ∧ (len (networks6 st') ≤ cap (networks6 st') ∧ len (networks4 st') ≤ cap (networks4 st'))
     ∧ Forall (λ x, ownedBy (listeners st) ifaceName x = true
                    ∧ (x ∈ elements (networks6 st) ∨ x ∈ elements (networks4 st))) ts
     ∧ (∀ x, ownedBy (listeners st) ifaceName x = false →
             (x ∈ elements (networks6 st) → x ∈ elements (networks6 st'))
             ∧ (x ∈ elements (networks4 st) → x ∈ elements (networks4 st')))
     ∧ (∀ x nw, listeners st !! x = Some nw → iface nw = None →
             (x ∈ elements (networks6 st) → x ∈ elements (networks6 st'))
             ∧ (x ∈ elements (networks4 st) → x ∈ elements (networks4 st')))
     ∧ (∀ x, (x ∈ elements (networks6 st') → x ∈ elements (networks6 st))
             ∧ (x ∈ elements (networks4 st') → x ∈ elements (networks4 st))))
  ∧ (∀ addr, ∃ st' ts,
     networkChangeIPRemove addr st = Some st'
     ∧ listeners st' = listeners st
     ∧ terminated st' = terminated st ++ ts
     ∧ (len (networks6 st') ≤ cap (networks6 st') ∧ len (networks4 st') ≤ cap (networks4 st'))
     ∧ Forall (λ x, boundTo (listeners st) addr x = true
                    ∧ (x ∈ elements (networks6 st) ∨ x ∈ elements (networks4 st))) ts
     ∧ (∀ x, boundTo (listeners st) addr x = false →
             (x ∈ elements (networks6 st) → x ∈ elements (networks6 st'))
             ∧ (x ∈ elements (networks4 st) → x ∈ elements (networks4 st')))
     ∧ (∀ x, (x ∈ elements (networks6 st') → x ∈ elements (networks6 st))
             ∧ (x ∈ elements (networks4 st') → x ∈ elements (networks4 st)))).
Proof.
  intros H6 H4. split.
  - intros ifaceName.
    destruct (two_loops_sound (ownedBy (listeners st) ifaceName) _ _ (terminated st) H6 H4)
      as (n6 & n4 & ts & Hrun & Hfit & Hts & Hkeep & Hsub).
    unfold networkChangeInterfaceRemove. rewrite !removeLoop_By.
    destruct (removeLoopBy _ (networks6 st) _) as [[m6 log6]|]; [|done].
    cbn [mbind option_bind] in *. rewrite removeLoop_By.
    destruct (removeLoopBy _ (networks4 st) _) as [[m4 log4]|]; [|done].
    cbn [mbind option_bind] in *. injection Hrun as -> -> ->.
    eexists _, ts. split; [done|]. cbn [listeners networks6 networks4 terminated].
    split; [done|]. split; [done|]. split; [done|]. split; [done|]. split; [done|].
    split; [|done].
    intros x nw Hx Hnil. apply Hkeep. unfold ownedBy. by rewrite Hx, Hnil.
  - intros addr.
    destruct (two_loops_sound (boundTo (listeners st) addr) _ _ (terminated st) H6 H4)
      as (n6 & n4 & ts & Hrun & Hfit & Hts & Hkeep & Hsub).
    unfold networkChangeIPRemove.
    destruct (removeLoopBy _ (networks6 st) _) as [[m6 log6]|]; [|done].
    cbn [mbind option_bind] in *.
    destruct (removeLoopBy _ (networks4 st) _) as [[m4 log4]|]; [|done].
    cbn [mbind option_bind] in *. injection Hrun as -> -> ->.
    eexists _, ts. split; [done|]. cbn [listeners networks6 networks4 terminated].
    done.
Qed.

Lemma two_loops_exact (matches : NetPtr → bool) (s6 s4 : Slice) (log : list NetPtr) :
  len s6 ≤ cap s6 → len s4 ≤ cap s4 →
  length (filter (λ x, matches x = true) (elements s6)) ≤ 1 →
  length (filter (λ x, matches x = true) (elements s4)) ≤ 1 →
  ∃ n6 n4,
    (removeLoopBy matches s6 log ≫= λ '(n6, log6),
       removeLoopBy matches s4 log6 ≫= λ '(n4, log4), Some (n6, n4, log4))
    = Some (n6, n4, log ++ filter (λ x, matches x = true) (elements s6)
                        ++ filter (λ x, matches x = true) (elements s4))
    ∧ elements n6 = filter (λ x, matches x = false) (elements s6)
    ∧ elements n4 = filter (λ x, matches x = false) (elements s4).
Proof.
  intros H6 H4 Hone6 Hone4.
  destruct (removeLoopBy_exact matches s6 log H6 Hone6) as (n6 & -> & _ & Hel6).
  cbn [mbind option_bind].
  destruct (removeLoopBy_exact matches s4 (log ++ filter (λ x, matches x = true) (elements s6))
              H4 Hone4) as (n4 & -> & _ & Hel4).
  cbn [mbind option_bind]. exists n6, n4. by rewrite <- app_assoc.
Qed.

(** X19: when each list holds at most one listener that passes the test of
    the handler, the removal is exact: the listeners that pass it are
    terminated, each once, the IPv6 one first, and the lists are left with
    the other listeners, in their order. *)
Theorem removal_exact_with_one_listener_per_list (st : NetState) :
  len (networks6 st) ≤ cap (networks6 st) →
  len (networks4 st) ≤ cap (networks4 st) →
  (∀ ifaceName,
     length (filter (λ x, ownedBy (listeners st) ifaceName x = true)
                    (elements (networks6 st))) ≤ 1 →
     length (filter (λ x, ownedBy (listeners st) ifaceName x = true)
                    (elements (networks4 st))) ≤ 1 →
     ∃ st',
       networkChangeInterfaceRemove ifaceName st = Some st'
       ∧ terminated st'
         = terminated st
           ++ filter (λ x, ownedBy (listeners st) ifaceName x = true) (elements (networks6 st))
           ++ filter (λ x, ownedBy (listeners st) ifaceName x = true) (elements (networks4 st))
       ∧ elements (networks6 st')
         = filter (λ x, ownedBy (listeners st) ifaceName x = false) (elements (networks6 st))
       ∧ elements (networks4 st')
         = filter (λ x, ownedBy (listeners st) ifaceName x = false) (elements (networks4 st)))
  ∧ (∀ addr,
     length (filter (λ x, boundTo (listeners st) addr x = true)
                    (elements (networks6 st))) ≤ 1 →
     length (filter (λ x, boundTo (listeners st) addr x = true)
                    (elements (networks4 st))) ≤ 1 →
     ∃ st',
       networkChangeIPRemove addr st = Some st'
       ∧ terminated st'
         = terminated st
           ++ filter (λ x, boundTo (listeners st) addr x = true) (elements (networks6 st))
           ++ filter (λ x, boundTo (listeners st) addr x = true) (elements (networks4 st))
       ∧ elements (networks6 st')
         = filter (λ x, boundTo (listeners st) addr x = false) (elements (networks6 st))
       ∧ elements (networks4 st')
         = filter (λ x, boundTo (listeners st) addr x = false) (elements (networks4 st))).
Proof.
  intros H6 H4. split.
  - intros ifaceName Hone6 Hone4.
    destruct (two_loops_exact (ownedBy (listeners st) ifaceName) _ _ (terminated st)
                H6 H4 Hone6 Hone4) as (n6 & n4 & Hrun & Hel6 & Hel4).
    unfold networkChangeInterfaceRemove. rewrite !removeLoop_By.
    destruct (removeLoopBy _ (networks6 st) _) as [[m6 log6]|]; [|done].
    cbn [mbind option_bind] in *. rewrite removeLoop_By.
    destruct (removeLoopBy _ (networks4 st) _) as [[m4 log4]|]; [|done].
    cbn [mbind option_bind] in *. injection Hrun as -> -> ->.
    eexists. split; [done|]. done.
  - intros addr Hone6 Hone4.
    destruct (two_loops_exact (boundTo (listeners st) addr) _ _ (terminated st)
                H6 H4 Hone6 Hone4) as (n6 & n4 & Hrun & Hel6 & Hel4).
    unfold networkChangeIPRemove.
    destruct (removeLoopBy _ (networks6 st) _) as [[m6 log6]|]; [|done].
    cbn [mbind option_bind] in *.
    destruct (removeLoopBy _ (networks4 st) _) as [[m4 log4]|]; [|done].
    cbn [mbind option_bind] in *. injection Hrun as -> -> ->.
    eexists. split; [done|]. done.
Qed.

End RemovalHandlers.

(** ** The monitor *)

Section MonitorProperties.
Context `{NetLib}.

Lemma monitorInterface_eq (ifacesExist : gmap string (list IPNet))
    (m : gmap string (list IPNet)) (calls : list MonitorCall) (i : OSInterface) :
  monitorInterface ifacesExist (m, calls) i
  = match Addrs i with
    | (_, Some _) => (m, calls)
    | (a, None) => (<[Name (osInterface i) := a]> m,
                    calls ++ callsFor ifacesExist (Name (osInterface i), a))
    end.
Proof.
  unfold monitorInterface, callsFor. destruct (Addrs i) as [a [err|]]; [done|].
  cbn [fst snd]. by destruct (ifacesExist !! Name (osInterface i)).
Qed.

Lemma enumerated_cons (i : OSInterface) (l : list OSInterface) :
  enumerated (i :: l)
  = match Addrs i with
    | (_, Some _) => enumerated l
    | (a, None) => (Name (osInterface i), a) :: enumerated l
    end.
Proof. unfold enumerated. cbn [omap list_omap]. by destruct (Addrs i) as [a [err|]]. Qed.

Lemma monitorInterface_fold (ifacesExist : gmap string (list IPNet))
    (interfaceList : list OSInterface) (m : gmap string (list IPNet))
    (calls : list MonitorCall) :
  foldl (monitorInterface ifacesExist) (m, calls) interfaceList
  = (snapshotOf m (enumerated interfaceList),
     calls ++ mjoin (callsFor ifacesExist <$> enumerated interfaceList)).
Proof.
  revert m calls. induction interfaceList as [|i l IH]; intros m calls.
  - simpl. by rewrite app_nil_r.
  - cbn [foldl]. rewrite monitorInterface_eq, enumerated_cons.
    destruct (Addrs i) as [a [err|]]; [apply IH|].
    rewrite IH. cbn [fmap list_fmap mjoin list_join]. by rewrite <- app_assoc.
Qed.

Lemma elem_of_enumerated (interfaceList : list OSInterface) (n : string) (a : list IPNet) :
  (n, a) ∈ enumerated interfaceList
  ↔ ∃ i, i ∈ interfaceList ∧ Name (osInterface i) = n ∧ Addrs i = (a, None).
Proof.
  unfold enumerated. rewrite list_elem_of_omap. split.
  - intros (i & Hi & Hs). exists i. split; [done|].
    destruct (Addrs i) as [addresses [err|]]; [done|]. by injection Hs as <- <-.
  - intros (i & Hi & <- & Ha). exists i. split; [done|]. by rewrite Ha.
Qed.

Lemma snapshotOf_lookup (m : gmap string (list IPNet)) (entries : list (string * list IPNet))
    (n : string) :
  (n ∉ entries.*1 → snapshotOf m entries !! n = m !! n)
  ∧ (n ∈ entries.*1 → ∃ a, (n, a) ∈ entries ∧ snapshotOf m entries !! n = Some a).
Proof.
  revert m. induction entries as [|[n' a'] entries IH]; intros m.
  - split; [done|]. intros Hin. by apply elem_of_nil in Hin.
  - unfold snapshotOf. cbn [foldl fst snd fmap list_fmap]. fold (snapshotOf (<[n':=a']> m) entries).
    destruct (IH (<[n':=a']> m)) as [IHout IHin]. split.
    + intros Hout. apply not_elem_of_cons in Hout as [Hne Hout].
      rewrite IHout by done. by apply lookup_insert_ne.
    + intros Hin. destruct (decide (n ∈ entries.*1)) as [Hlater|Hnot].
      * destruct (IHin Hlater) as (a & Ha & Hl). exists a. split; [by right|done].
      * apply elem_of_cons in Hin as [->|Hin]; [|done].
        exists a'. split; [left|]. rewrite IHout by done. apply lookup_insert_eq.
Qed.

Lemma snapshotOf_NoDup (entries : list (string * list IPNet)) (n : string) (a : list IPNet) :
  NoDup entries.*1 → (n, a) ∈ entries → snapshotOf ∅ entries !! n = Some a.
Proof.
  intros Hnd Hin. destruct (snapshotOf_lookup ∅ entries n) as [_ Hsome].
  destruct Hsome as (a' & Hin' & ->); [apply list_elem_of_fmap; by exists (n, a)|].
  f_equal. apply list_elem_of_lookup in Hin as [i Hi], Hin' as [j Hj].
  assert (i = j) as ->.
  { apply (NoDup_lookup _ _ _ n Hnd); by rewrite list_lookup_fmap, ?Hi, ?Hj. }
  rewrite Hi in Hj. by injection Hj.
Qed.

Lemma monitorCycle_eq (ifacesExist : gmap string (list IPNet))
    (interfaceList : list OSInterface) :
  monitorCycle ifacesExist (interfaceList, None)
  = (mjoin (callsFor ifacesExist <$> enumerated interfaceList)
     ++ ((λ entry, InterfaceRemove entry.1 entry.2)
           <$> filter (λ entry, snapshotOf ∅ (enumerated interfaceList) !! entry.1 = None)
                      (map_to_list ifacesExist)),
     snapshotOf ∅ (enumerated interfaceList)).
Proof. unfold monitorCycle. by rewrite monitorInterface_fold. Qed.

Lemma listed_spec (addr : IPNet) (addresses : list IPNet) :
  listed addr addresses = true
  ↔ ∃ other, other ∈ addresses ∧ AddrString other = AddrString addr.
Proof.
  unfold listed. rewrite existsb_exists. split.
  - intros (other & Hin & Heq). exists other. split; [by apply list_elem_of_In|].
    by apply bool_decide_eq_true in Heq.
  - intros (other & Hin & Heq). exists other. split; [by apply list_elem_of_In|].
    by apply bool_decide_eq_true.
Qed.

Lemma listed_self (addr : IPNet) (addresses : list IPNet) :
  addr ∈ addresses → listed addr addresses = true.
Proof. intros Hin. apply listed_spec. by exists addr. Qed.

(** X20: the calls of one cycle of the monitor, from the previous snapshot
    and the report of the operating system. An interface is announced as
    new when it was enumerated with its addresses and the snapshot lacks its
    name; an address as new, or as removed, when the interface is in the
    snapshot and the text of the address is in one list of addresses and not
    in the other; an interface as removed when the snapshot has its name and
    no interface of that name was enumerated with its addresses, be it
    absent or be it that the enumeration of its addresses failed. The
    snapshot left has exactly the names enumerated with their addresses. *)
Theorem monitorCycle_calls (ifacesExist : gmap string (list IPNet))
    (interfaceList : list OSInterface) :
  (∀ n a, InterfaceNew n a ∈ (monitorCycle ifacesExist (interfaceList, None)).1
          ↔ (n, a) ∈ enumerated interfaceList ∧ ifacesExist !! n = None)
  ∧ (∀ n addr, IPNew n addr ∈ (monitorCycle ifacesExist (interfaceList, None)).1
          ↔ ∃ a old, (n, a) ∈ enumerated interfaceList ∧ ifacesExist !! n = Some old
                     ∧ addr ∈ a ∧ listed addr old = false)
  ∧ (∀ n addr, IPRemove n addr ∈ (monitorCycle ifacesExist (interfaceList, None)).1
          ↔ ∃ a old, (n, a) ∈ enumerated interfaceList ∧ ifacesExist !! n = Some old
                     ∧ addr ∈ old ∧ listed addr a = false)
  ∧ (∀ n old, InterfaceRemove n old ∈ (monitorCycle ifacesExist (interfaceList, None)).1
          ↔ ifacesExist !! n = Some old ∧ (n ∉ (enumerated interfaceList).*1))
  ∧ (∀ n, is_Some ((monitorCycle ifacesExist (interfaceList, None)).2 !! n)
          ↔ n ∈ (enumerated interfaceList).*1).
Proof.
  rewrite monitorCycle_eq. cbn [fst snd].
  assert (Hdom : ∀ n, is_Some (snapshotOf ∅ (enumerated interfaceList) !! n)
                      ↔ n ∈ (enumerated interfaceList).*1).
  { intros n. destruct (snapshotOf_lookup ∅ (enumerated interfaceList) n) as [Hout Hin].
    split.
    - intros Hsome. destruct (decide (n ∈ (enumerated interfaceList).*1)); [done|].
      rewrite Hout, lookup_empty in Hsome by done. by destruct Hsome.
    - intros Hn. destruct (Hin Hn) as (a & _ & ->). by eexists. }
  assert (Hfirst : ∀ call, call ∈ mjoin (callsFor ifacesExist <$> enumerated interfaceList)
                           ↔ ∃ entry, entry ∈ enumerated interfaceList
                                      ∧ call ∈ callsFor ifacesExist entry).
  { intros call. rewrite list_elem_of_join. split.
    - intros (l & Hcall & Hl). apply list_elem_of_fmap in Hl as (entry & -> & Hentry). eauto.
    - intros (entry & Hentry & Hcall). exists (callsFor ifacesExist entry).
      split; [done|]. apply list_elem_of_fmap. eauto. }
  assert (Hlast : ∀ call, call ∈ ((λ entry, InterfaceRemove entry.1 entry.2)
                     <$> filter (λ entry, snapshotOf ∅ (enumerated interfaceList) !! entry.1 = None)
                                (map_to_list ifacesExist))
                   ↔ ∃ n old, call = InterfaceRemove n old ∧ ifacesExist !! n = Some old
                              ∧ (n ∉ (enumerated interfaceList).*1)).
  { intros call. rewrite list_elem_of_fmap. split.
    - intros ([n old] & -> & Hin). apply list_elem_of_filter in Hin as [Hnone Hin].
      apply elem_of_map_to_list in Hin. exists n, old. split; [done|]. split; [done|].
      rewrite <- Hdom. simpl in Hnone. rewrite Hnone. by intros [? ?].
    - intros (n & old & -> & Hold & Hn). exists (n, old). split; [done|].
      apply list_elem_of_filter. split; [|by apply elem_of_map_to_list]. simpl.
      rewrite <- Hdom in Hn. by apply eq_None_not_Some. }
  split; [|split; [|split; [|split; [|done]]]].
  - intros n a. rewrite elem_of_app, Hfirst, Hlast. split.
    + intros [([n' a'] & Hentry & Hcall)|(? & ? & ? & _)]; [|done].
      unfold callsFor in Hcall. simpl in Hcall.
      destruct (ifacesExist !! n') as [old|] eqn:Hn'.
      * apply elem_of_app in Hcall as [Hcall|Hcall];
          apply list_elem_of_fmap in Hcall as (? & ? & _); done.
      * apply list_elem_of_singleton in Hcall. by injection Hcall as -> ->.
    + intros [Hentry Hn]. left. exists (n, a). split; [done|].
      unfold callsFor. simpl. rewrite Hn. by apply list_elem_of_singleton.
  - intros n addr. rewrite elem_of_app, Hfirst, Hlast. split.
    + intros [([n' a'] & Hentry & Hcall)|(? & ? & ? & _)]; [|done].
      unfold callsFor in Hcall. simpl in Hcall.
      destruct (ifacesExist !! n') as [old|] eqn:Hn'.
      * apply elem_of_app in Hcall as [Hcall|Hcall];
          apply list_elem_of_fmap in Hcall as (x & Heq & Hx); [|done].
        injection Heq as -> ->. apply list_elem_of_filter in Hx as [Hl Hx].
        by exists a', old.
      * by apply list_elem_of_singleton in Hcall.
    + intros (a & old & Hentry & Hn & Haddr & Hl). left. exists (n, a). split; [done|].
      unfold callsFor. simpl. rewrite Hn. apply elem_of_app. left.
      apply list_elem_of_fmap. exists addr. split; [done|]. by apply list_elem_of_filter.
  - intros n addr. rewrite elem_of_app, Hfirst, Hlast. split.
    + intros [([n' a'] & Hentry & Hcall)|(? & ? & ? & _)]; [|done].
      unfold callsFor in Hcall. simpl in Hcall.
      destruct (ifacesExist !! n') as [old|] eqn:Hn'.
      * apply elem_of_app in Hcall as [Hcall|Hcall];
          apply list_elem_of_fmap in Hcall as (x & Heq & Hx); [done|].
        injection Heq as -> ->. apply list_elem_of_filter in Hx as [Hl Hx].
        by exists a', old.
      * by apply list_elem_of_singleton in Hcall.
    + intros (a & old & Hentry & Hn & Haddr & Hl). left. exists (n, a). split; [done|].
      unfold callsFor. simpl. rewrite Hn. apply elem_of_app. right.
      apply list_elem_of_fmap. exists addr. split; [done|]. by apply list_elem_of_filter.
  - intros n old. rewrite elem_of_app, Hfirst, Hlast. split.
    + intros [([n' a'] & Hentry & Hcall)|(n' & old' & Heq & Hn & Hout)].
      * unfold callsFor in Hcall. simpl in Hcall.
        destruct (ifacesExist !! n') as [old'|] eqn:Hn'.
        -- apply elem_of_app in Hcall as [Hcall|Hcall];
             apply list_elem_of_fmap in Hcall as (? & ? & _); done.
        -- by apply list_elem_of_singleton in Hcall.
      * by injection Heq as -> ->.
    + intros [Hn Hout]. right. by exists n, old.
Qed.

Lemma mjoin_nil {A B} (f : A → list B) (l : list A) :
  (∀ x, x ∈ l → f x = []) → mjoin (f <$> l) = [].
Proof.
  induction l as [|x l IH]; intros Hall; [done|].
  cbn [fmap list_fmap mjoin list_join]. rewrite Hall by left. simpl. apply IH.
  intros y Hy. apply Hall. by right.
Qed.

(** The calls of a cycle whose report the snapshot already reflects. *)
Lemma monitorCycle_settled (interfaceList : list OSInterface) :
  NoDup (enumerated interfaceList).*1 →
  monitorCycle (snapshotOf ∅ (enumerated interfaceList)) (interfaceList, None)
  = ([], snapshotOf ∅ (enumerated interfaceList)).
Proof.
  intros Hnd. rewrite monitorCycle_eq. f_equal.
  assert (Hfirst : mjoin (callsFor (snapshotOf ∅ (enumerated interfaceList))
                             <$> enumerated interfaceList) = []).
  { assert (Hall : ∀ entry, entry ∈ enumerated interfaceList →
                     callsFor (snapshotOf ∅ (enumerated interfaceList)) entry = []).
    { intros [n a] Hentry. unfold callsFor. simpl.
      rewrite (snapshotOf_NoDup _ n a Hnd Hentry).
      rewrite (filter_none (λ addr, listed addr a = false));
        [done|intros addr Haddr; by rewrite listed_self]. }
    by apply mjoin_nil. }
  rewrite Hfirst. simpl.
  rewrite (filter_none (λ entry, snapshotOf ∅ (enumerated interfaceList) !! entry.1 = None));
    [done|].
  intros [n a] Hin. apply elem_of_map_to_list in Hin. simpl. by rewrite Hin.
Qed.

(** X21: the snapshot keeps the monitor from calling twice. When the
    operating system reports the same interfaces and addresses cycle after
    cycle, each name once, the monitor makes the calls of the first cycle
    and none in the cycles after it, however many; and when the node was
    given addresses to listen on, the monitor makes no call at all. *)
Theorem networkChangeMonitor_calls_once (interfaceList : list OSInterface) (more : nat)
    (ifacesExist : gmap string (list IPNet)) :
  NoDup (enumerated interfaceList).*1 →
  networkChangeMonitor [] (replicate (S more) (interfaceList, None)) ifacesExist
  = monitorCycle ifacesExist (interfaceList, None)
  ∧ (monitorCycle (monitorCycle ifacesExist (interfaceList, None)).2 (interfaceList, None)).1
    = []
  ∧ ∀ Listen reports, Listen ≠ [] →
      networkChangeMonitor Listen reports ifacesExist = ([], ifacesExist).
Proof.
  intros Hnd. split; [|split].
  - unfold networkChangeMonitor. rewrite bool_decide_false by (simpl; lia).
    cbn [replicate foldl]. rewrite (monitorCycle_eq ifacesExist). cbn [app].
    set (calls := _ ++ _). clearbody calls.
    induction more as [|more IH]; [done|].
    cbn [replicate foldl]. by rewrite (monitorCycle_settled _ Hnd), app_nil_r.
  - rewrite (monitorCycle_eq ifacesExist). cbn [snd].
    by rewrite (monitorCycle_settled _ Hnd).
  - intros Listen reports Hne. unfold networkChangeMonitor.
    rewrite bool_decide_true; [done|]. destruct Listen; [done|simpl; lia].
Qed.

End MonitorProperties.

(** ** Finding the interface of an IP, opening a listener *)

Section ListenProperties.
Context `{NetLib}.

Lemma findAddress_Some (addresses : list IPNet) (ip : IP) (a : IPNet) :
  findAddress addresses ip = Some a → a ∈ addresses ∧ IPEqual (ipnetIP a) ip = true.
Proof.
  induction addresses as [|x l IH]; [done|]. simpl.
  destruct (IPEqual (ipnetIP x) ip) eqn:Hx.
  - intros [= <-]. split; [left|done].
  - intros Hf. destruct (IH Hf). split; [by right|done].
Qed.

Lemma findAddress_None (addresses : list IPNet) (ip : IP) :
  findAddress addresses ip = None ↔ ∀ a, a ∈ addresses → IPEqual (ipnetIP a) ip = false.
Proof.
  induction addresses as [|x l IH]; simpl.
  - split; [|done]. intros _ a Ha. by apply elem_of_nil in Ha.
  - destruct (IPEqual (ipnetIP x) ip) eqn:Hx.
    + split; [done|]. intros Hall. specialize (Hall x (list_elem_of_here _ _)). congruence.
    + rewrite IH. split.
      * intros Hall a Ha. apply elem_of_cons in Ha as [->|Ha]; [done|by apply Hall].
      * intros Hall a Ha. apply Hall. by right.
Qed.

(** The interfaces before the one found have no address equal to the IP. *)
Lemma findInterface_Some (interfaceList : list OSInterface) (ip : IP) (i : Interface)
    (a : IPNet) :
  findInterface interfaceList ip = Some (i, a) →
  ∃ before entry after addresses,
    interfaceList = before ++ entry :: after
    ∧ osInterface entry = i
    ∧ Addrs entry = (addresses, None)
    ∧ a ∈ addresses
    ∧ IPEqual (ipnetIP a) ip = true
    ∧ ∀ e addrs x, e ∈ before → Addrs e = (addrs, None) → x ∈ addrs →
                   IPEqual (ipnetIP x) ip = false.
Proof.
  induction interfaceList as [|e l IH]; [done|]. simpl.
  destruct (Addrs e) as [addrs [err|]] eqn:He.
  - intros Hf. destruct (IH Hf) as (before & entry & after & addresses & -> & Hrest).
    exists (e :: before), entry, after, addresses. split; [done|].
    destruct Hrest as (? & ? & ? & ? & Hbefore). repeat split; try done.
    intros e' addrs' x He'. apply elem_of_cons in He' as [->|He']; [congruence|].
    by apply Hbefore.
  - destruct (findAddress addrs ip) as [a'|] eqn:Hfind.
    + intros [= <- <-]. destruct (findAddress_Some _ _ _ Hfind).
      exists [], e, l, addrs. repeat split; try done.
      intros e' addrs' x He'. by apply elem_of_nil in He'.
    + intros Hf. destruct (IH Hf) as (before & entry & after & addresses & -> & Hrest).
      exists (e :: before), entry, after, addresses. split; [done|].
      destruct Hrest as (? & ? & ? & ? & Hbefore). repeat split; try done.
      intros e' addrs' x He'. apply elem_of_cons in He' as [->|He'].
      * rewrite He. intros [= <-]. by apply findAddress_None.
      * by apply Hbefore.
Qed.

Lemma findInterface_None (interfaceList : list OSInterface) (ip : IP) :
  findInterface interfaceList ip = None
  ↔ ∀ e addrs x, e ∈ interfaceList → Addrs e = (addrs, None) → x ∈ addrs →
                 IPEqual (ipnetIP x) ip = false.
Proof.
  induction interfaceList as [|e l IH]; simpl.
  - split; [|done]. intros _ e addrs x He. by apply elem_of_nil in He.
  - destruct (Addrs e) as [addrs [err|]] eqn:He.
    + rewrite IH. split.
      * intros Hall e' addrs' x He'. apply elem_of_cons in He' as [->|He'];
          [congruence|by apply Hall].
      * intros Hall e' addrs' x He'. apply Hall. by right.
    + destruct (findAddress addrs ip) as [a|] eqn:Hfind.
      * split; [done|]. intros Hall. destruct (findAddress_Some _ _ _ Hfind) as [Ha Heq].
        rewrite (Hall e addrs a) in Heq; [done|left|done|done].
      * rewrite IH. split.
        -- intros Hall e' addrs' x He'. apply elem_of_cons in He' as [->|He'].
           ++ rewrite He. intros [= <-]. by apply findAddress_None.
           ++ by apply Hall.
        -- intros Hall e' addrs' x He'. apply Hall. by right.
Qed.

Lemma NetworkListIPs_elem (interfaceList : list OSInterface) (ip' : IP) (IPs : list IP) :
  ip' ∈ foldl (λ IPs ifaceSingle,
                 match Addrs ifaceSingle with
                 | (_, Some _) => IPs
                 | (addresses, None) =>
                     foldl (λ IPs' address, IPs' ++ [ipnetIP address]) IPs addresses
                 end) IPs interfaceList
  ↔ ip' ∈ IPs ∨ ∃ e addrs x, e ∈ interfaceList ∧ Addrs e = (addrs, None) ∧ x ∈ addrs
                             ∧ ipnetIP x = ip'.
Proof.
  assert (Hinner : ∀ (addresses : list IPNet) (IPs : list IP),
            foldl (λ IPs' address, IPs' ++ [ipnetIP address]) IPs addresses
            = IPs ++ (ipnetIP <$> addresses)).
  { intros addresses. induction addresses as [|x l IH]; intros IPs'; simpl.
    - by rewrite app_nil_r.
    - by rewrite IH, <- app_assoc. }
  revert IPs. induction interfaceList as [|e l IH]; intros IPs; cbn [foldl].
  - split; [by left|]. intros [?|(e & ? & ? & He & _)]; [done|by apply elem_of_nil in He].
  - rewrite IH. destruct (Addrs e) as [addrs [err|]] eqn:He.
    + split.
      * intros [?|(e' & addrs' & x & He' & Hrest)]; [by left|].
        right. exists e', addrs', x. split; [by right|done].
      * intros [?|(e' & addrs' & x & He' & Ha' & Hrest)]; [by left|].
        apply elem_of_cons in He' as [->|He']; [congruence|].
        right. by exists e', addrs', x.
    + rewrite Hinner, elem_of_app, list_elem_of_fmap. split.
      * intros [[?|(x & -> & Hx)]|(e' & addrs' & x & He' & Hrest)].
        -- by left.
        -- right. exists e, addrs, x. split; [left|done].
        -- right. exists e', addrs', x. split; [by right|done].
      * intros [?|(e' & addrs' & x & He' & Ha' & Hx & Hip)]; [by left; left|].
        apply elem_of_cons in He' as [->|He'].
        -- left. right. exists x. rewrite He in Ha'. injection Ha' as <-. done.
        -- right. by exists e', addrs', x.
Qed.

(** X22: [FindInterfaceByIP] finds an interface exactly for the IPs that
    [NetworkListIPs] lists, up to the equality of IPs; the interface it
    returns is the first one, in the order of the operating system, with an
    address of an equal IP, returned together with that address; interfaces
    whose addresses cannot be enumerated are passed over by both; when the
    interfaces cannot be enumerated, nothing is found and nothing listed. *)
Theorem FindInterfaceByIP_finds_listed_IPs (Interfaces : list OSInterface * error) (ip : IP) :
  (is_Some (FindInterfaceByIP Interfaces ip)
   ↔ ∃ ip', ip' ∈ (NetworkListIPs Interfaces).1 ∧ IPEqual ip' ip = true)
  ∧ (∀ i a, FindInterfaceByIP Interfaces ip = Some (i, a) →
       ∃ before entry after addresses,
         Interfaces = (before ++ entry :: after, None)
         ∧ osInterface entry = i
         ∧ Addrs entry = (addresses, None)
         ∧ a ∈ addresses
         ∧ IPEqual (ipnetIP a) ip = true
         ∧ ∀ e addrs x, e ∈ before → Addrs e = (addrs, None) → x ∈ addrs →
                        IPEqual (ipnetIP x) ip = false)
  ∧ (∀ err, Interfaces.2 = Some err →
       FindInterfaceByIP Interfaces ip = None
       ∧ NetworkListIPs Interfaces = ([], Some err)).
Proof.
  destruct Interfaces as [interfaceList [err|]]; simpl.
  - split; [|split; [done|]].
    + split; [by intros [? ?]|]. intros (ip' & Hin & _). by apply elem_of_nil in Hin.
    + by intros err' [= <-].
  - split; [|split; [|done]].
    + split.
      * intros [[i a] Hf].
        destruct (findInterface_Some _ _ _ _ Hf)
          as (before & entry & after & addresses & -> & _ & He & Ha & Heq & _).
        exists (ipnetIP a). split; [|done]. apply NetworkListIPs_elem. right.
        exists entry, addresses, a. split; [|done].
        apply elem_of_app. right. left.
      * intros (ip' & Hin & Heq). apply NetworkListIPs_elem in Hin
          as [Hin|(e & addrs & x & He & Ha & Hx & <-)]; [by apply elem_of_nil in Hin|].
        destruct (findInterface interfaceList ip) as [r|] eqn:Hf; [by eexists|].
        rewrite findInterface_None in Hf. rewrite (Hf e addrs x) in Heq; done.
    + intros i a Hf.
      destruct (findInterface_Some _ _ _ _ Hf)
        as (before & entry & after & addresses & -> & Hrest).
      by exists before, entry, after, addresses.
Qed.

Lemma elements_append (s : Slice) (xs : list NetPtr) :
  len s ≤ cap s →
  elements (append s xs) = elements s ++ xs
  ∧ len (append s xs) ≤ cap (append s xs).
Proof.
  intros Hlen. unfold append, elements, cap in *.
  destruct (decide (len s + length xs ≤ length (backing s))) as [Hfit|Hgrow].
  - cbn [backing len]. split.
    + rewrite app_assoc. rewrite take_app_length'; [done|].
      rewrite length_app, length_take. lia.
    + rewrite !length_app, length_take, length_drop. lia.
  - unfold mkSlice. cbn [backing len]. split; [by rewrite firstn_all|done].
Qed.

(** What a call without an error has done. *)
Lemma networkPrepareListen_success
    (Interfaces : list OSInterface * error) (AutoAssignPort : IP → Z → string * error)
    (ipA : string) (port : Z) (st : NetState) :
  len (networks6 st) ≤ cap (networks6 st) →
  len (networks4 st) ≤ cap (networks4 st) →
  (networkPrepareListen Interfaces AutoAssignPort ipA port st).1.2 = None →
  ∃ ip nw st',
    ParseIP ipA = Some ip
    ∧ networkPrepareListen Interfaces AutoAssignPort ipA port st
      = (Some (length (listeners st)), None, st')
    ∧ listeners st' = listeners st ++ [nw]
    ∧ AutoAssignPort ip port = (address nw, None)
    ∧ (iface nw = None ↔ ipA = "0.0.0.0" ∨ ipA = "::")
    ∧ (∀ i, iface nw = Some i → ∃ a, FindInterfaceByIP Interfaces ip = Some (i, a))
    ∧ elements (networks4 st')
      = elements (networks4 st) ++ (if IsIPv4 ip then [length (listeners st)] else [])
    ∧ elements (networks6 st')
      = elements (networks6 st) ++ (if IsIPv4 ip then [] else [length (listeners st)])
    ∧ (len (networks6 st') ≤ cap (networks6 st') ∧ len (networks4 st') ≤ cap (networks4 st'))
    ∧ terminated st' = terminated st.
Proof.
  intros H6 H4. unfold networkPrepareListen.
  destruct (ParseIP ipA) as [ip|]; [|done].
  cbv zeta.
  destruct (elements_append (networks4 st) [length (listeners st)] H4) as [He4 Hl4].
  destruct (elements_append (networks6 st) [length (listeners st)] H6) as [He6 Hl6].
  destruct (bool_decide (ipA ≠ "0.0.0.0") && bool_decide (ipA ≠ "::")) eqn:Hnamed.
  - apply andb_true_iff in Hnamed as [Hn4 Hn6].
    apply bool_decide_eq_true in Hn4, Hn6.
    destruct (FindInterfaceByIP Interfaces ip) as [[i a]|] eqn:Hfind.
    + rewrite bool_decide_false by done. cbn [andb].
      destruct (AutoAssignPort ip port) as [bound [err|]] eqn:Hbind; [done|]. intros _.
      exists ip, {| iface := Some i; address := bound |}.
      destruct (IsIPv4 ip); eexists; (split; [done|]); (split; [done|]);
        cbn [listeners networks4 networks6 terminated address iface
             fmap option_fmap option_map fst];
        rewrite ?app_nil_r; repeat split; try done; try (intros [?|?]; done).
      * intros i' [= <-]. by exists a.
      * intros i' [= <-]. by exists a.
    + rewrite bool_decide_true by done. done.
  - cbn [andb].
    assert (Hwild : ipA = "0.0.0.0" ∨ ipA = "::").
    { apply andb_false_iff in Hnamed as [Hn|Hn]; apply bool_decide_eq_false in Hn.
      - left. by destruct (decide (ipA = "0.0.0.0")).
      - right. by destruct (decide (ipA = "::")). }
    destruct (AutoAssignPort ip port) as [bound [err|]] eqn:Hbind; [done|]. intros _.
    exists ip, {| iface := None; address := bound |}.
    destruct (IsIPv4 ip); eexists; (split; [done|]); (split; [done|]);
      cbn [listeners networks4 networks6 terminated address iface
           fmap option_fmap option_map fst];
      rewrite ?app_nil_r; repeat split; try done.
Qed.

(** X23: [networkPrepareListen] fails without a trace, or registers one new
    listener in one list. With an error it returns no listener and leaves
    the lists and the listeners as they were. Without, the listener is a new
    one, bound to the address the socket was given, and it is the last of the
    IPv4 list for an IPv4 address, and of the IPv6 list otherwise, the other
    list being untouched; it has no interface exactly when the address is
    one of the wildcards, and otherwise the interface that
    [FindInterfaceByIP] finds for its IP. *)
Theorem networkPrepareListen_registers_one_listener
    (Interfaces : list OSInterface * error) (AutoAssignPort : IP → Z → string * error)
    (ipA : string) (port : Z) (st : NetState) :
  len (networks6 st) ≤ cap (networks6 st) →
  len (networks4 st) ≤ cap (networks4 st) →
  (∀ err, (networkPrepareListen Interfaces AutoAssignPort ipA port st).1.2 = Some err →
     (networkPrepareListen Interfaces AutoAssignPort ipA port st).1.1 = None
     ∧ (networkPrepareListen Interfaces AutoAssignPort ipA port st).2 = st)
  ∧ ((networkPrepareListen Interfaces AutoAssignPort ipA port st).1.2 = None →
     ∃ ip nw st',
       ParseIP ipA = Some ip
       ∧ networkPrepareListen Interfaces AutoAssignPort ipA port st
         = (Some (length (listeners st)), None, st')
       ∧ listeners st' = listeners st ++ [nw]
       ∧ AutoAssignPort ip port = (address nw, None)
       ∧ (iface nw = None ↔ ipA = "0.0.0.0" ∨ ipA = "::")
       ∧ (∀ i, iface nw = Some i → ∃ a, FindInterfaceByIP Interfaces ip = Some (i, a))
       ∧ elements (networks4 st')
         = elements (networks4 st) ++ (if IsIPv4 ip then [length (listeners st)] else [])
       ∧ elements (networks6 st')
         = elements (networks6 st) ++ (if IsIPv4 ip then [] else [length (listeners st)])
       ∧ (len (networks6 st') ≤ cap (networks6 st') ∧ len (networks4 st') ≤ cap (networks4 st'))
       ∧ terminated st' = terminated st).
Proof.
  intros H6 H4. split; [|by apply networkPrepareListen_success].
  intros err. unfold networkPrepareListen.
  destruct (ParseIP ipA) as [ip|]; [|done]. cbv zeta.
  destruct (bool_decide (ipA ≠ "0.0.0.0") && bool_decide (ipA ≠ "::"));
    destruct (FindInterfaceByIP Interfaces ip) as [[i a]|];
    rewrite ?bool_decide_false, ?bool_decide_true by done; cbn [andb]; try done;
    destruct (AutoAssignPort ip port) as [bound [err'|]]; try done;
    by destruct (IsIPv4 ip).
Qed.

Lemma ownedBy_older (heap : list Network) (nw : Network) (ifaceName : string) (x : NetPtr) :
  x < length heap → ownedBy (heap ++ [nw]) ifaceName x = ownedBy heap ifaceName x.
Proof. intros Hx. unfold ownedBy. by rewrite lookup_app_l. Qed.

Lemma filter_app_one {A} (P : A → Prop) `{∀ x, Decision (P x)} (l : list A) (a : A) :
  Forall (λ x, ¬ P x) l → P a → filter P (l ++ [a]) = [a].
Proof.
  intros Hl Ha. rewrite filter_app, filter_cons_True, filter_nil by done.
  rewrite filter_none; [done|]. by apply Forall_forall.
Qed.

Lemma filter_app_but_one {A} (P : A → Prop) `{∀ x, Decision (P x)} (l : list A) (a : A) :
  Forall P l → ¬ P a → filter P (l ++ [a]) = l.
Proof.
  intros Hl Ha. rewrite filter_app, filter_cons_False, filter_nil, app_nil_r by done.
  by apply filter_all.
Qed.

(** X24: a listener opened is a listener the monitor can close. When
    [networkPrepareListen] has opened a listener on an address of an
    interface, and no other listener of the lists belongs to that interface,
    the removal of the interface terminates the new listener, once, and
    nothing else, and the two lists are again what they were before the
    listener was opened. *)
Theorem listener_opened_then_interface_removed
    (Interfaces : list OSInterface * error) (AutoAssignPort : IP → Z → string * error)
    (ipA : string) (port : Z) (st st' : NetState) (p : NetPtr) (nw : Network) (i : Interface) :
  len (networks6 st) ≤ cap (networks6 st) →
  len (networks4 st) ≤ cap (networks4 st) →
  (∀ x, x ∈ elements (networks6 st) ∨ x ∈ elements (networks4 st) →
        x < length (listeners st) ∧ ownedBy (listeners st) (Name i) x = false) →
  networkPrepareListen Interfaces AutoAssignPort ipA port st = (Some p, None, st') →
  listeners st' !! p = Some nw →
  iface nw = Some i →
  ∃ st'',
    networkChangeInterfaceRemove (Name i) st' = Some st''
    ∧ terminated st'' = terminated st ++ [p]
    ∧ elements (networks6 st'') = elements (networks6 st)
    ∧ elements (networks4 st'') = elements (networks4 st).
Proof.
  intros H6 H4 Hold Hrun Hp Hi.
  destruct (networkPrepareListen_success Interfaces AutoAssignPort ipA port st H6 H4)
    as (ip & nw' & st1 & _ & Hrun' & Hheap & _ & _ & _ & He4 & He6 & [Hl6 Hl4] & Hterm);
    [by rewrite Hrun|].
  rewrite Hrun in Hrun'. injection Hrun' as -> <-.
  rewrite Hheap, list_lookup_middle in Hp by done. injection Hp as ->.
  assert (Hnew : ownedBy (listeners st') (Name i) (length (listeners st)) = true).
  { unfold ownedBy. rewrite Hheap, list_lookup_middle by done. rewrite Hi.
    by apply bool_decide_eq_true. }
  assert (Hold6 : Forall (λ x, ¬ ownedBy (listeners st') (Name i) x = true)
                         (elements (networks6 st))).
  { apply Forall_forall. intros x Hx. destruct (Hold x) as [Hlt Hno]; [by left|].
    rewrite Hheap, ownedBy_older, Hno; done. }
  assert (Hold4 : Forall (λ x, ¬ ownedBy (listeners st') (Name i) x = true)
                         (elements (networks4 st))).
  { apply Forall_forall. intros x Hx. destruct (Hold x) as [Hlt Hno]; [by right|].
    rewrite Hheap, ownedBy_older, Hno; done. }
  assert (Hold6' : Forall (λ x, ownedBy (listeners st') (Name i) x = false)
                          (elements (networks6 st)))
    by (eapply Forall_impl; [apply Hold6|]; simpl; intros x; by destruct (ownedBy _ _ x)).
  assert (Hold4' : Forall (λ x, ownedBy (listeners st') (Name i) x = false)
                          (elements (networks4 st)))
    by (eapply Forall_impl; [apply Hold4|]; simpl; intros x; by destruct (ownedBy _ _ x)).
  assert (Hnew' : ¬ ownedBy (listeners st') (Name i) (length (listeners st)) = false)
    by (by rewrite Hnew).
  destruct (two_loops_exact (ownedBy (listeners st') (Name i)) (networks6 st') (networks4 st')
              (terminated st') Hl6 Hl4) as (n6 & n4 & Hloops & Hn6 & Hn4).
  { rewrite He6. destruct (IsIPv4 ip).
    - rewrite app_nil_r, filter_none; [simpl; lia|]. by apply Forall_forall.
    - rewrite filter_app_one by done. simpl. lia. }
  { rewrite He4. destruct (IsIPv4 ip).
    - rewrite filter_app_one by done. simpl. lia.
    - rewrite app_nil_r, filter_none; [simpl; lia|]. by apply Forall_forall. }
  unfold networkChangeInterfaceRemove. rewrite !removeLoop_By.
  destruct (removeLoopBy _ (networks6 st') _) as [[m6 log6]|]; [|done].
  cbn [mbind option_bind] in *. rewrite removeLoop_By.
  destruct (removeLoopBy _ (networks4 st') _) as [[m4 log4]|]; [|done].
  cbn [mbind option_bind] in *. injection Hloops as -> -> ->.
  eexists. split; [done|]. cbn [terminated networks6 networks4].
  rewrite Hn6, Hn4, He6, He4, Hterm. destruct (IsIPv4 ip).
  - rewrite !app_nil_r. rewrite filter_app_one by done.
    rewrite (filter_none _ (elements (networks6 st))) by (by apply Forall_forall).
    rewrite filter_app_but_one by done. rewrite filter_all by done. done.
  - rewrite !app_nil_r. rewrite filter_app_one by done.
    rewrite (filter_none _ (elements (networks4 st))) by (by apply Forall_forall).
    rewrite filter_app_but_one by done. rewrite filter_all by done.
    by rewrite app_nil_r.
Qed.

(** X25: the set of listen addresses. [IsAddressSelf] says no to the [nil]
    address and to every address before any was added; after
    [addListenAddress] it says yes to the address added and to every address
    of the same IP and port, whatever the zone; it keeps saying yes to the
    addresses it said yes to; and for addresses of another key its answer is
    as before. *)
Theorem IsAddressSelf_after_addListenAddress (addr : UDPAddr) (ipsListen : gset string) :
  IsAddressSelf None (addListenAddress addr ipsListen) = false
  ∧ (∀ other, IsAddressSelf (Some other) ∅ = false)
  ∧ IsAddressSelf (Some addr) (addListenAddress addr ipsListen) = true
  ∧ (∀ zone, IsAddressSelf (Some {| udpIP := udpIP addr; udpPort := udpPort addr;
                                    udpZone := zone |})
                           (addListenAddress addr ipsListen) = true)
  ∧ (∀ other, IsAddressSelf (Some other) ipsListen = true →
              IsAddressSelf (Some other) (addListenAddress addr ipsListen) = true)
  ∧ (∀ other, listenKey other ≠ listenKey addr →
              IsAddressSelf (Some other) (addListenAddress addr ipsListen)
              = IsAddressSelf (Some other) ipsListen).
Proof.
  unfold IsAddressSelf, addListenAddress. split; [done|]. split; [|split; [|split; [|split]]].
  - intros other. apply bool_decide_eq_false. apply not_elem_of_empty.
  - apply bool_decide_eq_true. apply elem_of_union. left. by apply elem_of_singleton.
  - intros zone. apply bool_decide_eq_true. apply elem_of_union. left.
    by apply elem_of_singleton.
  - intros other Hself. apply bool_decide_eq_true in Hself. apply bool_decide_eq_true.
    apply elem_of_union. by right.
  - intros other Hne. apply bool_decide_ext. rewrite elem_of_union, elem_of_singleton.
    tauto.
Qed.

End ListenProperties.

(* ===================================================================== *)
(** * The theorems at work on concrete worlds                             *)
(* ===================================================================== *)

Lemma IsNetworkErrorFatal_exactly_address_not_valid_witness :
  connHeap disabledAdapter !! 0
    = Some (sampleConnection ConnectionActive (seconds 95) (seconds 80))
  ∧ activeOrRedundant (Status (sampleConnection ConnectionActive (seconds 95) (seconds 80)))
    = true
  ∧ statusOf 0 (sendPing 0 0 disabledAdapter) = Some ConnectionInactive.
Proof.
  split; [reflexivity|]. split; [reflexivity|].
  destruct (IsNetworkErrorFatal_exactly_address_not_valid 0 0 disabledAdapter
              (sampleConnection ConnectionActive (seconds 95) (seconds 80))
              eq_refl eq_refl) as (_ & Hfatal & _).
  apply Hfatal.
  exists "wsasendto: The requested address is not valid in its context.".
  split; [reflexivity|]. exists "wsasendto: The ", ".". reflexivity.
Defined.

Lemma sendPing_stamps_and_invalidates_witness :
  connHeap disabledAdapter !! 0
    = Some (sampleConnection ConnectionActive (seconds 95) (seconds 80))
  ∧ LastPingOut <$> connHeap (sendPing 0 0 disabledAdapter) !! 0 = Some (seconds 100)
  ∧ statusOf 0 (sendPing 0 0 disabledAdapter) = Some ConnectionInactive.
Proof.
  split; [reflexivity|].
  destruct (sendPing_stamps_and_invalidates 0 0 disabledAdapter
              (sampleConnection ConnectionActive (seconds 95) (seconds 80)) eq_refl)
    as (Hstamp & Hfatal).
  split; [exact Hstamp|].
  destruct (Hfatal eq_refl eq_refl) as (_ & Hstatus & _). exact Hstatus.
Defined.

Lemma PeerlistAdd_never_without_connections_witness :
  PeerlistAdd (H := secp256k1Compressed) sampleKey [0; 1] freshNode
  = (Some 0, true, (PeerlistAdd (H := secp256k1Compressed) sampleKey [0; 1] freshNode).2)
  ∧ [0; 1] ≠ []
  ∧ ∃ p info, Some 0 = Some p
              ∧ peerHeap (PeerlistAdd (H := secp256k1Compressed) sampleKey [0; 1] freshNode).2
                  !! p = Some info
              ∧ connectionActive info ≠ [].
Proof.
  split; [reflexivity|].
  destruct (PeerlistAdd_never_without_connections (H := secp256k1Compressed)) as [_ Hcreated].
  apply (Hcreated sampleKey [0; 1] freshNode). reflexivity.
Defined.

Lemma PeerlistAdd_created_record_witness :
  PeerlistAdd (H := secp256k1Compressed) sampleKey [0; 1] freshNode
  = (Some 0, true, (PeerlistAdd (H := secp256k1Compressed) sampleKey [0; 1] freshNode).2)
  ∧ ∃ p info first rest,
      Some 0 = Some p
      ∧ [0; 1] = first :: rest
      ∧ peerHeap (PeerlistAdd (H := secp256k1Compressed) sampleKey [0; 1] freshNode).2 !! p
        = Some info
      ∧ peerList (PeerlistAdd (H := secp256k1Compressed) sampleKey [0; 1] freshNode).2
          !! publicKey2Compressed (H := secp256k1Compressed) sampleKey = Some p
      ∧ PublicKey info = sampleKey
      ∧ connectionActive info = [0; 1]
      ∧ connectionInactive info = []
      ∧ connectionLatest info = Some first.
Proof.
  split; [reflexivity|].
  apply (PeerlistAdd_created_record (H := secp256k1Compressed) sampleKey [0; 1] freshNode).
  reflexivity.
Defined.

Lemma PeerlistAdd_uniqueness_witness :
  registryOk (H := secp256k1Compressed) freshNode
  ∧ peerList freshNode !! publicKey2Compressed (H := secp256k1Compressed) sampleKey = None
  ∧ ∃ p w1,
      PeerlistAdd (H := secp256k1Compressed) sampleKey [0] freshNode = (Some p, true, w1)
      ∧ (∀ call, call ∈ [(sampleKey, [1]); (sampleKey, [0; 1])] →
           PeerlistAdd (H := secp256k1Compressed) call.1 call.2 w1 = (Some p, false, w1))
      ∧ PeerlistAddAll (H := secp256k1Compressed)
          [(sampleKey, [0]); (sampleKey, [1]); (sampleKey, [0; 1])] freshNode
        = ([(Some p, true); (Some p, false); (Some p, false)], w1)
      ∧ recordsOf (H := secp256k1Compressed)
          (publicKey2Compressed (H := secp256k1Compressed) sampleKey) w1 = [p]
      ∧ length (recordsOf (H := secp256k1Compressed)
                  (publicKey2Compressed (H := secp256k1Compressed) sampleKey)
                  (PeerlistAddAll (H := secp256k1Compressed)
                     [(sampleKey, [0]); (sampleKey, [1]); (sampleKey, [0; 1])] freshNode).2)
        = 1.
Proof.
  split; [apply registryOk_empty|]. split; [reflexivity|].
  apply (PeerlistAdd_uniqueness (H := secp256k1Compressed)
           (publicKey2Compressed (H := secp256k1Compressed) sampleKey)
           (sampleKey, [0]) [(sampleKey, [1]); (sampleKey, [0; 1])] freshNode).
  - apply registryOk_empty.
  - reflexivity.
  - repeat constructor; discriminate.
Defined.

Lemma cmdAnouncement_handshake_witness :
  peerList freshNode = ∅
  ∧ ∃ p info,
      PeerlistGet (cmdAnouncement (H := secp256k1Compressed) None announcement freshNode) = [p]
      ∧ PeerlistLookup (H := secp256k1Compressed) sampleKey
          (cmdAnouncement (H := secp256k1Compressed) None announcement freshNode) = Some p
      ∧ peerHeap (cmdAnouncement (H := secp256k1Compressed) None announcement freshNode) !! p
        = Some info
      ∧ PublicKey info = sampleKey
      ∧ connectionActive info = [0]
      ∧ connectionInactive info = []
      ∧ wire (cmdAnouncement (H := secp256k1Compressed) None announcement freshNode)
        = [{| txPeer := p; txConnection := 0; txPacket := responsePacket; txResult := None |}].
Proof.
  split; [reflexivity|].
  destruct (cmdAnouncement_handshake (H := secp256k1Compressed) announcement freshNode)
    as [Hnew _].
  exact (Hnew eq_refl).
Defined.

Lemma quiet_connection_invalidated_witness :
  0 ∈ PeerlistGet (silentFor25 5)
  ∧ 0 ∈ activeOf 0 (silentFor25 5)
  ∧ LastPacketIn (sampleConnection ConnectionActive (seconds 75) (seconds 95))
    = (Now (silentFor25 5) - seconds 25)%Z
  ∧ (Now (silentFor25 5) - seconds 10
     ≤ LastPingOut (sampleConnection ConnectionActive (seconds 75) (seconds 95)))%Z
  ∧ 0 ∈ inactiveOf 0 (tickInOrder (silentFor25 5))
  ∧ (0 ∉ activeOf 0 (tickInOrder (silentFor25 5)))
  ∧ statusOf 0 (tickInOrder (silentFor25 5)) = Some ConnectionInactive
  ∧ pingsOn 0 (wire (tickInOrder (silentFor25 5))) = pingsOn 0 (wire (silentFor25 5)).
Proof.
  assert (Hp : 0 ∈ PeerlistGet (silentFor25 5)) by (vm_compute; left).
  assert (Hc : 0 ∈ activeOf 0 (silentFor25 5)) by (vm_compute; left).
  assert (Hrecent : (Now (silentFor25 5) - seconds 10
     ≤ LastPingOut (sampleConnection ConnectionActive (seconds 75) (seconds 95)))%Z)
    by (vm_compute; discriminate).
  split; [exact Hp|]. split; [exact Hc|]. split; [reflexivity|]. split; [exact Hrecent|].
  destruct (quiet_connection_invalidated (PeerlistGet (silentFor25 5)) (silentFor25 5) 0 0
              (sampleConnection ConnectionActive (seconds 75) (seconds 95))
              (Permutation_refl _) Hp Hc eq_refl eq_refl eq_refl)
    as ((Hin & Hout & Hst) & _ & Hpings & _).
  split; [exact Hin|]. split; [exact Hout|]. split; [exact Hst|]. exact (Hpings Hrecent).
Defined.

Lemma redundant_thresholds_are_fourfold_witness :
  0 ∈ activeOf 0 redundantSilentFor25
  ∧ (∀ q, 0 ∉ inactiveOf q redundantSilentFor25)
  ∧ LastPacketIn (sampleConnection ConnectionRedundant (seconds 75) (seconds 60))
    = (Now redundantSilentFor25 - seconds 25)%Z
  ∧ 0 ∈ activeOf 0 (tickInOrder redundantSilentFor25)
  ∧ statusOf 0 (tickInOrder redundantSilentFor25) = Some ConnectionRedundant.
Proof.
  assert (Hc : 0 ∈ activeOf 0 redundantSilentFor25) by (vm_compute; left).
  assert (Hnone : ∀ q, 0 ∉ inactiveOf q redundantSilentFor25).
  { intros [|[|q]]; vm_compute; inversion 1. }
  split; [exact Hc|]. split; [exact Hnone|]. split; [reflexivity|].
  destruct (redundant_thresholds_are_fourfold (PeerlistGet redundantSilentFor25)
              redundantSilentFor25 0 0
              (sampleConnection ConnectionRedundant (seconds 75) (seconds 60)))
    as [_ Hkept].
  destruct (Hkept Hc Hnone eq_refl eq_refl eq_refl) as (Hin & _ & _ & Hst).
  split; [exact Hin|exact Hst].
Defined.

Lemma purge_only_with_another_path_witness :
  NoDup (PeerlistGet threeExpired)
  ∧ listsOk 0 threeExpired
  ∧ 0 ∈ inactiveOf 0 threeExpired
  ∧ (0 ∉ inactiveOf 0 (tickInOrder threeExpired))
  ∧ retainsPath 0 (tickInOrder threeExpired).
Proof.
  assert (Hnd : NoDup (PeerlistGet threeExpired))
    by (vm_compute; apply NoDup_singleton).
  assert (Hok : listsOk 0 threeExpired).
  { split.
    - vm_compute. apply (bool_decide_unpack _). vm_compute. exact I.
    - intros d Hd conn Hconn.
      assert (Hall : Forall (λ cn, activeOrRedundant (Status cn) = false)
                            (connHeap threeExpired))
        by (repeat constructor).
      rewrite Forall_forall in Hall. apply Hall. by apply list_elem_of_lookup_2 in Hconn. }
  assert (Hc : 0 ∈ inactiveOf 0 threeExpired) by (vm_compute; left).
  assert (Hgone : 0 ∉ inactiveOf 0 (tickInOrder threeExpired))
    by (apply (bool_decide_unpack _); vm_compute; exact I).
  split; [exact Hnd|]. split; [exact Hok|]. split; [exact Hc|]. split; [exact Hgone|].
  destruct (purge_only_with_another_path (PeerlistGet threeExpired) threeExpired 0 0)
    as [_ Htick].
  exact (Htick (Permutation_refl _) Hnd Hok Hc Hgone).
Defined.

Lemma registryOk_sampleWorld (t : Time) (conns : list Connection) (act inact : list ConnPtr)
    (answers : list error) :
  registryOk (H := secp256k1Compressed) (sampleWorld t conns act inact answers).
Proof.
  intros k p Hk. simpl in Hk. apply lookup_singleton_Some in Hk as [<- <-]. reflexivity.
Qed.

Lemma PeerlistAdd_then_Lookup_witness :
  ∃ p, (PeerlistAdd (H := secp256k1Compressed) sampleKey [0; 1] freshNode).1.1 = Some p
       ∧ PeerlistLookup (H := secp256k1Compressed) sampleKey
           (PeerlistAdd (H := secp256k1Compressed) sampleKey [0; 1] freshNode).2 = Some p
       ∧ (∀ pk', publicKey2Compressed (H := secp256k1Compressed) pk'
                 = publicKey2Compressed (H := secp256k1Compressed) sampleKey →
                 PeerlistLookup (H := secp256k1Compressed) pk'
                   (PeerlistAdd (H := secp256k1Compressed) sampleKey [0; 1] freshNode).2
                 = Some p)
       ∧ ((PeerlistAdd (H := secp256k1Compressed) sampleKey [0; 1] freshNode).1.2 = true →
            peerHeap freshNode !! p = None
            ∧ is_Some (peerHeap (PeerlistAdd (H := secp256k1Compressed) sampleKey [0; 1]
                                   freshNode).2 !! p)).
Proof.
  apply (PeerlistAdd_then_Lookup (H := secp256k1Compressed) sampleKey [0; 1] freshNode).
  discriminate.
Defined.

Lemma PeerlistRemove_then_Lookup_witness :
  peerHeap heardRecently !! 0 = Some (samplePeer [0] [])
  ∧ PeerlistLookup (H := secp256k1Compressed) sampleKey heardRecently = Some 0
  ∧ PeerlistLookup (H := secp256k1Compressed) sampleKey
      (PeerlistRemove (H := secp256k1Compressed) 0 heardRecently) = None
  ∧ PeerlistCount (PeerlistRemove (H := secp256k1Compressed) 0 heardRecently) + 1
    = PeerlistCount heardRecently.
Proof.
  split; [reflexivity|]. split; [reflexivity|].
  destruct (PeerlistRemove_then_Lookup (H := secp256k1Compressed) 0 (samplePeer [0] [])
              heardRecently eq_refl) as (Hgone & _ & Hcount & _).
  split; [exact Hgone|exact Hcount].
Defined.

Lemma PeerlistAdd_then_Remove_witness :
  PeerlistLookup (H := secp256k1Compressed) sampleKey freshNode = None
  ∧ ∃ p w1, PeerlistAdd (H := secp256k1Compressed) sampleKey [0; 1] freshNode
            = (Some p, true, w1)
            ∧ peerList (PeerlistRemove (H := secp256k1Compressed) p w1) = peerList freshNode
            ∧ PeerlistCount (PeerlistRemove (H := secp256k1Compressed) p w1)
              = PeerlistCount freshNode
            ∧ PeerlistGet (PeerlistRemove (H := secp256k1Compressed) p w1)
              = PeerlistGet freshNode
            ∧ PeerlistLookup (H := secp256k1Compressed) sampleKey
                (PeerlistRemove (H := secp256k1Compressed) p w1) = None.
Proof.
  split; [reflexivity|].
  apply (PeerlistAdd_then_Remove (H := secp256k1Compressed) sampleKey [0; 1] freshNode).
  - discriminate.
  - reflexivity.
Defined.

Lemma PeerlistRemove_then_Add_witness :
  PeerlistLookup (H := secp256k1Compressed) sampleKey heardRecently = Some 0
  ∧ ∃ p' w' info,
      PeerlistAdd (H := secp256k1Compressed) sampleKey [0]
        (PeerlistRemove (H := secp256k1Compressed) 0 heardRecently) = (Some p', true, w')
      ∧ p' ≠ 0
      ∧ PeerlistLookup (H := secp256k1Compressed) sampleKey w' = Some p'
      ∧ peerHeap w' !! p' = Some info
      ∧ connectionActive info = [0]
      ∧ connectionInactive info = []
      ∧ peerHeap w' !! 0 = peerHeap heardRecently !! 0
      ∧ PeerlistCount w' = PeerlistCount heardRecently.
Proof.
  split; [reflexivity|].
  apply (PeerlistRemove_then_Add (H := secp256k1Compressed) sampleKey 0 [0] heardRecently).
  - apply registryOk_sampleWorld.
  - reflexivity.
  - discriminate.
Defined.

Lemma PeerlistGet_Lookup_Count_witness :
  NoDup (PeerlistGet heardRecently)
  ∧ length (PeerlistGet heardRecently) = PeerlistCount heardRecently
  ∧ ∀ p, p ∈ PeerlistGet heardRecently
         ↔ ∃ info, peerHeap heardRecently !! p = Some info
                   ∧ PeerlistLookup (H := secp256k1Compressed) (PublicKey info) heardRecently
                     = Some p.
Proof.
  apply (PeerlistGet_Lookup_Count (H := secp256k1Compressed) heardRecently).
  apply registryOk_sampleWorld.
Defined.

Lemma only_connection_of_sample (t : Time) (conns : list Connection) (q : PeerPtr) :
  ∀ c, c ∉ inactiveOf q (sampleWorld t conns [0] [] []).
Proof. intros c. destruct q as [|[|q]]; vm_compute; inversion 1. Qed.

Lemma tick_of_settled_peers_is_idle_witness :
  tick [0] heardRecently = heardRecently.
Proof.
  apply (tick_of_settled_peers_is_idle [0] heardRecently).
  - intros p c conn Hp Hc Hconn. apply list_elem_of_singleton in Hp as ->.
    apply list_elem_of_singleton in Hc as ->. injection Hconn as <-.
    split; [|left]; vm_compute; discriminate.
  - intros p c conn Hp Hc. apply list_elem_of_singleton in Hp as ->.
    by apply elem_of_nil in Hc.
Defined.

Lemma tick_spares_connection_within_thresholds_witness :
  connHeap (tick [0] heardRecently) !! 0
    = Some (sampleConnection ConnectionActive (seconds 95) (seconds 95))
  ∧ 0 ∈ activeOf 0 (tick [0] heardRecently)
  ∧ (∀ q, 0 ∉ inactiveOf q (tick [0] heardRecently))
  ∧ pingsOn 0 (wire (tick [0] heardRecently)) = pingsOn 0 (wire heardRecently).
Proof.
  apply (tick_spares_connection_within_thresholds [0] heardRecently 0 0
           (sampleConnection ConnectionActive (seconds 95) (seconds 95))).
  - vm_compute. left.
  - intros q. apply only_connection_of_sample.
  - reflexivity.
  - left. split; [|left]; vm_compute; discriminate.
Defined.

Lemma silent_connection_pinged_twice_then_invalidated_witness :
  (∀ k, k ≤ 22 →
     0 ∈ activeOf 0 (autoPingAll (take k ticks23) justHeard)
     ∧ statusOf 0 (autoPingAll (take k ticks23) justHeard) = Some ConnectionActive
     ∧ length (pingsOn 0 (wire (autoPingAll (take k ticks23) justHeard)))
       = length (pingsOn 0 (wire justHeard)) + pingsAfter k)
  ∧ 0 ∈ inactiveOf 0 (autoPingAll ticks23 justHeard)
  ∧ (0 ∉ activeOf 0 (autoPingAll ticks23 justHeard))
  ∧ statusOf 0 (autoPingAll ticks23 justHeard) = Some ConnectionInactive
  ∧ length (pingsOn 0 (wire (autoPingAll ticks23 justHeard)))
    = length (pingsOn 0 (wire justHeard)) + 2.
Proof.
  apply (silent_connection_pinged_twice_then_invalidated ticks23 justHeard 0 0
           (sampleConnection ConnectionActive (seconds 100) (seconds 90))).
  - reflexivity.
  - apply Forall_forall. intros order Horder. apply elem_of_replicate in Horder as [-> _].
    left.
  - reflexivity.
  - reflexivity.
  - reflexivity.
  - vm_compute. discriminate.
  - vm_compute. left.
  - intros q. apply only_connection_of_sample.
  - reflexivity.
Defined.

Lemma cmdAnouncement_repeated_witness :
  ∃ p info,
    PeerlistLookup (H := secp256k1Compressed) (SenderPublicKey announcementAgain)
      (cmdAnouncement (H := secp256k1Compressed) None announcement freshNode) = Some p
    ∧ peerHeap (cmdAnouncement (H := secp256k1Compressed) None announcement freshNode) !! p
      = Some info
    ∧ peerHeap (cmdAnouncement (H := secp256k1Compressed) (Some p) announcementAgain
                  (cmdAnouncement (H := secp256k1Compressed) None announcement freshNode)) !! p
      = Some info
    ∧ connectionActive info = [connection announcement]
    ∧ peerList (cmdAnouncement (H := secp256k1Compressed) (Some p) announcementAgain
                  (cmdAnouncement (H := secp256k1Compressed) None announcement freshNode))
      = peerList (cmdAnouncement (H := secp256k1Compressed) None announcement freshNode)
    ∧ PeerlistCount (cmdAnouncement (H := secp256k1Compressed) (Some p) announcementAgain
                       (cmdAnouncement (H := secp256k1Compressed) None announcement freshNode))
      = S (PeerlistCount freshNode)
    ∧ wire (cmdAnouncement (H := secp256k1Compressed) (Some p) announcementAgain
              (cmdAnouncement (H := secp256k1Compressed) None announcement freshNode))
      = wire freshNode
        ++ [{| txPeer := p; txConnection := connection announcement;
               txPacket := responsePacket; txResult := answer 0 freshNode |};
            {| txPeer := p; txConnection := connection announcement;
               txPacket := responsePacket; txResult := answer 1 freshNode |}]
    ∧ cmdAnouncement (H := secp256k1Compressed) None announcementAgain
        (cmdAnouncement (H := secp256k1Compressed) None announcement freshNode)
      = cmdAnouncement (H := secp256k1Compressed) None announcement freshNode.
Proof.
  apply (cmdAnouncement_repeated (H := secp256k1Compressed) announcement announcementAgain
           freshNode).
  - reflexivity.
  - reflexivity.
Defined.

Lemma wirelessOnly_fits :
  len (networks6 wirelessOnly) ≤ cap (networks6 wirelessOnly)
  ∧ len (networks4 wirelessOnly) ≤ cap (networks4 wirelessOnly).
Proof. split; vm_compute; lia. Qed.

Lemma removal_terminates_matching_listeners_only_witness :
  ∃ st' ts,
    networkChangeInterfaceRemove "wlan0" wirelessOnly = Some st'
    ∧ listeners st' = listeners wirelessOnly
    ∧ terminated st' = terminated wirelessOnly ++ ts
    ∧ Forall (λ x, ownedBy (listeners wirelessOnly) "wlan0" x = true
                   ∧ (x ∈ elements (networks6 wirelessOnly)
                      ∨ x ∈ elements (networks4 wirelessOnly))) ts.
Proof.
  destruct (removal_terminates_matching_listeners_only (H := sampleNetLib) wirelessOnly
              (proj1 wirelessOnly_fits) (proj2 wirelessOnly_fits)) as [Hiface _].
  destruct (Hiface "wlan0") as (st' & ts & Hrun & Hheap & Hlog & _ & Hts & _).
  exists st', ts. split; [exact Hrun|]. split; [exact Hheap|]. split; [exact Hlog|exact Hts].
Defined.

Lemma removal_exact_with_one_listener_per_list_witness :
  ∃ st',
    networkChangeInterfaceRemove "wlan0" wirelessOnly = Some st'
    ∧ terminated st'
      = terminated wirelessOnly
        ++ filter (λ x, ownedBy (listeners wirelessOnly) "wlan0" x = true)
                  (elements (networks6 wirelessOnly))
        ++ filter (λ x, ownedBy (listeners wirelessOnly) "wlan0" x = true)
                  (elements (networks4 wirelessOnly))
    ∧ elements (networks6 st')
      = filter (λ x, ownedBy (listeners wirelessOnly) "wlan0" x = false)
               (elements (networks6 wirelessOnly))
    ∧ elements (networks4 st')
      = filter (λ x, ownedBy (listeners wirelessOnly) "wlan0" x = false)
               (elements (networks4 wirelessOnly)).
Proof.
  destruct (removal_exact_with_one_listener_per_list (H := sampleNetLib) wirelessOnly
              (proj1 wirelessOnly_fits) (proj2 wirelessOnly_fits)) as [Hiface _].
  apply (Hiface "wlan0"); vm_compute; lia.
Defined.

Lemma networkChangeMonitor_calls_once_witness :
  networkChangeMonitor (H := sampleNetLib) [] (replicate 3 twoAdapters) ∅
  = monitorCycle (H := sampleNetLib) ∅ twoAdapters
  ∧ (monitorCycle (H := sampleNetLib) (monitorCycle (H := sampleNetLib) ∅ twoAdapters).2
       twoAdapters).1 = [].
Proof.
  destruct (networkChangeMonitor_calls_once (H := sampleNetLib) [ethernet; wireless] 2 ∅)
    as (Hall & Hsecond & _).
  - apply (bool_decide_unpack _). vm_compute. exact I.
  - split; [exact Hall|exact Hsecond].
Defined.

Lemma networkPrepareListen_registers_one_listener_witness :
  ∃ ip nw st',
    ParseIP (NetLib := sampleNetLib) "192.168.1.5" = Some ip
    ∧ networkPrepareListen (H := sampleNetLib) twoAdapters bindsAlways "192.168.1.5" 0
        wirelessOnly
      = (Some (length (listeners wirelessOnly)), None, st')
    ∧ listeners st' = listeners wirelessOnly ++ [nw]
    ∧ iface nw = Some {| Name := "eth0" |}
    ∧ elements (networks4 st') = [1]
    ∧ elements (networks6 st') = [0].
Proof.
  destruct (networkPrepareListen_registers_one_listener (H := sampleNetLib) twoAdapters
              bindsAlways "192.168.1.5" 0 wirelessOnly
              (proj1 wirelessOnly_fits) (proj2 wirelessOnly_fits)) as [_ Hsuccess].
  destruct (Hsuccess eq_refl) as (ip & nw & st' & Hip & Hrun & Hheap & _ & _ & _ & H4 & H6 & _).
  exists ip, nw, st'. split; [exact Hip|]. split; [exact Hrun|]. split; [exact Hheap|].
  injection Hip as <-.
  assert (Hst : st' = (networkPrepareListen (H := sampleNetLib) twoAdapters bindsAlways
                         "192.168.1.5" 0 wirelessOnly).2) by (by rewrite Hrun).
  split.
  - assert (Hnw : listeners st' !! 1 = Some nw) by (by rewrite Hheap).
    rewrite Hst in Hnw. vm_compute in Hnw. by injection Hnw as <-.
  - split; [exact H4|exact H6].
Defined.

Lemma listener_opened_then_interface_removed_witness :
  ∃ st'',
    networkChangeInterfaceRemove "eth0"
      (networkPrepareListen (H := sampleNetLib) twoAdapters bindsAlways "192.168.1.5" 0
         wirelessOnly).2 = Some st''
    ∧ terminated st'' = terminated wirelessOnly ++ [1]
    ∧ elements (networks6 st'') = elements (networks6 wirelessOnly)
    ∧ elements (networks4 st'') = elements (networks4 wirelessOnly).
Proof.
  apply (listener_opened_then_interface_removed (H := sampleNetLib) twoAdapters bindsAlways
           "192.168.1.5" 0 wirelessOnly
           (networkPrepareListen (H := sampleNetLib) twoAdapters bindsAlways "192.168.1.5" 0
              wirelessOnly).2
           1 {| iface := Some {| Name := "eth0" |}; address := "192.168.1.5:112" |}
           {| Name := "eth0" |}).
  - apply wirelessOnly_fits.
  - apply wirelessOnly_fits.
  - intros x [Hx|Hx].
    + apply list_elem_of_singleton in Hx as ->. split; [vm_compute; lia|reflexivity].
    + by apply elem_of_nil in Hx.
  - reflexivity.
  - reflexivity.
  - reflexivity.
Defined.
